(** * Static arithmetic coder (g3_v1_c.cpp): shallow embedding and properties

    The development follows [src/coder/g3_v1_c.cpp].

    - Machine integers are integers of [Z] with their wrap-around written
      out: [u8], [u32] and [u64] reduce modulo [2^8], [2^32] and [2^64].
      The [long long] tally of a byte is not wrapped (it never exceeds the
      input length).
    - [std::vector<unsigned char>] and the contents of files are
      [list byte]; the [std::map] used for the tally is an association list
      kept in ascending key order, the order in which the map is iterated.
    - The members [symbols] and [total_count] of the encoder object are the
      record [Encoder], passed to and returned by the methods.
    - [throw std::runtime_error] and the integer division by a zero
      [total_count] are the [Err] outcomes of [result].  The two [for (;;)]
      loops take a bound on the number of times their conditions are
      tested; 33 is shown to be enough from every state.
    - Left out: failures to open or create a file, memory reservation,
      the [double] ratio of [Statistics], [printStatistics] and [main]. *)

From Stdlib Require Import ZArith List Lia Bool Arith Sorted Permutation.
From Stdlib Require Import Strings.Byte.
Import ListNotations.

Local Open Scope Z_scope.

(** ** Machine integers and bytes *)

Definition u8 (z : Z) : Z := z mod 2 ^ 8.
Definition u32 (z : Z) : Z := z mod 2 ^ 32.
Definition u64 (z : Z) : Z := z mod 2 ^ 64.

Definition byte_val (b : byte) : Z := Z.of_N (Byte.to_N b).

Definition to_byte (z : Z) : byte :=
  match Byte.of_N (Z.to_N (z mod 256)) with
  | Some b => b
  | None => x00
  end.

(** ** Outcomes: [throw std::runtime_error], division by zero, loop bound *)

Inductive error : Type :=
| InvalidFormat      (* "Invalid file format" *)
| UnexpectedEOF      (* "Unexpected EOF" *)
| DivisionByZero     (* integer division by [total_count = 0] *)
| LoopBound.         (* a [for (;;)] loop ran longer than the model's bound *)

Inductive result (A : Type) : Type :=
| Ok (a : A)
| Err (e : error).

Arguments Ok {A} a.
Arguments Err {A} e.

Definition bind {A B} (r : result A) (k : A -> result B) : result B :=
  match r with
  | Ok a => k a
  | Err e => Err e
  end.

Notation "'do' x <- r ; k" := (bind r (fun x => k))
  (at level 10, x name, r at level 100, k at level 200).
Notation "'do' ' p <- r ; k" := (bind r (fun x => match x with p => k end))
  (at level 10, p pattern, r at level 100, k at level 200).

(** ** Constants of the interval engine *)

Definition MAX_RANGE : Z := 0xFFFFFFFF.
Definition HALF : Z := 0x80000000.
Definition FIRST_QTR : Z := 0x40000000.
Definition THIRD_QTR : Z := 0xC0000000.

(** ** The symbol table *)

Record Symbol : Type := mkSymbol {
  value : byte;
  low : Z;
  high : Z;
  count : Z
}.

(** The members [symbols] and [total_count] of an [ArithmeticEncoder]. *)
Record Encoder : Type := mkEncoder {
  symbols : list Symbol;
  total_count : Z
}.

(** [freq[byte]++] on a [std::map<unsigned char, long long>]: the map is an
    association list in ascending key order, a missing key starts at 0. *)
Fixpoint freq_incr (b : byte) (freq : list (byte * Z)) : list (byte * Z) :=
  match freq with
  | [] => [(b, 1)]
  | (k, c) :: rest =>
      if byte_val b <? byte_val k then (b, 1) :: freq
      else if byte_val b =? byte_val k then (k, c + 1) :: rest
      else (k, c) :: freq_incr b rest
  end.

Definition tally (data : list byte) : list (byte * Z) :=
  fold_left (fun freq b => freq_incr b freq) data [].

(** The loop of [buildFrequencyTable] over the map; [count] is a
    [long long] cast to [uint64_t], [cumulative] is a [uint64_t]. *)
Fixpoint push_frequencies (cumulative : Z) (freq : list (byte * Z)) : list Symbol :=
  match freq with
  | [] => []
  | (v, c) :: rest =>
      mkSymbol v cumulative (u64 (cumulative + u64 c)) (u64 c)
        :: push_frequencies (u64 (cumulative + u64 c)) rest
  end.

Definition buildFrequencyTable (self : Encoder) (data : list byte) : Encoder :=
  mkEncoder (push_frequencies 0 (tally data)) (u64 (Z.of_nat (length data))).

(** The loop of [buildSymbolsFromCounts]; returns the table and the final
    [cumulative]. *)
Fixpoint push_counts (cumulative : Z) (counts : list (byte * Z)) : list Symbol * Z :=
  match counts with
  | [] => ([], cumulative)
  | (v, c) :: rest =>
      let '(syms, total) := push_counts (u64 (cumulative + c)) rest in
      (mkSymbol v cumulative (u64 (cumulative + c)) c :: syms, total)
  end.

Definition buildSymbolsFromCounts (self : Encoder) (counts : list (byte * Z)) : Encoder :=
  let '(syms, total) := push_counts 0 counts in
  mkEncoder syms total.

(** ** Bit stream adapter *)

Module BitWriter.

Record t : Type := mk {
  bytes : list byte;
  current : Z;
  bits_filled : Z
}.

Definition empty : t := mk [] 0 0.

Definition writeBit (w : t) (bit : Z) : t :=
  let current := u8 (Z.lor (Z.shiftl (current w) 1) (Z.land bit 1)) in
  let bits_filled := bits_filled w + 1 in
  if bits_filled =? 8
  then mk (bytes w ++ [to_byte current]) 0 0
  else mk (bytes w) current bits_filled.

Definition flush (w : t) : t :=
  if bits_filled w >? 0
  then mk (bytes w ++ [to_byte (u8 (Z.shiftl (current w) (8 - bits_filled w)))]) 0 0
  else w.

End BitWriter.

Module BitReader.

Record t : Type := mk {
  bytes : list byte;
  index : nat;
  current : Z;
  bits_left : Z
}.

Definition make (data : list byte) : t := mk data 0 0 0.

Definition shift_out (r : t) : Z * t :=
  (Z.land (Z.shiftr (current r) 7) 1,
   mk (bytes r) (index r) (u8 (Z.shiftl (current r) 1)) (bits_left r - 1)).

Definition readBit (r : t) : Z * t :=
  if bits_left r =? 0 then
    match nth_error (bytes r) (index r) with
    | None => (0, r)
    | Some b => shift_out (mk (bytes r) (S (index r)) (byte_val b) 8)
    end
  else shift_out r.

End BitReader.

(** ** Interval engine: encoder *)

Definition find_symbol (byte : byte) (syms : list Symbol) : option Symbol :=
  find (fun s => Byte.eqb (value s) byte) syms.

(** [while (n > 0) { writer.writeBit(bit); n--; }] *)
Definition writeBits (writer : BitWriter.t) (bit : Z) (n : Z) : BitWriter.t :=
  Nat.iter (Z.to_nat n) (fun w => BitWriter.writeBit w bit) writer.

Record EncState : Type := mkEnc {
  enc_low : Z;
  enc_high : Z;
  bits_to_follow : Z;
  writer : BitWriter.t
}.

(** The [for (;;)] loop of [encodeData]; [fuel] bounds the number of tests
    of the loop's conditions. *)
Fixpoint encode_renorm (fuel : nat) (low high bits_to_follow : Z)
    (writer : BitWriter.t) : result EncState :=
  match fuel with
  | O => Err LoopBound
  | S fuel =>
      if high <? HALF then
        let writer := BitWriter.writeBit writer 0 in
        let writer := writeBits writer 1 bits_to_follow in
        encode_renorm fuel (u32 (Z.shiftl low 1))
          (Z.lor (u32 (Z.shiftl high 1)) 1) 0 writer
      else if low >=? HALF then
        let writer := BitWriter.writeBit writer 1 in
        let writer := writeBits writer 0 bits_to_follow in
        let low := u32 (low - HALF) in
        let high := u32 (high - HALF) in
        encode_renorm fuel (u32 (Z.shiftl low 1))
          (Z.lor (u32 (Z.shiftl high 1)) 1) 0 writer
      else if (low >=? FIRST_QTR) && (high <? THIRD_QTR) then
        let bits_to_follow := u32 (bits_to_follow + 1) in
        let low := u32 (low - FIRST_QTR) in
        let high := u32 (high - FIRST_QTR) in
        encode_renorm fuel (u32 (Z.shiftl low 1))
          (Z.lor (u32 (Z.shiftl high 1)) 1) bits_to_follow writer
      else Ok (mkEnc low high bits_to_follow writer)
  end.

(** No state of two 32-bit words survives 32 shifts, so 33 tests suffice. *)
Definition renorm_fuel : nat := 33.

(** Lines 110-112: the encoder's narrowing of [[low, high]] to the entry's
    share, in 64-bit arithmetic truncated to 32 bits. *)
Definition encode_narrow (lo hi : Z) (it : Symbol) (total_count : Z) : Z * Z :=
  let range := u64 (u32 (hi - lo) + 1) in
  let hi' := u32 (u64 (u64 (lo + u64 (range * high it) / total_count) - 1)) in
  let lo' := u32 (u64 (lo + u64 (range * low it) / total_count)) in
  (lo', hi').

(** One iteration of the [for (unsigned char byte : data)] loop. *)
Definition encode_byte (self : Encoder) (st : EncState) (byte : byte) : result EncState :=
  match find_symbol byte (symbols self) with
  | None => Ok st
  | Some it =>
      if total_count self =? 0 then Err DivisionByZero
      else
        let '(low, high) := encode_narrow (enc_low st) (enc_high st) it (total_count self) in
        encode_renorm renorm_fuel low high (bits_to_follow st) (writer st)
  end.

Fixpoint encode_loop (self : Encoder) (st : EncState) (data : list byte) : result EncState :=
  match data with
  | [] => Ok st
  | byte :: rest =>
      do st' <- encode_byte self st byte;
      encode_loop self st' rest
  end.

(** The termination bits: [bits_to_follow++], one deciding bit, then
    [bits_to_follow] opposite bits, then [flush]. *)
Definition encode_tail (st : EncState) : BitWriter.t :=
  let bits_to_follow := u32 (bits_to_follow st + 1) in
  if enc_low st <? FIRST_QTR
  then writeBits (BitWriter.writeBit (writer st) 0) 1 bits_to_follow
  else writeBits (BitWriter.writeBit (writer st) 1) 0 bits_to_follow.

Definition encode_finish (st : EncState) : BitWriter.t :=
  BitWriter.flush (encode_tail st).

Definition encodeData (self : Encoder) (data : list byte) (writer : BitWriter.t)
    : result BitWriter.t :=
  do st <- encode_loop self (mkEnc 0 MAX_RANGE 0 writer) data;
  Ok (encode_finish st).

(** ** Interval engine: decoder *)

Fixpoint decodeSymbol (syms : list Symbol) (cum : Z) : byte :=
  match syms with
  | [] => x00
  | s :: rest =>
      if (cum >=? low s) && (cum <? high s) then value s
      else decodeSymbol rest cum
  end.

Record DecState : Type := mkDec {
  dec_low : Z;
  dec_high : Z;
  dec_value : Z;
  reader : BitReader.t
}.

(** [value = (value << 1) | reader.readBit()] *)
Definition shift_in (value : Z) (reader : BitReader.t) : Z * BitReader.t :=
  let '(bit, reader) := BitReader.readBit reader in
  (Z.lor (u32 (Z.shiftl value 1)) bit, reader).

(** The [for (;;)] loop of [decodeData]. *)
Fixpoint decode_renorm (fuel : nat) (low high value : Z)
    (reader : BitReader.t) : result DecState :=
  match fuel with
  | O => Err LoopBound
  | S fuel =>
      if high <? HALF then
        let '(value, reader) := shift_in value reader in
        decode_renorm fuel (u32 (Z.shiftl low 1))
          (Z.lor (u32 (Z.shiftl high 1)) 1) value reader
      else if low >=? HALF then
        let low := u32 (low - HALF) in
        let high := u32 (high - HALF) in
        let value := u32 (value - HALF) in
        let '(value, reader) := shift_in value reader in
        decode_renorm fuel (u32 (Z.shiftl low 1))
          (Z.lor (u32 (Z.shiftl high 1)) 1) value reader
      else if (low >=? FIRST_QTR) && (high <? THIRD_QTR) then
        let low := u32 (low - FIRST_QTR) in
        let high := u32 (high - FIRST_QTR) in
        let value := u32 (value - FIRST_QTR) in
        let '(value, reader) := shift_in value reader in
        decode_renorm fuel (u32 (Z.shiftl low 1))
          (Z.lor (u32 (Z.shiftl high 1)) 1) value reader
      else Ok (mkDec low high value reader)
  end.

(** Line 182: the cumulative value the decoder looks up. *)
Definition decode_cum (lo hi value total_count : Z) : Z :=
  let range := u64 (u32 (hi - lo) + 1) in
  u64 (u64 (u64 (u32 (value - lo) + 1) * total_count) - 1) / range.

(** Lines 181, 190-191: the decoder's narrowing. *)
Definition decode_narrow (lo hi : Z) (it : Symbol) (total_count : Z) : Z * Z :=
  let range := u64 (u32 (hi - lo) + 1) in
  let hi' := u32 (u64 (u64 (lo + u64 (range * high it) / total_count) - 1)) in
  let lo' := u32 (u64 (lo + u64 (range * low it) / total_count)) in
  (lo', hi').

(** One iteration of the [for (i < original_size)] loop: the decoded byte
    and the next state. *)
Definition decode_step (self : Encoder) (st : DecState) : byte * result DecState :=
  let cum := decode_cum (dec_low st) (dec_high st) (dec_value st) (total_count self) in
  let symbol_value := decodeSymbol (symbols self) cum in
  (symbol_value,
   match find_symbol symbol_value (symbols self) with
   | None => Ok st
   | Some it =>
       if total_count self =? 0 then Err DivisionByZero
       else
         let '(low, high) := decode_narrow (dec_low st) (dec_high st) it (total_count self) in
         decode_renorm renorm_fuel low high (dec_value st) (reader st)
   end).

Fixpoint decode_loop (self : Encoder) (n : nat) (st : DecState) (output : list byte)
    : result (list byte) :=
  match n with
  | O => Ok output
  | S n =>
      let '(symbol_value, next) := decode_step self st in
      do st' <- next;
      decode_loop self n st' (output ++ [symbol_value])
  end.

(** [for (int i = 0; i < 32; i++) value = (value << 1) | reader.readBit();] *)
Fixpoint fill_value (n : nat) (value : Z) (reader : BitReader.t) : Z * BitReader.t :=
  match n with
  | O => (value, reader)
  | S n => let '(value, reader) := shift_in value reader in fill_value n value reader
  end.

Definition decodeData (self : Encoder) (reader : BitReader.t) (output : list byte)
    (original_size : Z) : result (list byte) :=
  let '(value, reader) := fill_value 32 0 reader in
  decode_loop self (Z.to_nat original_size) (mkDec 0 MAX_RANGE value reader) output.

(** ** Serialization *)

(** [out.put((v >> (8 * i)) & 0xFF)] for [i] from [n - 1] down to 0. *)
Fixpoint put_be (n : nat) (v : Z) : list byte :=
  match n with
  | O => []
  | S n => to_byte (Z.land (Z.shiftr v (8 * Z.of_nat n)) 0xFF) :: put_be n v
  end.

Definition writeUint64 (v : Z) : list byte := put_be 8 v.
Definition writeUint32 (v : Z) : list byte := put_be 4 v.

(** [n] times [c = in.get(); if (c == EOF) throw; v = (v << 8) | c], the
    shift wrapping at [width] bits; the stream is the list of bytes left. *)
Fixpoint get_be (width : Z) (n : nat) (v : Z) (input : list byte) : result (Z * list byte) :=
  match n with
  | O => Ok (v, input)
  | S n =>
      match input with
      | [] => Err UnexpectedEOF
      | c :: input => get_be width n (Z.lor (Z.shiftl v 8 mod 2 ^ width) (byte_val c)) input
      end
  end.

Definition readUint64 (input : list byte) : result (Z * list byte) := get_be 64 8 0 input.
Definition readUint32 (input : list byte) : result (Z * list byte) := get_be 32 4 0 input.

Definition magic : list byte := [x41; x52; x49; x54].  (* "ARIT" *)

Fixpoint put_table (syms : list Symbol) : list byte :=
  match syms with
  | [] => []
  | s :: rest => value s :: writeUint64 (count s) ++ put_table rest
  end.

(** The integer fields of [Statistics] (the ratio is a [double]). *)
Record Statistics : Type := mkStatistics {
  original_size : Z;
  compressed_size : Z;
  space_saved : Z
}.

(** [compress], from the bytes of the input file to the encoder object
    after the call, the bytes of the output file and the statistics. *)
Definition compress (self : Encoder) (data : list byte)
    : result (Encoder * list byte * Statistics) :=
  let original_size := Z.of_nat (length data) in
  let self := buildFrequencyTable self data in
  do writer <- encodeData self data BitWriter.empty;
  let outfile :=
    magic ++ writeUint64 (u64 original_size)
          ++ writeUint32 (u32 (Z.of_nat (length (symbols self))))
          ++ put_table (symbols self)
          ++ BitWriter.bytes writer in
  let compressed_size :=
    Z.of_nat (length (BitWriter.bytes writer)) + 4 + 8 + 4
    + Z.of_nat (length (symbols self)) * (1 + 8) in
  Ok (self, outfile,
      mkStatistics original_size compressed_size (original_size - compressed_size)).

(** The table loop of [decompress]. *)
Fixpoint get_table (n : nat) (input : list byte) : result (list (byte * Z) * list byte) :=
  match n with
  | O => Ok ([], input)
  | S n =>
      match input with
      | [] => Err UnexpectedEOF
      | v :: input =>
          do '(count, input) <- readUint64 input;
          do '(counts, input) <- get_table n input;
          Ok ((v, count) :: counts, input)
      end
  end.

(** [decompress], from the bytes of the input file to the encoder object
    after the call and the bytes written to the output file. *)
Definition decompress (self : Encoder) (infile : list byte)
    : result (Encoder * list byte) :=
  if negb ((length (firstn 4 infile) =? 4)%nat
           && if list_eq_dec Byte.byte_eq_dec (firstn 4 infile) magic then true else false)
  then Err InvalidFormat
  else
    let input := skipn 4 infile in
    do '(original_size, input) <- readUint64 input;
    do '(symbol_count, input) <- readUint32 input;
    do '(counts, bitstream) <- get_table (Z.to_nat symbol_count) input;
    let self := buildSymbolsFromCounts self counts in
    do decoded <- decodeData self (BitReader.make bitstream) [] original_size;
    Ok (self, decoded).

(** ** Notions used to state the properties *)

Definition bit_of (z i : Z) : Z := Z.b2z (Z.testbit z i).

(** The top [n] bits of an 8-bit word, most significant first. *)
Definition top_bits (n : nat) (z : Z) : list Z :=
  map (fun j => bit_of z (7 - Z.of_nat j)) (seq 0 n).

Definition bits_of_byte (b : byte) : list Z := top_bits 8 (byte_val b).

Definition bits_of_bytes (data : list byte) : list Z := flat_map bits_of_byte data.

(** The bit returned by call number [k] (from 0) of [readBit]. *)
Fixpoint read_nth (r : BitReader.t) (k : nat) : Z :=
  match k with
  | O => fst (BitReader.readBit r)
  | S k => read_nth (snd (BitReader.readBit r)) k
  end.

(** The bits a reader has yet to deliver before it runs dry. *)
Definition remaining (r : BitReader.t) : list Z :=
  top_bits (Z.to_nat (BitReader.bits_left r)) (BitReader.current r)
  ++ bits_of_bytes (skipn (BitReader.index r) (BitReader.bytes r)).

(** The entries cover [[from, upto)] one after the other: each starts where
    the previous one ends and spans [count] values. *)
Fixpoint partitions (from : Z) (syms : list Symbol) (upto : Z) : Prop :=
  match syms with
  | [] => from = upto
  | s :: rest =>
      low s = from /\ high s - low s = count s /\ 0 <= count s
      /\ partitions (high s) rest upto
  end.

Definition sum_counts (syms : list Symbol) : Z :=
  fold_right (fun s acc => count s + acc) 0 syms.

Definition ascending_values (syms : list Symbol) : Prop :=
  StronglySorted (fun a b => byte_val (value a) < byte_val (value b)) syms.

(** The frequency invariant of a model. *)
Definition model_invariant (m : Encoder) : Prop :=
  sum_counts (symbols m) = total_count m
  /\ partitions 0 (symbols m) (total_count m).

Definition sum_freq (freq : list (byte * Z)) : Z :=
  fold_right (fun kc acc => snd kc + acc) 0 freq.

Definition ascending_keys (freq : list (byte * Z)) : Prop :=
  StronglySorted (fun a b => byte_val (fst a) < byte_val (fst b)) freq.

(** One renormalization of the interval, written without wrap-around:
    [None] when none of E1, E2, E3 applies. *)
Definition scale (lo hi : Z) : option (Z * Z) :=
  if hi <? HALF then Some ((2 * lo) mod 2 ^ 32, 2 * hi + 1)
  else if lo >=? HALF then Some (2 * (lo - HALF), 2 * (hi - HALF) + 1)
  else if (lo >=? FIRST_QTR) && (hi <? THIRD_QTR)
       then Some (2 * (lo - FIRST_QTR), 2 * (hi - FIRST_QTR) + 1)
       else None.

(** After [k] renormalizations the low [k] bits of [lo] are 0 and those of
    [hi] are 1. *)
Definition shifted (k : nat) (lo hi : Z) : Prop :=
  lo mod 2 ^ Z.of_nat k = 0 /\ hi mod 2 ^ Z.of_nat k = 2 ^ Z.of_nat k - 1.

(** What one pass through the encoder's loop body does to
    [bits_to_follow] and to the writer. *)
Definition follow_after (lo hi bits_to_follow : Z) : Z :=
  if hi <? HALF then 0
  else if lo >=? HALF then 0
  else u32 (bits_to_follow + 1).

Definition writer_after (lo hi bits_to_follow : Z) (w : BitWriter.t) : BitWriter.t :=
  if hi <? HALF then writeBits (BitWriter.writeBit w 0) 1 bits_to_follow
  else if lo >=? HALF then writeBits (BitWriter.writeBit w 1) 0 bits_to_follow
  else w.

(** What one pass through the decoder's loop body subtracts from [value]
    before it shifts the next bit in. *)
Definition offset_of (lo hi : Z) : Z :=
  if hi <? HALF then 0
  else if lo >=? HALF then HALF
  else FIRST_QTR.

(** The unsigned number a sequence of bytes spells, first byte most
    significant. *)
Definition be_value (bs : list byte) : Z :=
  fold_left (fun acc b => acc * 256 + byte_val b) bs 0.

(** *** Bit streams *)

(** Bit [i] of a stream that goes on with zeros after its last bit. *)
Definition sbit (W : list Z) (i : nat) : Z := nth i W 0.

Definition is_bits (W : list Z) : Prop := Forall (fun b => b = 0 \/ b = 1) W.

(** The number spelled by the [n] bits from position [start] on. *)
Fixpoint fvalue (n : nat) (f : nat -> Z) (start : nat) : Z :=
  match n with
  | O => 0
  | S n => 2 ^ Z.of_nat n * f start + fvalue n f (S start)
  end.

(** The 32-bit window on a stream of which the first bit still stands for
    itself and the next [p] bits are the ones that follow it (the
    opposite bits owed by E3): bit 0, then bits [p + 1 .. p + 31]. *)
Definition window (p : nat) (W : list Z) : Z :=
  2 ^ 31 * sbit W 0 + fvalue 31 (sbit W) (S p).

Definition pending_ok (p : nat) (W : list Z) : Prop :=
  forall i : nat, (1 <= i <= p)%nat -> sbit W i = 1 - sbit W 0.

(** A deciding bit and the opposite bits that follow it. *)
Definition emit (bit : Z) (p : nat) : list Z := bit :: repeat (1 - bit) p.

(** The bits one pass through the encoder's loop body writes. *)
Definition emitted (lo hi bits_to_follow : Z) : list Z :=
  if hi <? HALF then emit 0 (Z.to_nat bits_to_follow)
  else if lo >=? HALF then emit 1 (Z.to_nat bits_to_follow)
  else [].

(** The low [k] bits of a word, most significant first. *)
Definition low_bits (k : nat) (z : Z) : list Z :=
  map (fun j => bit_of z (Z.of_nat k - 1 - Z.of_nat j)) (seq 0 k).

(** All the bits a writer has been given. *)
Definition written (w : BitWriter.t) : list Z :=
  bits_of_bytes (BitWriter.bytes w)
  ++ low_bits (Z.to_nat (BitWriter.bits_filled w)) (BitWriter.current w).

Definition wf_writer (w : BitWriter.t) : Prop :=
  0 <= BitWriter.bits_filled w < 8
  /\ 0 <= BitWriter.current w < 2 ^ BitWriter.bits_filled w.

(** The reader stands at bit [k] of the stream [W]. *)
Definition reader_at (rd : BitReader.t) (W : list Z) (k : nat) : Prop :=
  0 <= BitReader.bits_left rd
  /\ forall i : nat, nth i (remaining rd) 0 = sbit W (k + i).

(** *** The points the interval passes through *)

(** [(low, high)] after every pass through the body of a renormalization
    loop (lines 114-138 and 193-210 update them alike). *)
Fixpoint renorm_trace (fuel : nat) (low high : Z) : list (Z * Z) :=
  match fuel with
  | O => []
  | S fuel =>
      if high <? HALF then
        let low := u32 (Z.shiftl low 1) in
        let high := Z.lor (u32 (Z.shiftl high 1)) 1 in
        (low, high) :: renorm_trace fuel low high
      else if low >=? HALF then
        let low := u32 (Z.shiftl (u32 (low - HALF)) 1) in
        let high := Z.lor (u32 (Z.shiftl (u32 (high - HALF)) 1)) 1 in
        (low, high) :: renorm_trace fuel low high
      else if (low >=? FIRST_QTR) && (high <? THIRD_QTR) then
        let low := u32 (Z.shiftl (u32 (low - FIRST_QTR)) 1) in
        let high := Z.lor (u32 (Z.shiftl (u32 (high - FIRST_QTR)) 1)) 1 in
        (low, high) :: renorm_trace fuel low high
      else []
  end.






Definition distinct_values (syms : list Symbol) : Prop :=
  NoDup (map value syms).

(** *** Two inputs of 2 GiB + 16 bytes *)





(** *** Notions for the further properties *)

(** A sequence of calls of [writeBit], one per element. *)
Definition write_all (w : BitWriter.t) (bits : list Z) : BitWriter.t :=
  fold_left BitWriter.writeBit bits w.

(** The count a tally holds for a byte, 0 when the byte has no key. *)
Definition freq_lookup (b : byte) (freq : list (byte * Z)) : Z :=
  match find (fun kc => Byte.eqb (fst kc) b) freq with
  | Some kc => snd kc
  | None => 0
  end.
(** * Properties *)

(** ** Bytes and wrap-around *)

Lemma byte_val_range (b : byte) : 0 <= byte_val b < 256.
Proof.
  unfold byte_val. pose proof (Byte.to_N_bounded b). lia.
Qed.

Lemma to_byte_val (b : byte) : to_byte (byte_val b) = b.
Proof.
  unfold to_byte. pose proof (byte_val_range b) as Hb.
  rewrite Z.mod_small by lia. unfold byte_val.
  rewrite N2Z.id, Byte.of_to_N. reflexivity.
Qed.

Lemma byte_val_to_byte (z : Z) : byte_val (to_byte z) = z mod 256.
Proof.
  unfold to_byte, byte_val.
  pose proof (Z.mod_pos_bound z 256 ltac:(lia)) as Hz.
  destruct (Byte.of_N (Z.to_N (z mod 256))) as [b|] eqn:E.
  - apply Byte.to_of_N in E. rewrite E. lia.
  - apply Byte.of_N_None_iff in E. lia.
Qed.

Lemma byte_val_inj (a b : byte) : byte_val a = byte_val b -> a = b.
Proof.
  intros H. rewrite <- (to_byte_val a), <- (to_byte_val b), H. reflexivity.
Qed.

Lemma byte_eqb_eq (a b : byte) : Byte.eqb a b = true <-> a = b.
Proof.
  split; [apply Byte.byte_dec_bl | apply Byte.byte_dec_lb].
Qed.

Lemma u32_small (z : Z) : 0 <= z < 2 ^ 32 -> u32 z = z.
Proof. intros; unfold u32; apply Z.mod_small; lia. Qed.

Lemma u64_small (z : Z) : 0 <= z < 2 ^ 64 -> u64 z = z.
Proof. intros; unfold u64; apply Z.mod_small; lia. Qed.

Lemma u32_range (z : Z) : 0 <= u32 z < 2 ^ 32.
Proof. unfold u32; apply Z.mod_pos_bound; lia. Qed.

Lemma u64_range (z : Z) : 0 <= u64 z < 2 ^ 64.
Proof. unfold u64; apply Z.mod_pos_bound; lia. Qed.

Lemma u8_range (z : Z) : 0 <= u8 z < 2 ^ 8.
Proof. unfold u8; apply Z.mod_pos_bound; lia. Qed.

(** ** The bit reader *)

Lemma bit_of_01 (z i : Z) : bit_of z i = 0 \/ bit_of z i = 1.
Proof. unfold bit_of; destruct (Z.testbit z i); auto. Qed.

Lemma top_bits_S (n : nat) (z : Z) :
  top_bits (S n) z = bit_of z 7 :: top_bits n (u8 (Z.shiftl z 1)).
Proof.
  unfold top_bits. cbn [seq map]. f_equal.
  rewrite <- seq_shift, map_map. apply map_ext_in.
  intros j _. unfold bit_of, u8. f_equal.
  destruct (Z.ltb_spec (7 - Z.of_nat j) 0) as [Hneg|Hpos].
  - rewrite !Z.testbit_neg_r by lia. reflexivity.
  - rewrite Z.mod_pow2_bits_low by lia.
    rewrite Z.shiftl_spec by lia. f_equal. lia.
Qed.

Lemma top_bits_nth (n : nat) (z : Z) (k : nat) :
  (k < n)%nat -> nth k (top_bits n z) 0 = bit_of z (7 - Z.of_nat k).
Proof.
  intros Hk. unfold top_bits.
  set (f := fun j : nat => bit_of z (7 - Z.of_nat j)).
  rewrite (nth_indep _ 0 (f 0%nat)) by (rewrite length_map, length_seq; exact Hk).
  rewrite map_nth, seq_nth by exact Hk. reflexivity.
Qed.

Lemma shift_out_bit (z : Z) : Z.land (Z.shiftr z 7) 1 = bit_of z 7.
Proof.
  unfold bit_of. rewrite Z.testbit_spec' by lia.
  rewrite Z.shiftr_div_pow2 by lia.
  change 1 with (Z.ones 1). rewrite Z.land_ones by lia.
  reflexivity.
Qed.

Lemma skipn_nth_error {A} (i : nat) : forall (l : list A) (x : A),
  nth_error l i = Some x -> skipn i l = x :: skipn (S i) l.
Proof.
  induction i as [|i IH]; intros [|y l] x H; try discriminate.
  - injection H as ->. reflexivity.
  - cbn in H. cbn [skipn]. apply (IH l x H).
Qed.

Lemma shift_out_remaining (r : BitReader.t) :
  0 < BitReader.bits_left r ->
  remaining r = fst (BitReader.shift_out r) :: remaining (snd (BitReader.shift_out r)).
Proof.
  intros Hpos. unfold remaining, BitReader.shift_out. cbn [fst snd BitReader.current
    BitReader.bits_left BitReader.index BitReader.bytes].
  replace (Z.to_nat (BitReader.bits_left r)) with (S (Z.to_nat (BitReader.bits_left r - 1))) by lia.
  rewrite top_bits_S, shift_out_bit. reflexivity.
Qed.

(** One call of [readBit] delivers the head of [remaining] (0 when it is
    empty) and leaves the tail. *)
Lemma readBit_remaining (r : BitReader.t) :
  0 <= BitReader.bits_left r ->
  fst (BitReader.readBit r) = hd 0 (remaining r)
  /\ remaining (snd (BitReader.readBit r)) = tl (remaining r)
  /\ 0 <= BitReader.bits_left (snd (BitReader.readBit r)).
Proof.
  intros Hge. unfold BitReader.readBit.
  destruct (Z.eqb_spec (BitReader.bits_left r) 0) as [Hz|Hnz].
  - destruct (nth_error (BitReader.bytes r) (BitReader.index r)) as [b|] eqn:Hnth.
    + assert (Hsk : skipn (BitReader.index r) (BitReader.bytes r)
                    = b :: skipn (S (BitReader.index r)) (BitReader.bytes r)).
      { apply skipn_nth_error, Hnth. }
      set (r' := BitReader.mk _ _ _ _).
      assert (Hr : remaining r = remaining r').
      { unfold remaining, r'. cbn [BitReader.bits_left BitReader.current BitReader.index BitReader.bytes].
        rewrite Hz, Hsk. cbn [Z.to_nat top_bits seq map app bits_of_bytes flat_map].
        reflexivity. }
      rewrite Hr, (shift_out_remaining r') by (unfold r'; cbn; lia).
      cbn [hd tl]. repeat split. unfold r', BitReader.shift_out; cbn. lia.
    + cbn [fst snd]. unfold remaining. rewrite Hz.
      apply nth_error_None in Hnth. rewrite skipn_all2 by exact Hnth.
      cbn. repeat split; lia.
  - rewrite (shift_out_remaining r) by lia. cbn [hd tl]. repeat split.
    unfold BitReader.shift_out; cbn. lia.
Qed.

Lemma read_nth_remaining (k : nat) : forall r : BitReader.t,
  0 <= BitReader.bits_left r -> read_nth r k = nth k (remaining r) 0.
Proof.
  induction k as [|k IH]; intros r Hge;
    destruct (readBit_remaining r Hge) as (Hfst & Hsnd & Hge').
  - cbn [read_nth]. rewrite Hfst. destruct (remaining r); reflexivity.
  - cbn [read_nth]. rewrite IH, Hsnd by exact Hge'.
    destruct (remaining r); [destruct k|]; reflexivity.
Qed.

Lemma remaining_make (data : list byte) :
  remaining (BitReader.make data) = bits_of_bytes data.
Proof. reflexivity. Qed.

Lemma bits_of_byte_length (b : byte) : length (bits_of_byte b) = 8%nat.
Proof. reflexivity. Qed.

Lemma bits_of_bytes_length (data : list byte) :
  length (bits_of_bytes data) = (8 * length data)%nat.
Proof.
  induction data as [|b data IH]; [reflexivity|].
  cbn [bits_of_bytes flat_map]. rewrite length_app, bits_of_byte_length.
  fold (bits_of_bytes data). rewrite IH. cbn [length]. lia.
Qed.

Lemma bits_of_bytes_nth (data : list byte) : forall k : nat,
  (k < 8 * length data)%nat ->
  nth k (bits_of_bytes data) 0
  = bit_of (byte_val (nth (k / 8) data x00)) (7 - Z.of_nat (k mod 8)).
Proof.
  induction data as [|b data IH]; intros k Hk; [cbn in Hk; lia|].
  cbn [bits_of_bytes flat_map]. fold (bits_of_bytes data).
  destruct (Nat.ltb_spec k 8) as [Hlt|Hge].
  - rewrite app_nth1 by (rewrite bits_of_byte_length; exact Hlt).
    rewrite Nat.div_small, Nat.mod_small by exact Hlt. cbn [nth].
    apply top_bits_nth, Hlt.
  - rewrite app_nth2 by (rewrite bits_of_byte_length; exact Hge).
    rewrite bits_of_byte_length, IH by (cbn [length] in Hk; lia).
    replace k with (k - 8 + 1 * 8)%nat at 3 4 by lia.
    rewrite Nat.div_add, Nat.Div0.mod_add by lia.
    replace (((k - 8) / 8) + 1)%nat with (S ((k - 8) / 8)) by lia.
    reflexivity.
Qed.

(** C9.  Read number [k] (from 0) of a fresh reader over [data] returns
    bit [7 - k mod 8] of byte [k / 8], that is the bytes most significant
    bit first, for as long as [k < 8 * length data]; every later read
    returns 0. *)
Theorem readBit_msb_first_then_zero (data : list byte) (k : nat) :
  read_nth (BitReader.make data) k
  = if (k <? 8 * length data)%nat
    then Z.b2z (Z.testbit (byte_val (nth (k / 8) data x00)) (7 - Z.of_nat (k mod 8)))
    else 0.
Proof.
  rewrite read_nth_remaining by (cbn; lia). rewrite remaining_make.
  destruct (Nat.ltb_spec k (8 * length data)) as [Hlt|Hge].
  - apply bits_of_bytes_nth, Hlt.
  - apply nth_overflow. rewrite bits_of_bytes_length. exact Hge.
Qed.

(** ** The frequency model *)

Lemma freq_incr_keys (b : byte) (freq : list (byte * Z)) (x : byte * Z) :
  In x (freq_incr b freq) -> fst x = b \/ exists y, In y freq /\ fst y = fst x.
Proof.
  induction freq as [|[k c] rest IH]; cbn [freq_incr].
  - intros [<-|[]]. left; reflexivity.
  - destruct (Z.ltb_spec (byte_val b) (byte_val k)) as [Hlt|Hge].
    + intros [<-|Hin]; [left; reflexivity|]. right. exists x. split; [exact Hin|reflexivity].
    + destruct (Z.eqb_spec (byte_val b) (byte_val k)) as [Heq|Hne].
      * intros [<-|Hin].
        -- right. exists (k, c). split; [left; reflexivity|reflexivity].
        -- right. exists x. split; [right; exact Hin|reflexivity].
      * intros [<-|Hin].
        -- right. exists (k, c). split; [left; reflexivity|reflexivity].
        -- destruct (IH Hin) as [Hb|(y & Hy & Hfst)]; [left; exact Hb|].
           right. exists y. split; [right; exact Hy|exact Hfst].
Qed.

Lemma freq_incr_sorted (b : byte) (freq : list (byte * Z)) :
  ascending_keys freq -> ascending_keys (freq_incr b freq).
Proof.
  unfold ascending_keys.
  induction freq as [|[k c] rest IH]; intros Hs; cbn [freq_incr].
  - repeat constructor.
  - inversion Hs as [|? ? Hrest Hall]; subst.
    destruct (Z.ltb_spec (byte_val b) (byte_val k)) as [Hlt|Hge].
    + constructor; [exact Hs|]. constructor; [exact Hlt|].
      rewrite Forall_forall in Hall |- *. intros y Hy. specialize (Hall y Hy).
      cbn [fst] in *. lia.
    + destruct (Z.eqb_spec (byte_val b) (byte_val k)) as [Heq|Hne].
      * constructor; [exact Hrest|exact Hall].
      * constructor; [apply IH, Hrest|].
        rewrite Forall_forall in Hall |- *. intros y Hy.
        destruct (freq_incr_keys b rest y Hy) as [Hb|(z & Hz & Hfst)].
        -- rewrite Hb. cbn [fst]. lia.
        -- rewrite <- Hfst. apply Hall, Hz.
Qed.

Lemma freq_incr_positive (b : byte) (freq : list (byte * Z)) :
  Forall (fun kc => 0 < snd kc) freq -> Forall (fun kc => 0 < snd kc) (freq_incr b freq).
Proof.
  induction freq as [|[k c] rest IH]; intros Hp; cbn [freq_incr].
  - repeat constructor.
  - inversion Hp as [|? ? Hc Hrest]; subst. cbn [snd] in Hc.
    destruct (byte_val b <? byte_val k); [|destruct (byte_val b =? byte_val k)].
    + constructor; [cbn; lia|exact Hp].
    + constructor; [cbn; lia|exact Hrest].
    + constructor; [exact Hc|apply IH, Hrest].
Qed.

Lemma freq_incr_sum (b : byte) (freq : list (byte * Z)) :
  sum_freq (freq_incr b freq) = sum_freq freq + 1.
Proof.
  induction freq as [|[k c] rest IH]; cbn [freq_incr]; [reflexivity|].
  destruct (byte_val b <? byte_val k); [|destruct (byte_val b =? byte_val k)];
    unfold sum_freq in *; cbn [fold_right snd] in *; lia.
Qed.

(** What the tally of a whole input looks like. *)
Lemma tally_spec (data : list byte) :
  ascending_keys (tally data)
  /\ Forall (fun kc => 0 < snd kc) (tally data)
  /\ sum_freq (tally data) = Z.of_nat (length data).
Proof.
  unfold tally.
  assert (H : forall freq,
    ascending_keys freq -> Forall (fun kc => 0 < snd kc) freq ->
    let freq' := fold_left (fun freq b => freq_incr b freq) data freq in
    ascending_keys freq' /\ Forall (fun kc => 0 < snd kc) freq'
    /\ sum_freq freq' = sum_freq freq + Z.of_nat (length data)).
  { induction data as [|b data IH]; intros freq Hs Hp; cbn [fold_left length].
    - repeat split; [exact Hs|exact Hp|lia].
    - destruct (IH (freq_incr b freq) (freq_incr_sorted _ _ Hs) (freq_incr_positive _ _ Hp))
        as (Hs' & Hp' & Hsum).
      repeat split; [exact Hs'|exact Hp'|]. cbn zeta in Hsum.
      rewrite Hsum, freq_incr_sum. lia. }
  apply (H []); constructor.
Qed.

Lemma sum_freq_nonneg (freq : list (byte * Z)) :
  Forall (fun kc => 0 < snd kc) freq -> 0 <= sum_freq freq.
Proof.
  induction 1 as [|kc rest Hc _ IH]; unfold sum_freq in *; cbn [fold_right]; lia.
Qed.

(** The table loop of [buildFrequencyTable] when no sum wraps. *)
Lemma push_frequencies_spec (freq : list (byte * Z)) : forall cumulative : Z,
  0 <= cumulative ->
  Forall (fun kc => 0 < snd kc) freq ->
  cumulative + sum_freq freq < 2 ^ 64 ->
  let syms := push_frequencies cumulative freq in
  partitions cumulative syms (cumulative + sum_freq freq)
  /\ sum_counts syms = sum_freq freq
  /\ map (fun s => (value s, count s)) syms = freq
  /\ Forall (fun s => 0 < count s) syms.
Proof.
  induction freq as [|[k c] rest IH]; intros cumulative Hc Hp Hlt; cbn zeta.
  - cbn. split; [lia|]. split; [reflexivity|]. split; [reflexivity|constructor].
  - inversion Hp as [|? ? Hk Hrest]; subst. cbn [snd] in Hk.
    pose proof (sum_freq_nonneg rest Hrest) as Hnn.
    unfold sum_freq in Hlt |- *; cbn [fold_right snd] in Hlt |- *; fold (sum_freq rest) in *.
    cbn [push_frequencies].
    rewrite (u64_small c) by lia. rewrite (u64_small (cumulative + c)) by lia.
    destruct (IH (cumulative + c) ltac:(lia) Hrest ltac:(lia)) as (Hpart & Hsum & Hmap & Hpos).
    cbn zeta in *.
    split; [|split; [|split]].
    + cbn [partitions low high count]. repeat split; try lia.
      replace (cumulative + (c + sum_freq rest)) with (cumulative + c + sum_freq rest) by lia.
      exact Hpart.
    + unfold sum_counts in *; cbn [fold_right count]. rewrite Hsum. reflexivity.
    + cbn [map value count]. rewrite Hmap. reflexivity.
    + constructor; [exact Hk|exact Hpos].
Qed.

Lemma ascending_values_of_keys (syms : list Symbol) :
  ascending_keys (map (fun s => (value s, count s)) syms) -> ascending_values syms.
Proof.
  unfold ascending_keys, ascending_values.
  induction syms as [|s rest IH]; intros H; [constructor|].
  cbn [map] in H. inversion H as [|? ? Hrest Hall]; subst.
  constructor; [apply IH, Hrest|].
  rewrite Forall_forall in Hall |- *. intros y Hy.
  apply (Hall (value y, count y)). apply in_map_iff. exists y. split; [reflexivity|exact Hy].
Qed.

(** The model built from raw data. *)
Lemma buildFrequencyTable_spec (self : Encoder) (data : list byte) :
  Z.of_nat (length data) < 2 ^ 64 ->
  let m := buildFrequencyTable self data in
  model_invariant m
  /\ ascending_values (symbols m)
  /\ Forall (fun s => 0 < count s) (symbols m)
  /\ total_count m = Z.of_nat (length data)
  /\ map (fun s => (value s, count s)) (symbols m) = tally data.
Proof.
  intros Hlen. destruct (tally_spec data) as (Hs & Hp & Hsum).
  destruct (push_frequencies_spec (tally data) 0 ltac:(lia) Hp ltac:(lia))
    as (Hpart & Hcnt & Hmap & Hpos).
  cbn zeta in *. unfold buildFrequencyTable, model_invariant. cbn [symbols total_count].
  rewrite u64_small by lia. rewrite Hsum in *.
  split; [split; [lia|exact Hpart]|].
  split; [apply ascending_values_of_keys; rewrite Hmap; exact Hs|].
  split; [exact Hpos|]. split; [reflexivity|exact Hmap].
Qed.

(** The table loop of [buildSymbolsFromCounts] when no sum wraps. *)
Lemma push_counts_spec (counts : list (byte * Z)) : forall cumulative : Z,
  0 <= cumulative ->
  Forall (fun kc => 0 <= snd kc) counts ->
  cumulative + sum_freq counts < 2 ^ 64 ->
  let '(syms, total) := push_counts cumulative counts in
  total = cumulative + sum_freq counts
  /\ partitions cumulative syms total
  /\ sum_counts syms = sum_freq counts
  /\ map (fun s => (value s, count s)) syms = counts.
Proof.
  induction counts as [|[k c] rest IH]; intros cumulative Hc Hp Hlt.
  - cbn. repeat split; lia.
  - inversion Hp as [|? ? Hk Hrest]; subst. cbn [snd] in Hk.
    assert (Hnn : 0 <= sum_freq rest).
    { clear -Hrest. induction Hrest; unfold sum_freq in *; cbn [fold_right]; lia. }
    unfold sum_freq in Hlt |- *; cbn [fold_right snd] in Hlt |- *; fold (sum_freq rest) in *.
    cbn [push_counts]. rewrite (u64_small (cumulative + c)) by lia.
    specialize (IH (cumulative + c) ltac:(lia) Hrest ltac:(lia)).
    destruct (push_counts (cumulative + c) rest) as [syms total].
    destruct IH as (Htot & Hpart & Hsum & Hmap).
    split; [|split; [|split]].
    + lia.
    + cbn [partitions low high count]. repeat split; try lia. exact Hpart.
    + unfold sum_counts in *; cbn [fold_right count]. rewrite Hsum. reflexivity.
    + cbn [map value count]. rewrite Hmap. reflexivity.
Qed.

Lemma buildSymbolsFromCounts_spec (self : Encoder) (counts : list (byte * Z)) :
  Forall (fun kc => 0 <= snd kc) counts ->
  sum_freq counts < 2 ^ 64 ->
  let m := buildSymbolsFromCounts self counts in
  model_invariant m
  /\ total_count m = sum_freq counts
  /\ map (fun s => (value s, count s)) (symbols m) = counts.
Proof.
  intros Hp Hlt. pose proof (push_counts_spec counts 0 ltac:(lia) Hp ltac:(lia)) as H.
  unfold buildSymbolsFromCounts. destruct (push_counts 0 counts) as [syms total].
  destruct H as (Htot & Hpart & Hsum & Hmap).
  cbn zeta. unfold model_invariant. cbn [symbols total_count].
  split; [split; [lia|]|split; [lia|exact Hmap]].
  rewrite Htot in Hpart. rewrite Htot. exact Hpart.
Qed.

(** C3 (as amended).  A model built from raw data of fewer than [2^64]
    bytes, and a model rebuilt from a persisted table of 64-bit counts whose
    sum stays below [2^64], both satisfy the frequency invariant: the counts
    add up to [total_count], every entry has [high - low = count], and the
    entries cover [[0, total_count)] one after the other; the model built
    from raw data is moreover in ascending byte order. *)
Theorem model_frequency_invariant (self : Encoder) :
  (forall data : list byte,
     Z.of_nat (length data) < 2 ^ 64 ->
     model_invariant (buildFrequencyTable self data)
     /\ total_count (buildFrequencyTable self data) = Z.of_nat (length data)
     /\ ascending_values (symbols (buildFrequencyTable self data)))
  /\ (forall counts : list (byte * Z),
        Forall (fun kc => 0 <= snd kc) counts ->
        sum_freq counts < 2 ^ 64 ->
        model_invariant (buildSymbolsFromCounts self counts)).
Proof.
  split.
  - intros data Hlen. destruct (buildFrequencyTable_spec self data Hlen) as (H1 & H2 & _ & H4 & _).
    auto.
  - intros counts Hp Hlt. apply (buildSymbolsFromCounts_spec self counts Hp Hlt).
Qed.

Lemma model_frequency_invariant_witness :
  (model_invariant (buildFrequencyTable (mkEncoder [] 0) [x62; x61; x62])
   /\ total_count (buildFrequencyTable (mkEncoder [] 0) [x62; x61; x62]) = 3
   /\ ascending_values (symbols (buildFrequencyTable (mkEncoder [] 0) [x62; x61; x62])))
  /\ model_invariant (buildSymbolsFromCounts (mkEncoder [] 0) [(x62, 2); (x61, 0); (x62, 5)]).
Proof.
  split.
  - apply (proj1 (model_frequency_invariant (mkEncoder [] 0)) [x62; x61; x62]).
    vm_compute. reflexivity.
  - apply (proj2 (model_frequency_invariant (mkEncoder [] 0)) [(x62, 2); (x61, 0); (x62, 5)]).
    + repeat constructor; cbn; lia.
    + vm_compute. reflexivity.
Defined.

(** C3 as stated fails for a persisted table whose counts wrap the 64-bit
    sum: the two counts [2^63] leave [total_count = 0] and a second entry
    with [high < low]. *)
Lemma model_invariant_wraps :
  ~ model_invariant (buildSymbolsFromCounts (mkEncoder [] 0) [(x00, 2 ^ 63); (x01, 2 ^ 63)]).
Proof.
  unfold model_invariant. vm_compute. intros [H _]. discriminate H.
Qed.

(** C8 (as amended).  [buildFrequencyTable] has no failing path.  For
    every input (of fewer than [2^64] bytes), the empty one included, it
    returns a model that satisfies the frequency invariant with
    [total_count] the input length, and the model's table is empty exactly
    when the input is empty. *)
Theorem buildFrequencyTable_never_fails (self : Encoder) (data : list byte) :
  Z.of_nat (length data) < 2 ^ 64 ->
  model_invariant (buildFrequencyTable self data)
  /\ total_count (buildFrequencyTable self data) = Z.of_nat (length data)
  /\ (symbols (buildFrequencyTable self data) = [] <-> data = []).
Proof.
  intros Hlen.
  destruct (buildFrequencyTable_spec self data Hlen) as (Hinv & _ & _ & Htot & _).
  split; [exact Hinv|]. split; [exact Htot|].
  split.
  - intros Hnil. destruct (tally_spec data) as (_ & _ & Hsum).
    unfold buildFrequencyTable in Hnil. cbn [symbols] in Hnil.
    destruct (tally data) as [|[k c] rest]; [|discriminate Hnil].
    cbn in Hsum. destruct data; [reflexivity|cbn in Hsum; lia].
  - intros ->. reflexivity.
Qed.

Lemma buildFrequencyTable_never_fails_witness :
  model_invariant (buildFrequencyTable (mkEncoder [mkSymbol x7a 0 9 9] 9) [])
  /\ total_count (buildFrequencyTable (mkEncoder [mkSymbol x7a 0 9 9] 9) []) = 0
  /\ (symbols (buildFrequencyTable (mkEncoder [mkSymbol x7a 0 9 9] 9) []) = []
      <-> @nil byte = []).
Proof.
  apply (buildFrequencyTable_never_fails (mkEncoder [mkSymbol x7a 0 9 9] 9) []).
  vm_compute. reflexivity.
Defined.

(** ** Renormalization *)

Lemma shl_u32 (x : Z) : u32 (Z.shiftl x 1) = (2 * x) mod 2 ^ 32.
Proof.
  unfold u32. rewrite Z.shiftl_mul_pow2 by lia. f_equal. lia.
Qed.

Lemma lor_even_bit (y b : Z) : b = 0 \/ b = 1 -> Z.lor (2 * y) b = 2 * y + b.
Proof.
  intros [->| ->]; [rewrite Z.lor_0_r; lia|].
  pose proof (Z.add_lor_land (2 * y) 1) as H.
  assert (Hl : Z.land (2 * y) 1 = 0).
  { change 1 with (Z.ones 1). rewrite Z.land_ones by lia.
    change (2 ^ 1) with 2. rewrite Z.mul_comm. apply Z.mod_mul. lia. }
  lia.
Qed.

Lemma shl_or_bit (x b : Z) :
  b = 0 \/ b = 1 -> Z.lor (u32 (Z.shiftl x 1)) b = (2 * x) mod 2 ^ 32 + b.
Proof.
  intros Hb. rewrite shl_u32.
  change (2 ^ 32) with (2 * 2 ^ 31). rewrite Z.mul_mod_distr_l by lia.
  apply lor_even_bit, Hb.
Qed.

Lemma shl_or1 (x : Z) : Z.lor (u32 (Z.shiftl x 1)) 1 = (2 * x) mod 2 ^ 32 + 1.
Proof. apply shl_or_bit. right; reflexivity. Qed.

Ltac unfold_consts := unfold HALF, FIRST_QTR, THIRD_QTR, MAX_RANGE in *.

Lemma some_pair_inj {A B} (a c : A) (b d : B) :
  Some (a, b) = Some (c, d) -> a = c /\ b = d.
Proof. intros H; injection H; auto. Qed.

Ltac some_pair := let H := fresh in intros H; apply some_pair_inj in H; destruct H as [<- <-].

(** The three branches of the renormalization loops, as [scale]. *)
Lemma scale_E1 (lo hi : Z) :
  0 <= hi < HALF ->
  u32 (Z.shiftl lo 1) = (2 * lo) mod 2 ^ 32
  /\ Z.lor (u32 (Z.shiftl hi 1)) 1 = 2 * hi + 1.
Proof.
  unfold_consts. intros H. split; [apply shl_u32|].
  rewrite shl_or1, Z.mod_small by lia. reflexivity.
Qed.

Lemma scale_E2 (lo hi : Z) :
  HALF <= lo < 2 ^ 32 -> HALF <= hi < 2 ^ 32 ->
  u32 (Z.shiftl (u32 (lo - HALF)) 1) = 2 * (lo - HALF)
  /\ Z.lor (u32 (Z.shiftl (u32 (hi - HALF)) 1)) 1 = 2 * (hi - HALF) + 1.
Proof.
  unfold_consts. intros Hl Hh.
  rewrite !(u32_small (_ - _)) by lia.
  rewrite shl_u32, shl_or1, !Z.mod_small by lia. split; reflexivity.
Qed.

Lemma scale_E3 (lo hi : Z) :
  FIRST_QTR <= lo < HALF -> HALF <= hi < THIRD_QTR ->
  u32 (Z.shiftl (u32 (lo - FIRST_QTR)) 1) = 2 * (lo - FIRST_QTR)
  /\ Z.lor (u32 (Z.shiftl (u32 (hi - FIRST_QTR)) 1)) 1 = 2 * (hi - FIRST_QTR) + 1.
Proof.
  unfold_consts. intros Hl Hh.
  rewrite !(u32_small (_ - _)) by lia.
  rewrite shl_u32, shl_or1, !Z.mod_small by lia. split; reflexivity.
Qed.

Lemma scale_range (lo hi lo' hi' : Z) :
  0 <= lo < 2 ^ 32 -> 0 <= hi < 2 ^ 32 ->
  scale lo hi = Some (lo', hi') ->
  0 <= lo' < 2 ^ 32 /\ 0 <= hi' < 2 ^ 32.
Proof.
  unfold scale. unfold_consts. intros Hl Hh.
  destruct (Z.ltb_spec hi 0x80000000).
  - some_pair. pose proof (Z.mod_pos_bound (2 * lo) (2 ^ 32) ltac:(lia)). lia.
  - destruct (Z.geb_spec lo 0x80000000).
    + some_pair. lia.
    + destruct (Z.geb_spec lo 0x40000000); destruct (Z.ltb_spec hi 0xC0000000);
        cbn [andb]; try discriminate.
      some_pair. lia.
Qed.

Lemma scale_shifted (k : nat) (lo hi lo' hi' : Z) :
  (k < 32)%nat ->
  0 <= lo < 2 ^ 32 -> 0 <= hi < 2 ^ 32 ->
  shifted k lo hi ->
  scale lo hi = Some (lo', hi') ->
  shifted (S k) lo' hi'.
Proof.
  intros Hk Hl Hh. unfold shifted, scale. unfold_consts.
  do 32 (destruct k as [|k];
    [ repeat match goal with
             | |- context [2 ^ Z.of_nat ?n] =>
                 let v := eval vm_compute in (2 ^ Z.of_nat n) in
                 change (2 ^ Z.of_nat n) with v
             end;
      intros [H1 H2];
      destruct (Z.ltb_spec hi 0x80000000);
      [ some_pair; Z.div_mod_to_equations; lia
      | destruct (Z.geb_spec lo 0x80000000);
        [ some_pair; Z.div_mod_to_equations; lia
        | destruct (Z.geb_spec lo 0x40000000); destruct (Z.ltb_spec hi 0xC0000000);
          cbn [andb]; try discriminate;
          some_pair; Z.div_mod_to_equations; lia ] ]
    | ]).
  lia.
Qed.

Lemma scale_cases (lo hi : Z) :
  (hi < HALF /\ scale lo hi = Some ((2 * lo) mod 2 ^ 32, 2 * hi + 1))
  \/ (HALF <= hi /\ HALF <= lo
      /\ scale lo hi = Some (2 * (lo - HALF), 2 * (hi - HALF) + 1))
  \/ (HALF <= hi < THIRD_QTR /\ FIRST_QTR <= lo < HALF
      /\ scale lo hi = Some (2 * (lo - FIRST_QTR), 2 * (hi - FIRST_QTR) + 1))
  \/ (HALF <= hi /\ lo < HALF /\ (lo < FIRST_QTR \/ THIRD_QTR <= hi)
      /\ scale lo hi = None).
Proof.
  unfold scale.
  destruct (Z.ltb_spec hi HALF); [left; auto|].
  destruct (Z.geb_spec lo HALF); [right; left; auto|].
  destruct (Z.geb_spec lo FIRST_QTR); destruct (Z.ltb_spec hi THIRD_QTR); cbn [andb].
  - right; right; left. auto.
  - right; right; right. auto.
  - right; right; right. auto.
  - right; right; right. auto.
Qed.

(** The encoder's loop, one test at a time, in terms of [scale]. *)
Lemma encode_renorm_S (fuel : nat) (lo hi btf : Z) (w : BitWriter.t) :
  0 <= lo < 2 ^ 32 -> 0 <= hi < 2 ^ 32 ->
  encode_renorm (S fuel) lo hi btf w
  = match scale lo hi with
    | None => Ok (mkEnc lo hi btf w)
    | Some (lo', hi') =>
        encode_renorm fuel lo' hi' (follow_after lo hi btf) (writer_after lo hi btf w)
    end.
Proof.
  intros Hl Hh. cbn [encode_renorm]. unfold scale, follow_after, writer_after.
  destruct (Z.ltb_spec hi HALF) as [H1|H1].
  - destruct (scale_E1 lo hi ltac:(lia)) as [-> ->]. reflexivity.
  - destruct (Z.geb_spec lo HALF) as [H2|H2].
    + destruct (scale_E2 lo hi ltac:(lia) ltac:(lia)) as [-> ->]. reflexivity.
    + destruct (Z.geb_spec lo FIRST_QTR) as [H3|H3];
        destruct (Z.ltb_spec hi THIRD_QTR) as [H4|H4]; cbn [andb]; try reflexivity.
      destruct (scale_E3 lo hi ltac:(lia) ltac:(lia)) as [-> ->]. reflexivity.
Qed.

(** The decoder's loop, one test at a time, in terms of [scale]. *)
Lemma decode_renorm_S (fuel : nat) (lo hi value : Z) (rd : BitReader.t) :
  0 <= lo < 2 ^ 32 -> 0 <= hi < 2 ^ 32 ->
  decode_renorm (S fuel) lo hi value rd
  = match scale lo hi with
    | None => Ok (mkDec lo hi value rd)
    | Some (lo', hi') =>
        let '(value', rd') := shift_in (u32 (value - offset_of lo hi)) rd in
        decode_renorm fuel lo' hi' value' rd'
    end.
Proof.
  intros Hl Hh. cbn [decode_renorm]. unfold scale, offset_of.
  destruct (Z.ltb_spec hi HALF) as [H1|H1].
  - destruct (scale_E1 lo hi ltac:(lia)) as [-> ->].
    unfold shift_in. rewrite Z.sub_0_r.
    destruct (BitReader.readBit rd) as [bit rd'].
    rewrite !shl_u32. unfold u32. rewrite Z.mul_mod_idemp_r by lia. reflexivity.
  - destruct (Z.geb_spec lo HALF) as [H2|H2].
    + destruct (scale_E2 lo hi ltac:(lia) ltac:(lia)) as [-> ->]. reflexivity.
    + destruct (Z.geb_spec lo FIRST_QTR) as [H3|H3];
        destruct (Z.ltb_spec hi THIRD_QTR) as [H4|H4]; cbn [andb]; try reflexivity.
      destruct (scale_E3 lo hi ltac:(lia) ltac:(lia)) as [-> ->]. reflexivity.
Qed.

Lemma shifted_32 (lo hi : Z) :
  0 <= lo < 2 ^ 32 -> 0 <= hi < 2 ^ 32 -> shifted 32 lo hi -> scale lo hi = None.
Proof.
  intros Hl Hh [H1 H2]. change (2 ^ Z.of_nat 32) with (2 ^ 32) in *.
  rewrite Z.mod_small in H1, H2 by lia. subst lo hi. reflexivity.
Qed.

(** Both loops finish within 33 tests from every state of two 32-bit
    words, whatever the writer, the value and the reader. *)
Lemma encode_renorm_total (n : nat) : forall (fuel : nat) (lo hi btf : Z) (w : BitWriter.t),
  (n <= 32)%nat -> (n < fuel)%nat ->
  0 <= lo < 2 ^ 32 -> 0 <= hi < 2 ^ 32 -> shifted (32 - n) lo hi ->
  exists st, encode_renorm fuel lo hi btf w = Ok st.
Proof.
  induction n as [|n IH]; intros fuel lo hi btf w Hn Hfuel Hl Hh Hs;
    (destruct fuel as [|fuel]; [lia|]); rewrite encode_renorm_S by assumption.
  - rewrite (shifted_32 lo hi Hl Hh Hs). eexists; reflexivity.
  - destruct (scale lo hi) as [[lo' hi']|] eqn:Hsc; [|eexists; reflexivity].
    destruct (scale_range lo hi lo' hi' Hl Hh Hsc) as [Hl' Hh'].
    apply IH; try assumption; try lia.
    replace (32 - n)%nat with (S (32 - S n)) by lia.
    apply (scale_shifted (32 - S n) lo hi); try assumption. lia.
Qed.

Lemma decode_renorm_total (n : nat) : forall (fuel : nat) (lo hi value : Z) (rd : BitReader.t),
  (n <= 32)%nat -> (n < fuel)%nat ->
  0 <= lo < 2 ^ 32 -> 0 <= hi < 2 ^ 32 -> shifted (32 - n) lo hi ->
  exists st, decode_renorm fuel lo hi value rd = Ok st.
Proof.
  induction n as [|n IH]; intros fuel lo hi value rd Hn Hfuel Hl Hh Hs;
    (destruct fuel as [|fuel]; [lia|]); rewrite decode_renorm_S by assumption.
  - rewrite (shifted_32 lo hi Hl Hh Hs). eexists; reflexivity.
  - destruct (scale lo hi) as [[lo' hi']|] eqn:Hsc; [|eexists; reflexivity].
    destruct (scale_range lo hi lo' hi' Hl Hh Hsc) as [Hl' Hh'].
    destruct (shift_in _ rd) as [value' rd'].
    apply IH; try assumption; try lia.
    replace (32 - n)%nat with (S (32 - S n)) by lia.
    apply (scale_shifted (32 - S n) lo hi); try assumption. lia.
Qed.

Lemma shifted_0 (lo hi : Z) : shifted 0 lo hi.
Proof. split; apply Z.mod_1_r. Qed.

(** A larger bound on the number of tests changes nothing: what the loops
    return within 33 tests is what they return. *)
Lemma encode_renorm_fuel (fuel : nat) : forall (fuel' : nat) (lo hi btf : Z)
    (w : BitWriter.t) (st : EncState),
  (fuel <= fuel')%nat ->
  encode_renorm fuel lo hi btf w = Ok st -> encode_renorm fuel' lo hi btf w = Ok st.
Proof.
  induction fuel as [|fuel IH]; intros fuel' lo hi btf w st Hle; [discriminate|].
  destruct fuel' as [|fuel']; [lia|].
  cbn [encode_renorm].
  destruct (hi <? HALF); [apply IH; lia|].
  destruct (lo >=? HALF); [apply IH; lia|].
  destruct ((lo >=? FIRST_QTR) && (hi <? THIRD_QTR)); [apply IH; lia|].
  intros H; exact H.
Qed.

Lemma decode_renorm_fuel (fuel : nat) : forall (fuel' : nat) (lo hi v : Z)
    (rd : BitReader.t) (st : DecState),
  (fuel <= fuel')%nat ->
  decode_renorm fuel lo hi v rd = Ok st -> decode_renorm fuel' lo hi v rd = Ok st.
Proof.
  induction fuel as [|fuel IH]; intros fuel' lo hi v rd st Hle; [discriminate|].
  destruct fuel' as [|fuel']; [lia|].
  cbn [decode_renorm].
  destruct (hi <? HALF); [destruct (shift_in v rd); apply IH; lia|].
  destruct (lo >=? HALF); [destruct (shift_in _ rd); apply IH; lia|].
  destruct ((lo >=? FIRST_QTR) && (hi <? THIRD_QTR));
    [destruct (shift_in _ rd); apply IH; lia|].
  intros H; exact H.
Qed.

(** ** Interval narrowing and the cumulative value *)

Lemma encode_narrow_spec (lo hi : Z) (it : Symbol) (total : Z) :
  0 <= lo <= hi -> hi < 2 ^ 32 ->
  0 <= low it < high it -> high it <= total ->
  total <= hi - lo + 1 -> total < 2 ^ 32 ->
  let range := hi - lo + 1 in
  encode_narrow lo hi it total
  = (lo + range * low it / total, lo + range * high it / total - 1)
  /\ lo <= lo + range * low it / total
  /\ lo + range * low it / total <= lo + range * high it / total - 1
  /\ lo + range * high it / total - 1 <= hi.
Proof.
  intros Hlo Hhi Hsl Hsh Htr Ht range.
  assert (Hr : 0 < range <= 2 ^ 32) by (unfold range; lia).
  assert (Ht0 : 0 < total) by lia.
  pose proof (Z.div_mod (range * low it) total ltac:(lia)) as Hq1.
  pose proof (Z.mod_pos_bound (range * low it) total Ht0) as Hm1.
  pose proof (Z.div_mod (range * high it) total ltac:(lia)) as Hq2.
  pose proof (Z.mod_pos_bound (range * high it) total Ht0) as Hm2.
  set (q1 := range * low it / total) in *.
  set (q2 := range * high it / total) in *.
  assert (H1 : 0 <= q1) by (apply Z.div_pos; nia).
  assert (H2 : q1 + 1 <= q2) by nia.
  assert (H3 : q2 <= range) by nia.
  unfold encode_narrow.
  rewrite (u32_small (hi - lo)) by lia.
  rewrite (u64_small (hi - lo + 1)) by lia. fold range.
  rewrite (u64_small (range * high it)) by nia.
  rewrite (u64_small (range * low it)) by nia. fold q1 q2.
  rewrite (u64_small (lo + q2)) by (unfold range in *; lia).
  rewrite (u64_small (lo + q2 - 1)) by (unfold range in *; lia).
  rewrite (u64_small (lo + q1)) by (unfold range in *; lia).
  rewrite !u32_small by (unfold range in *; lia).
  unfold range in *. repeat split; lia.
Qed.

Lemma decode_cum_spec (lo hi v total : Z) :
  0 <= lo <= v -> v <= hi -> hi < 2 ^ 32 -> 0 < total < 2 ^ 32 ->
  decode_cum lo hi v total = ((v - lo + 1) * total - 1) / (hi - lo + 1).
Proof.
  intros Hlo Hv Hhi Ht. unfold decode_cum.
  rewrite (u32_small (hi - lo)), (u32_small (v - lo)) by lia.
  rewrite (u64_small (hi - lo + 1)), (u64_small (v - lo + 1)) by lia.
  rewrite (u64_small ((v - lo + 1) * total)) by nia.
  rewrite u64_small by nia. reflexivity.
Qed.

(** The cumulative value falls in an entry's share exactly when [value]
    falls in the interval narrowed to that entry. *)
Lemma cum_in_entry (lo hi v sl sh total : Z) :
  0 <= lo <= v -> v <= hi -> 0 < total -> 0 <= sl ->
  let range := hi - lo + 1 in
  let cum := ((v - lo + 1) * total - 1) / range in
  (sl <= cum < sh)
  <-> (lo + range * sl / total <= v <= lo + range * sh / total - 1).
Proof.
  intros Hlo Hv Ht Hsl range cum.
  assert (Hr : 0 < range) by (unfold range; lia).
  pose proof (Z.div_mod ((v - lo + 1) * total - 1) range ltac:(lia)) as Hc.
  pose proof (Z.mod_pos_bound ((v - lo + 1) * total - 1) range Hr) as Hcm.
  fold cum in Hc.
  pose proof (Z.div_mod (range * sl) total ltac:(lia)) as Hq1.
  pose proof (Z.mod_pos_bound (range * sl) total Ht) as Hm1.
  pose proof (Z.div_mod (range * sh) total ltac:(lia)) as Hq2.
  pose proof (Z.mod_pos_bound (range * sh) total Ht) as Hm2.
  set (q1 := range * sl / total) in *.
  set (q2 := range * sh / total) in *.
  set (x := v - lo + 1) in *.
  assert (Hx : v = lo + x - 1) by (unfold x; lia).
  split.
  - intros [H1 H2]. split; nia.
  - intros [H1 H2]. split; nia.
Qed.

(** ** Looking symbols up *)

Lemma partitions_In (syms : list Symbol) : forall (from upto : Z) (it : Symbol),
  partitions from syms upto -> In it syms ->
  from <= low it /\ low it <= high it /\ high it <= upto
  /\ high it - low it = count it.
Proof.
  induction syms as [|s rest IH]; intros from upto it Hp Hin; [contradiction|].
  cbn [partitions] in Hp. destruct Hp as (Hlow & Hcnt & Hnn & Hrest).
  assert (Hup : high s <= upto).
  { clear -Hrest. revert Hrest. generalize (high s) as c.
    induction rest as [|r rest IH]; intros c Hp; cbn [partitions] in Hp; [lia|].
    destruct Hp as (Hl & Hc & Hn & Hr). specialize (IH _ Hr). lia. }
  destruct Hin as [<-|Hin].
  - lia.
  - destruct (IH _ _ it Hrest Hin) as (H1 & H2 & H3 & H4). lia.
Qed.

(** [decodeSymbol] returns the byte of the entry whose share holds the
    cumulative value. *)
Lemma decodeSymbol_In (syms : list Symbol) : forall (from upto cum : Z) (it : Symbol),
  partitions from syms upto -> In it syms ->
  low it <= cum < high it ->
  decodeSymbol syms cum = value it.
Proof.
  induction syms as [|s rest IH]; intros from upto cum it Hp Hin Hcum; [contradiction|].
  cbn [decodeSymbol]. pose proof Hp as Hp'.
  cbn [partitions] in Hp. destruct Hp as (Hlow & Hcnt & Hnn & Hrest).
  destruct Hin as [<-|Hin].
  - destruct (Z.geb_spec cum (low s)); destruct (Z.ltb_spec cum (high s));
      cbn [andb]; try lia. reflexivity.
  - destruct (partitions_In rest _ _ it Hrest Hin) as (H1 & _).
    destruct (Z.geb_spec cum (low s)); destruct (Z.ltb_spec cum (high s));
      cbn [andb]; try lia; apply (IH _ _ cum it Hrest Hin Hcum).
Qed.

(** Every cumulative value below the total lies in some entry's share. *)
Lemma partitions_cover (syms : list Symbol) : forall (from upto cum : Z),
  partitions from syms upto -> from <= cum < upto ->
  exists it, In it syms /\ low it <= cum < high it.
Proof.
  induction syms as [|s rest IH]; intros from upto cum Hp Hcum;
    cbn [partitions] in Hp; [lia|].
  destruct Hp as (Hlow & Hcnt & Hnn & Hrest).
  destruct (Z.ltb_spec cum (high s)) as [Hlt|Hge].
  - exists s. split; [left; reflexivity|lia].
  - destruct (IH _ _ cum Hrest ltac:(lia)) as (it & Hin & Hit).
    exists it. split; [right; exact Hin|exact Hit].
Qed.


(** With distinct byte values, the entry found for an entry's byte is that
    entry. *)
Lemma find_symbol_In (syms : list Symbol) (it : Symbol) :
  distinct_values syms -> In it syms ->
  find_symbol (value it) syms = Some it.
Proof.
  unfold distinct_values, find_symbol.
  induction syms as [|s rest IH]; intros Hnd Hin; [contradiction|].
  cbn [map] in Hnd. inversion Hnd as [|? ? Hnotin Hnd']; subst.
  cbn [find]. destruct Hin as [->|Hin].
  - rewrite (proj2 (byte_eqb_eq _ _) eq_refl). reflexivity.
  - destruct (Byte.eqb (value s) (value it)) eqn:E.
    + apply byte_eqb_eq in E. exfalso. apply Hnotin. rewrite E.
      apply in_map, Hin.
    + apply IH; assumption.
Qed.

Lemma find_symbol_some (syms : list Symbol) (b : byte) (it : Symbol) :
  find_symbol b syms = Some it -> In it syms /\ value it = b.
Proof.
  unfold find_symbol. intros H. apply find_some in H.
  destruct H as [Hin Heq]. apply byte_eqb_eq in Heq. auto.
Qed.

Lemma find_symbol_present (syms : list Symbol) (b : byte) :
  In b (map value syms) -> exists it, find_symbol b syms = Some it.
Proof.
  intros Hin. destruct (find_symbol b syms) as [it|] eqn:E; [exists it; reflexivity|].
  exfalso. apply in_map_iff in Hin. destruct Hin as (s & Hs & Hins).
  unfold find_symbol in E. pose proof (find_none _ _ E s Hins) as Hn. cbn in Hn.
  rewrite (proj2 (byte_eqb_eq _ _) Hs) in Hn. discriminate.
Qed.






(** ** Serialization *)

Lemma put_be_length (n : nat) (v : Z) : length (put_be n v) = n.
Proof. induction n as [|n IH]; cbn [put_be length]; congruence. Qed.

Lemma put_table_length (syms : list Symbol) :
  length (put_table syms) = (9 * length syms)%nat.
Proof.
  induction syms as [|s rest IH]; [reflexivity|].
  cbn [put_table length]. rewrite length_app. unfold writeUint64.
  rewrite put_be_length, IH. lia.
Qed.

Lemma lor_shift_byte (x b : Z) :
  0 <= b < 256 -> Z.lor (x * 256) b = x * 256 + b.
Proof.
  intros Hb. pose proof (Z.add_lor_land (x * 256) b) as H.
  assert (Hl : Z.land (x * 256) b = 0).
  { apply Z.bits_inj'. intros i Hi. rewrite Z.land_spec, Z.bits_0.
    destruct (Z.ltb_spec i 8) as [Hlt|Hge].
    - change 256 with (2 ^ 8). rewrite Z.mul_pow2_bits_low by lia. reflexivity.
    - rewrite <- (Z.mod_small b (2 ^ 8)) by (change (2 ^ 8) with 256; lia).
      rewrite Z.mod_pow2_bits_high by lia. apply andb_false_r. }
  lia.
Qed.

Lemma put_be_byte (n : nat) (v : Z) :
  byte_val (to_byte (Z.land (Z.shiftr v (8 * Z.of_nat n)) 0xFF))
  = (v / 2 ^ (8 * Z.of_nat n)) mod 256.
Proof.
  rewrite byte_val_to_byte. change 0xFF with (Z.ones 8).
  rewrite Z.land_ones by lia. rewrite Z.shiftr_div_pow2 by lia.
  change (2 ^ 8) with 256. apply Z.mod_mod. lia.
Qed.

(** Reading back what [put_be] wrote. *)
Lemma get_put_be (width : Z) (n : nat) : forall (acc v : Z) (rest : list byte),
  8 * Z.of_nat n <= width ->
  0 <= acc < 2 ^ (width - 8 * Z.of_nat n) ->
  get_be width n acc (put_be n v ++ rest)
  = Ok (acc * 2 ^ (8 * Z.of_nat n) + v mod 2 ^ (8 * Z.of_nat n), rest).
Proof.
  induction n as [|n IH]; intros acc v rest Hw Hacc.
  - cbn [get_be put_be app]. change (8 * Z.of_nat 0) with 0.
    rewrite Z.pow_0_r, Z.mod_1_r. do 2 f_equal. lia.
  - cbn [get_be put_be app]. rewrite put_be_byte.
    set (k := 8 * Z.of_nat n) in *.
    assert (Hk : 8 * Z.of_nat (S n) = k + 8) by lia. rewrite Hk in *.
    assert (Hpw : 2 ^ (width - k) = 2 ^ (width - (k + 8)) * 256).
    { replace (width - k) with (width - (k + 8) + 8) by lia.
      rewrite Z.pow_add_r by lia. reflexivity. }
    assert (Hpos : 0 < 2 ^ (width - k)) by (apply Z.pow_pos_nonneg; lia).
    assert (Hpk : 0 < 2 ^ k) by (apply Z.pow_pos_nonneg; lia).
    assert (Hww : 2 ^ width = 2 ^ (width - k) * 2 ^ k).
    { rewrite <- Z.pow_add_r by lia. f_equal. lia. }
    pose proof (Z.mod_pos_bound (v / 2 ^ k) 256 ltac:(lia)) as Hb.
    rewrite Z.shiftl_mul_pow2 by lia. change (2 ^ 8) with 256.
    rewrite (Z.mod_small (acc * 256)) by nia.
    rewrite lor_shift_byte by lia.
    rewrite IH by (try lia; nia).
    do 2 f_equal.
    rewrite (Z.pow_add_r 2 k 8) by lia. change (2 ^ 8) with 256.
    rewrite Z.rem_mul_r by lia. ring.
Qed.

Lemma readUint64_writeUint64 (v : Z) (rest : list byte) :
  0 <= v < 2 ^ 64 -> readUint64 (writeUint64 v ++ rest) = Ok (v, rest).
Proof.
  intros Hv. unfold readUint64, writeUint64.
  rewrite get_put_be by (cbn; lia). cbn [Z.of_nat].
  change (2 ^ (8 * Z.of_nat 8)) with (2 ^ 64).
  rewrite Z.mod_small by lia. reflexivity.
Qed.

Lemma readUint32_writeUint32 (v : Z) (rest : list byte) :
  0 <= v < 2 ^ 32 -> readUint32 (writeUint32 v ++ rest) = Ok (v, rest).
Proof.
  intros Hv. unfold readUint32, writeUint32.
  rewrite get_put_be by (cbn; lia).
  change (2 ^ (8 * Z.of_nat 4)) with (2 ^ 32).
  rewrite Z.mod_small by lia. reflexivity.
Qed.

Lemma get_table_put_table (syms : list Symbol) (rest : list byte) :
  Forall (fun s => 0 <= count s < 2 ^ 64) syms ->
  get_table (length syms) (put_table syms ++ rest)
  = Ok (map (fun s => (value s, count s)) syms, rest).
Proof.
  induction 1 as [|s syms Hs _ IH]; [reflexivity|].
  cbn [length get_table put_table app]. rewrite <- app_assoc.
  rewrite readUint64_writeUint64 by exact Hs. cbn [bind].
  rewrite IH. reflexivity.
Qed.

(** Big-endian value of a field written by [put_be]. *)
Lemma be_value_put_be (n : nat) (v : Z) :
  0 <= v < 2 ^ (8 * Z.of_nat n) -> be_value (put_be n v) = v.
Proof.
  intros Hv. unfold be_value.
  assert (H : forall m acc, fold_left (fun acc b => acc * 256 + byte_val b) (put_be m v) acc
                            = acc * 2 ^ (8 * Z.of_nat m) + v mod 2 ^ (8 * Z.of_nat m)).
  { induction m as [|m IH]; intros acc.
    - cbn [put_be fold_left]. change (8 * Z.of_nat 0) with 0.
      rewrite Z.pow_0_r, Z.mod_1_r. lia.
    - cbn [put_be fold_left]. rewrite put_be_byte, IH.
      set (k := 8 * Z.of_nat m).
      replace (8 * Z.of_nat (S m)) with (k + 8) by lia.
      assert (Hpk : 0 < 2 ^ k) by (apply Z.pow_pos_nonneg; lia).
      rewrite (Z.pow_add_r 2 k 8) by lia. change (2 ^ 8) with 256.
      rewrite Z.rem_mul_r by lia. ring. }
  rewrite H, Z.mod_small by exact Hv. lia.
Qed.

(** ** The encoder always returns *)

Lemma encode_renorm_stops (fuel : nat) : forall (lo hi btf : Z) (w : BitWriter.t) (st : EncState),
  0 <= lo < 2 ^ 32 -> 0 <= hi < 2 ^ 32 ->
  encode_renorm fuel lo hi btf w = Ok st ->
  0 <= enc_low st < 2 ^ 32 /\ 0 <= enc_high st < 2 ^ 32
  /\ scale (enc_low st) (enc_high st) = None.
Proof.
  induction fuel as [|fuel IH]; intros lo hi btf w st Hl Hh; [discriminate|].
  rewrite encode_renorm_S by assumption.
  destruct (scale lo hi) as [[lo' hi']|] eqn:Hsc.
  - destruct (scale_range lo hi lo' hi' Hl Hh Hsc) as [Hl' Hh']. apply IH; assumption.
  - intros [= <-]. cbn [enc_low enc_high]. auto.
Qed.

Lemma encode_narrow_range (lo hi : Z) (it : Symbol) (total : Z) :
  0 <= fst (encode_narrow lo hi it total) < 2 ^ 32
  /\ 0 <= snd (encode_narrow lo hi it total) < 2 ^ 32.
Proof. unfold encode_narrow; cbn [fst snd]. split; apply u32_range. Qed.

Lemma encode_byte_total (self : Encoder) (st : EncState) (b : byte) :
  total_count self <> 0 ->
  0 <= enc_low st < 2 ^ 32 -> 0 <= enc_high st < 2 ^ 32 ->
  exists st', encode_byte self st b = Ok st'
    /\ 0 <= enc_low st' < 2 ^ 32 /\ 0 <= enc_high st' < 2 ^ 32.
Proof.
  intros Ht Hl Hh. unfold encode_byte.
  destruct (find_symbol b (symbols self)) as [it|]; [|exists st; auto].
  destruct (Z.eqb_spec (total_count self) 0) as [|_]; [contradiction|].
  pose proof (encode_narrow_range (enc_low st) (enc_high st) it (total_count self)) as [Hnl Hnh].
  destruct (encode_narrow _ _ it _) as [lo hi]. cbn [fst snd] in *.
  destruct (encode_renorm_total 32 renorm_fuel lo hi (bits_to_follow st) (writer st))
    as [st' Hst']; try assumption; try (unfold renorm_fuel; lia).
  { apply shifted_0. }
  exists st'. split; [exact Hst'|].
  destruct (encode_renorm_stops _ _ _ _ _ _ Hnl Hnh Hst') as (H1 & H2 & _). auto.
Qed.

Lemma encode_loop_total (self : Encoder) (data : list byte) : forall st : EncState,
  total_count self <> 0 ->
  0 <= enc_low st < 2 ^ 32 -> 0 <= enc_high st < 2 ^ 32 ->
  exists st', encode_loop self st data = Ok st'.
Proof.
  induction data as [|b data IH]; intros st Ht Hl Hh; [exists st; reflexivity|].
  cbn [encode_loop].
  destruct (encode_byte_total self st b Ht Hl Hh) as (st1 & -> & Hl1 & Hh1).
  cbn [bind]. apply IH; assumption.
Qed.

Lemma encodeData_total (self : Encoder) (data : list byte) (w : BitWriter.t) :
  data = [] \/ total_count self <> 0 ->
  exists w', encodeData self data w = Ok w'.
Proof.
  intros [->|Ht]; unfold encodeData.
  - eexists; reflexivity.
  - destruct (encode_loop_total self data (mkEnc 0 MAX_RANGE 0 w) Ht) as [st ->];
      cbn [enc_low enc_high]; unfold MAX_RANGE; try lia.
    eexists; reflexivity.
Qed.

Lemma buildFrequencyTable_total_count (self : Encoder) (data : list byte) :
  Z.of_nat (length data) < 2 ^ 64 ->
  data = [] \/ total_count (buildFrequencyTable self data) <> 0.
Proof.
  intros Hlen. destruct data as [|b data]; [left; reflexivity|right].
  unfold buildFrequencyTable; cbn [total_count]. rewrite u64_small by lia.
  cbn [length]. lia.
Qed.

(** ** [compress] *)

(** [compress] returns for every input, with the file and the statistics
    spelled out. *)
Lemma compress_returns (self : Encoder) (data : list byte) :
  Z.of_nat (length data) < 2 ^ 64 ->
  exists w : BitWriter.t,
    encodeData (buildFrequencyTable self data) data BitWriter.empty = Ok w
    /\ compress self data
       = Ok (buildFrequencyTable self data,
             magic ++ writeUint64 (u64 (Z.of_nat (length data)))
                   ++ writeUint32 (u32 (Z.of_nat (length (symbols (buildFrequencyTable self data)))))
                   ++ put_table (symbols (buildFrequencyTable self data))
                   ++ BitWriter.bytes w,
             mkStatistics (Z.of_nat (length data))
               (Z.of_nat (length (BitWriter.bytes w)) + 4 + 8 + 4
                + Z.of_nat (length (symbols (buildFrequencyTable self data))) * (1 + 8))
               (Z.of_nat (length data)
                - (Z.of_nat (length (BitWriter.bytes w)) + 4 + 8 + 4
                   + Z.of_nat (length (symbols (buildFrequencyTable self data))) * (1 + 8)))).
Proof.
  intros Hlen.
  destruct (encodeData_total (buildFrequencyTable self data) data BitWriter.empty
              (buildFrequencyTable_total_count self data Hlen)) as [w Hw].
  exists w. split; [exact Hw|].
  unfold compress. rewrite Hw. reflexivity.
Qed.

(** C4.  For an input of fewer than [2^64] bytes [compress] returns; the
    file it writes is the magic, the 8-byte size field, the 4-byte symbol
    count, the table and the packed bits; the size field spells the
    number of input bytes; and the [compressed_size] it reports is the
    number of bytes of that file. *)
Theorem compress_header_fidelity (self : Encoder) (data : list byte) :
  Z.of_nat (length data) < 2 ^ 64 ->
  exists self' outfile stats bitstream,
    compress self data = Ok (self', outfile, stats)
    /\ outfile = magic ++ writeUint64 (Z.of_nat (length data))
                       ++ writeUint32 (u32 (Z.of_nat (length (symbols self'))))
                       ++ put_table (symbols self') ++ bitstream
    /\ be_value (firstn 8 (skipn 4 outfile)) = Z.of_nat (length data)
    /\ original_size stats = Z.of_nat (length data)
    /\ compressed_size stats = Z.of_nat (length outfile).
Proof.
  intros Hlen.
  destruct (compress_returns self data Hlen) as (w & _ & ->).
  rewrite u64_small by lia.
  do 3 eexists. exists (BitWriter.bytes w).
  split; [reflexivity|]. split; [reflexivity|].
  cbn [original_size compressed_size]. split; [|split; [reflexivity|]].
  - unfold magic, writeUint64. cbn [app skipn].
    rewrite firstn_app, put_be_length, Nat.sub_diag, firstn_O, app_nil_r.
    rewrite firstn_all2 by (rewrite put_be_length; lia).
    apply be_value_put_be. cbn; lia.
  - rewrite !length_app. unfold writeUint64, writeUint32.
    rewrite !put_be_length, put_table_length. cbn [magic length]. lia.
Qed.

Lemma compress_header_fidelity_witness :
  exists self' outfile stats bitstream,
    compress (mkEncoder [] 0) [x61; x62; x61] = Ok (self', outfile, stats)
    /\ outfile = magic ++ writeUint64 3
                       ++ writeUint32 (u32 (Z.of_nat (length (symbols self'))))
                       ++ put_table (symbols self') ++ bitstream
    /\ be_value (firstn 8 (skipn 4 outfile)) = 3
    /\ original_size stats = 3
    /\ compressed_size stats = Z.of_nat (length outfile).
Proof.
  apply (compress_header_fidelity (mkEncoder [] 0) [x61; x62; x61]).
  vm_compute. reflexivity.
Defined.

(** C7.  Compression is deterministic.  For an input of fewer than [2^64]
    bytes, [compress] returns, and a second run on the same input, by the
    same encoder object (which now holds the table of the first run) or by
    any other, returns the same file, the same table and the same
    statistics. *)
Theorem compress_deterministic (self : Encoder) (data : list byte) :
  Z.of_nat (length data) < 2 ^ 64 ->
  exists self' outfile stats,
    compress self data = Ok (self', outfile, stats)
    /\ compress self' data = Ok (self', outfile, stats)
    /\ forall other : Encoder, compress other data = Ok (self', outfile, stats).
Proof.
  intros Hlen.
  destruct (compress_returns self data Hlen) as (w & _ & Hrun).
  eexists _, _, _.
  split; [exact Hrun|].
  assert (Hany : forall other, compress other data = compress self data)
    by (intros other; unfold compress, buildFrequencyTable; reflexivity).
  split; [rewrite Hany; exact Hrun|].
  intros other. rewrite Hany. exact Hrun.
Qed.

Lemma compress_deterministic_witness :
  exists self' outfile stats,
    compress (mkEncoder [mkSymbol x7a 0 9 9] 9) [x61; x62; x61] = Ok (self', outfile, stats)
    /\ compress self' [x61; x62; x61] = Ok (self', outfile, stats)
    /\ forall other : Encoder, compress other [x61; x62; x61] = Ok (self', outfile, stats).
Proof.
  apply (compress_deterministic (mkEncoder [mkSymbol x7a 0 9 9] 9) [x61; x62; x61]).
  vm_compute. reflexivity.
Defined.

(** C8 as stated fails on the empty input: [buildFrequencyTable] returns
    the empty model and [compress] goes on to write a 17-byte file. *)
Lemma buildFrequencyTable_empty_input :
  buildFrequencyTable (mkEncoder [] 0) [] = mkEncoder [] 0
  /\ compress (mkEncoder [] 0) []
     = Ok (mkEncoder [] 0,
           magic ++ [x00; x00; x00; x00; x00; x00; x00; x00] ++ [x00; x00; x00; x00] ++ [x40],
           mkStatistics 0 17 (-17)).
Proof. split; reflexivity. Qed.

(** ** [decompress]: what it rejects and what it accepts *)

Lemma get_be_short (width : Z) (n : nat) : forall (acc : Z) (input : list byte),
  (length input < n)%nat -> get_be width n acc input = Err UnexpectedEOF.
Proof.
  induction n as [|n IH]; intros acc input Hlen; [lia|].
  destruct input as [|c input]; [reflexivity|].
  cbn [get_be]. apply IH. cbn [length] in Hlen. lia.
Qed.

Lemma be_fold_bound (bs : list byte) : forall acc k : Z,
  0 <= k -> 0 <= acc < 2 ^ k ->
  0 <= fold_left (fun acc b => acc * 256 + byte_val b) bs acc
    < 2 ^ (k + 8 * Z.of_nat (length bs)).
Proof.
  induction bs as [|b bs IH]; intros acc k Hk Hacc; cbn [fold_left length].
  - rewrite Z.add_0_r. exact Hacc.
  - replace (k + 8 * Z.of_nat (S (length bs))) with (k + 8 + 8 * Z.of_nat (length bs)) by lia.
    apply IH; [lia|]. rewrite Z.pow_add_r by lia. change (2 ^ 8) with 256.
    pose proof (byte_val_range b). lia.
Qed.

Lemma get_be_ok (width : Z) (n : nat) : forall (acc : Z) (input : list byte),
  (n <= length input)%nat ->
  8 * Z.of_nat n <= width -> 0 <= acc < 2 ^ (width - 8 * Z.of_nat n) ->
  get_be width n acc input
  = Ok (fold_left (fun acc b => acc * 256 + byte_val b) (firstn n input) acc, skipn n input).
Proof.
  induction n as [|n IH]; intros acc input Hlen Hw Hacc; [reflexivity|].
  destruct input as [|c input]; [cbn in Hlen; lia|].
  cbn [get_be firstn skipn fold_left]. cbn [length] in Hlen.
  pose proof (byte_val_range c) as Hc.
  assert (Hpw : 2 ^ (width - 8 * Z.of_nat n) = 2 ^ (width - 8 * Z.of_nat (S n)) * 256).
  { replace (width - 8 * Z.of_nat n) with (width - 8 * Z.of_nat (S n) + 8) by lia.
    rewrite Z.pow_add_r by lia. reflexivity. }
  assert (Hle : 2 ^ (width - 8 * Z.of_nat n) <= 2 ^ width)
    by (apply Z.pow_le_mono_r; lia).
  rewrite Z.shiftl_mul_pow2 by lia. change (2 ^ 8) with 256.
  rewrite (Z.mod_small (acc * 256)) by lia.
  rewrite lor_shift_byte by lia.
  apply IH; lia.
Qed.

Lemma readUint64_ok (input : list byte) :
  (8 <= length input)%nat ->
  readUint64 input = Ok (be_value (firstn 8 input), skipn 8 input)
  /\ 0 <= be_value (firstn 8 input) < 2 ^ 64.
Proof.
  intros Hlen. unfold readUint64. rewrite get_be_ok by (cbn; lia).
  split; [reflexivity|].
  pose proof (be_fold_bound (firstn 8 input) 0 0 ltac:(lia) ltac:(lia)) as H.
  rewrite length_firstn, Nat.min_l in H by lia. exact H.
Qed.

Lemma readUint32_ok (input : list byte) :
  (4 <= length input)%nat ->
  readUint32 input = Ok (be_value (firstn 4 input), skipn 4 input)
  /\ 0 <= be_value (firstn 4 input) < 2 ^ 32.
Proof.
  intros Hlen. unfold readUint32. rewrite get_be_ok by (cbn; lia).
  split; [reflexivity|].
  pose proof (be_fold_bound (firstn 4 input) 0 0 ltac:(lia) ltac:(lia)) as H.
  rewrite length_firstn, Nat.min_l in H by lia. exact H.
Qed.

Lemma get_table_short (n : nat) : forall input : list byte,
  (length input < 9 * n)%nat -> get_table n input = Err UnexpectedEOF.
Proof.
  induction n as [|n IH]; intros input Hlen; [lia|].
  destruct input as [|v input]; [reflexivity|].
  cbn [get_table]. cbn [length] in Hlen.
  destruct (Nat.ltb_spec (length input) 8) as [Hshort|Hlong].
  - unfold readUint64. rewrite get_be_short by exact Hshort. reflexivity.
  - destruct (readUint64_ok input Hlong) as [-> _]. cbn [bind].
    rewrite IH by (rewrite length_skipn; lia). reflexivity.
Qed.

Lemma get_table_ok (n : nat) : forall input : list byte,
  (9 * n <= length input)%nat ->
  exists counts,
    get_table n input = Ok (counts, skipn (9 * n) input)
    /\ length counts = n
    /\ Forall (fun kc => 0 <= snd kc < 2 ^ 64) counts.
Proof.
  induction n as [|n IH]; intros input Hlen.
  - exists []. split; [reflexivity|]. split; [reflexivity|constructor].
  - destruct input as [|v input]; [cbn in Hlen; lia|].
    cbn [length] in Hlen. cbn [get_table].
    destruct (readUint64_ok input ltac:(lia)) as [-> Hc]. cbn [bind].
    destruct (IH (skipn 8 input)) as (counts & -> & Hn & Hall).
    { rewrite length_skipn. lia. }
    cbn [bind]. eexists. split; [|split].
    + do 2 f_equal. rewrite skipn_skipn.
      replace (9 * S n)%nat with (S (9 * n + 8)) by lia. reflexivity.
    + cbn [length]. lia.
    + constructor; [exact Hc|exact Hall].
Qed.

Lemma magic_check (infile : list byte) :
  negb ((length (firstn 4 infile) =? 4)%nat
        && if list_eq_dec Byte.byte_eq_dec (firstn 4 infile) magic then true else false)
  = if list_eq_dec Byte.byte_eq_dec (firstn 4 infile) magic then false else true.
Proof.
  destruct (list_eq_dec Byte.byte_eq_dec (firstn 4 infile) magic) as [->|_].
  - reflexivity.
  - rewrite andb_false_r. reflexivity.
Qed.

(** C2 (as amended).  [decompress] reports "Invalid file format" for every
    file that does not start with "ARIT", and "Unexpected EOF" for every
    file that starts with it but ends before the size field, the symbol
    count and the declared number of table entries are complete.  (It
    makes no check on the bitstream.) *)
Theorem decompress_rejects (self : Encoder) (infile : list byte) :
  (firstn 4 infile <> magic -> decompress self infile = Err InvalidFormat)
  /\ (firstn 4 infile = magic -> (length infile < 16)%nat ->
      decompress self infile = Err UnexpectedEOF)
  /\ (firstn 4 infile = magic -> (16 <= length infile)%nat ->
      Z.of_nat (length infile) < 16 + 9 * be_value (firstn 4 (skipn 12 infile)) ->
      decompress self infile = Err UnexpectedEOF).
Proof.
  unfold decompress. rewrite magic_check.
  destruct (list_eq_dec Byte.byte_eq_dec (firstn 4 infile) magic) as [Hm|Hm].
  - split; [intros H; contradiction|]. split.
    + intros _ Hlen.
      destruct (Nat.ltb_spec (length (skipn 4 infile)) 8) as [Hs|Hs].
      * unfold readUint64. rewrite get_be_short by exact Hs. reflexivity.
      * destruct (readUint64_ok _ Hs) as [-> _]. cbn [bind].
        unfold readUint32. rewrite get_be_short; [reflexivity|].
        rewrite !length_skipn. lia.
    + intros _ Hlen Htable.
      destruct (readUint64_ok (skipn 4 infile)) as [-> _];
        [rewrite length_skipn; lia|]. cbn [bind].
      destruct (readUint32_ok (skipn 8 (skipn 4 infile))) as [-> Hc];
        [rewrite !length_skipn; lia|]. cbn [bind].
      rewrite skipn_skipn in *. change (8 + 4)%nat with 12%nat in *.
      rewrite get_table_short; [reflexivity|].
      rewrite !length_skipn. lia.
  - split; [reflexivity|]. split; intros H; contradiction.
Qed.

Lemma decompress_rejects_witness :
  decompress (mkEncoder [] 0) [x41; x52; x49; x53] = Err InvalidFormat
  /\ decompress (mkEncoder [] 0) (magic ++ [x00; x00; x00]) = Err UnexpectedEOF
  /\ decompress (mkEncoder [] 0)
       (magic ++ [x00; x00; x00; x00; x00; x00; x00; x01] ++ [x00; x00; x00; x01]
              ++ [x61; x00; x00; x00]) = Err UnexpectedEOF.
Proof.
  split; [|split].
  - apply (proj1 (decompress_rejects (mkEncoder [] 0) [x41; x52; x49; x53])).
    intros H; discriminate H.
  - apply (proj1 (proj2 (decompress_rejects (mkEncoder [] 0) (magic ++ [x00; x00; x00])))).
    + reflexivity.
    + cbn; lia.
  - apply (proj2 (proj2 (decompress_rejects (mkEncoder [] 0)
       (magic ++ [x00; x00; x00; x00; x00; x00; x00; x01] ++ [x00; x00; x00; x01]
              ++ [x61; x00; x00; x00])))).
    + reflexivity.
    + cbn; lia.
    + vm_compute. reflexivity.
Defined.

(** C2 as stated fails for a file whose bitstream is cut short: the file
    written for "abacadba" less its last byte is accepted, and decodes to
    eight bytes that are not the input. *)
Lemma decompress_accepts_truncated_bitstream :
  let table :=
    [mkSymbol x61 0 4 4; mkSymbol x62 4 6 2; mkSymbol x63 6 7 1; mkSymbol x64 7 8 1] in
  let header :=
    magic ++ writeUint64 8 ++ writeUint32 4 ++ put_table table in
  compress (mkEncoder [] 0) [x61; x62; x61; x63; x61; x64; x62; x61]
  = Ok (mkEncoder table 8, header ++ [x4c; xf1], mkStatistics 8 54 (-46))
  /\ decompress (mkEncoder [] 0) (header ++ [x4c])
     = Ok (mkEncoder table 8, [x61; x62; x61; x63; x61; x61; x61; x61]).
Proof. split; vm_compute; reflexivity. Qed.

(** ** The decoder returns one byte per declared symbol *)

Lemma decode_renorm_stops (fuel : nat) : forall (lo hi value : Z) (rd : BitReader.t) (st : DecState),
  0 <= lo < 2 ^ 32 -> 0 <= hi < 2 ^ 32 ->
  decode_renorm fuel lo hi value rd = Ok st ->
  0 <= dec_low st < 2 ^ 32 /\ 0 <= dec_high st < 2 ^ 32
  /\ scale (dec_low st) (dec_high st) = None.
Proof.
  induction fuel as [|fuel IH]; intros lo hi value rd st Hl Hh; [discriminate|].
  rewrite decode_renorm_S by assumption.
  destruct (scale lo hi) as [[lo' hi']|] eqn:Hsc.
  - destruct (scale_range lo hi lo' hi' Hl Hh Hsc) as [Hl' Hh'].
    destruct (shift_in _ rd) as [value' rd']. apply IH; assumption.
  - intros [= <-]. cbn [dec_low dec_high]. auto.
Qed.

Lemma decode_step_total (self : Encoder) (st : DecState) :
  total_count self <> 0 ->
  0 <= dec_low st < 2 ^ 32 -> 0 <= dec_high st < 2 ^ 32 ->
  exists st', snd (decode_step self st) = Ok st'
    /\ 0 <= dec_low st' < 2 ^ 32 /\ 0 <= dec_high st' < 2 ^ 32.
Proof.
  intros Ht Hl Hh. unfold decode_step. cbn [snd].
  destruct (find_symbol _ (symbols self)) as [it|]; [|exists st; auto].
  destruct (Z.eqb_spec (total_count self) 0) as [|_]; [contradiction|].
  assert (Hn : 0 <= fst (decode_narrow (dec_low st) (dec_high st) it (total_count self)) < 2 ^ 32
               /\ 0 <= snd (decode_narrow (dec_low st) (dec_high st) it (total_count self)) < 2 ^ 32).
  { unfold decode_narrow; cbn [fst snd]. split; apply u32_range. }
  destruct Hn as [Hnl Hnh].
  destruct (decode_narrow _ _ it _) as [lo hi]. cbn [fst snd] in *.
  destruct (decode_renorm_total 32 renorm_fuel lo hi (dec_value st) (reader st))
    as [st' Hst']; try assumption; try (unfold renorm_fuel; lia).
  { apply shifted_0. }
  exists st'. split; [exact Hst'|].
  destruct (decode_renorm_stops _ _ _ _ _ _ Hnl Hnh Hst') as (H1 & H2 & _). auto.
Qed.

Lemma decode_loop_length (self : Encoder) (n : nat) : forall (st : DecState) (output : list byte),
  total_count self <> 0 ->
  0 <= dec_low st < 2 ^ 32 -> 0 <= dec_high st < 2 ^ 32 ->
  exists decoded, decode_loop self n st output = Ok decoded
    /\ length decoded = (length output + n)%nat.
Proof.
  induction n as [|n IH]; intros st output Ht Hl Hh.
  - exists output. split; [reflexivity|lia].
  - cbn [decode_loop].
    destruct (decode_step_total self st Ht Hl Hh) as (st' & Hst' & Hl' & Hh').
    destruct (decode_step self st) as [symbol_value next]. cbn [snd] in Hst'. subst next.
    cbn [bind].
    destruct (IH st' (output ++ [symbol_value]) Ht Hl' Hh') as (decoded & -> & Hlen).
    exists decoded. split; [reflexivity|].
    rewrite Hlen, length_app. cbn [length]. lia.
Qed.

Lemma decodeData_length (self : Encoder) (rd : BitReader.t) (size : Z) :
  total_count self <> 0 ->
  exists decoded, decodeData self rd [] size = Ok decoded
    /\ length decoded = Z.to_nat size.
Proof.
  intros Ht. unfold decodeData.
  destruct (fill_value 32 0 rd) as [value rd'].
  destruct (decode_loop_length self (Z.to_nat size) (mkDec 0 MAX_RANGE value rd') [] Ht)
    as (decoded & -> & Hlen); cbn [dec_low dec_high]; unfold MAX_RANGE; try lia.
  exists decoded. split; [reflexivity|exact Hlen].
Qed.

(** A file with a complete header and table whose counts do not add up to
    0 (modulo [2^64]) is decoded to exactly the declared number of bytes,
    whatever its bitstream. *)
Lemma decompress_declared_size (self : Encoder) (infile : list byte) :
  firstn 4 infile = magic ->
  (16 <= length infile)%nat ->
  16 + 9 * be_value (firstn 4 (skipn 12 infile)) <= Z.of_nat (length infile) ->
  exists counts,
    get_table (Z.to_nat (be_value (firstn 4 (skipn 12 infile)))) (skipn 16 infile)
    = Ok (counts, skipn (9 * Z.to_nat (be_value (firstn 4 (skipn 12 infile)))) (skipn 16 infile))
    /\ (total_count (buildSymbolsFromCounts self counts) <> 0 ->
        exists decoded,
          decompress self infile = Ok (buildSymbolsFromCounts self counts, decoded)
          /\ Z.of_nat (length decoded) = be_value (firstn 8 (skipn 4 infile))).
Proof.
  intros Hm Hlen Htable.
  destruct (readUint64_ok (skipn 4 infile)) as [Hsize Hsz];
    [rewrite length_skipn; lia|].
  destruct (readUint32_ok (skipn 8 (skipn 4 infile))) as [Hcount Hc];
    [rewrite !length_skipn; lia|].
  rewrite skipn_skipn in Hcount, Hc. change (8 + 4)%nat with 12%nat in *.
  set (n := be_value (firstn 4 (skipn 12 infile))) in *.
  destruct (get_table_ok (Z.to_nat n) (skipn 16 infile)) as (counts & Htab & _ & _).
  { rewrite length_skipn. lia. }
  exists counts. split; [exact Htab|].
  intros Ht. unfold decompress. rewrite magic_check.
  destruct (list_eq_dec Byte.byte_eq_dec (firstn 4 infile) magic) as [_|Hne]; [|contradiction].
  rewrite Hsize. cbn [bind]. rewrite skipn_skipn. change (8 + 4)%nat with 12%nat.
  rewrite Hcount. cbn [bind].
  rewrite skipn_skipn. change (4 + 12)%nat with 16%nat. rewrite Htab. cbn [bind].
  destruct (decodeData_length (buildSymbolsFromCounts self counts)
              (BitReader.make (skipn (9 * Z.to_nat n) (skipn 16 infile)))
              (be_value (firstn 8 (skipn 4 infile))) Ht) as (decoded & -> & Hd).
  cbn [bind]. exists decoded. split; [reflexivity|]. lia.
Qed.

(** C10 at its failing input: a complete header declaring one byte, a
    table of one entry (byte 0, count 0) and no bitstream.  The loop finds
    no entry for the cumulative value, falls back to byte 0, finds the
    entry of byte 0, and divides by [total_count = 0]. *)
Theorem decompress_divides_by_zero :
  decompress (mkEncoder [] 0)
    (magic ++ [x00; x00; x00; x00; x00; x00; x00; x01] ++ [x00; x00; x00; x01]
           ++ [x00; x00; x00; x00; x00; x00; x00; x00; x00])
  = Err DivisionByZero.
Proof. vm_compute. reflexivity. Qed.

(** ** Bit streams and windows *)

Lemma sbit_bit (W : list Z) (i : nat) : is_bits W -> sbit W i = 0 \/ sbit W i = 1.
Proof.
  intros HW. unfold sbit. destruct (Nat.ltb_spec i (length W)) as [Hlt|Hge].
  - unfold is_bits in HW. rewrite Forall_forall in HW. apply HW, nth_In, Hlt.
  - left. apply nth_overflow, Hge.
Qed.

Lemma sbit_app_l (E W : list Z) (i : nat) :
  (i < length E)%nat -> sbit (E ++ W) i = sbit E i.
Proof. intros H. unfold sbit. apply app_nth1, H. Qed.

Lemma sbit_app_r (E W : list Z) (j : nat) :
  sbit (E ++ W) (length E + j) = sbit W j.
Proof.
  unfold sbit. rewrite app_nth2 by lia. f_equal. lia.
Qed.

Lemma emit_length (b : Z) (p : nat) : length (emit b p) = S p.
Proof. unfold emit. cbn [length]. rewrite repeat_length. reflexivity. Qed.

Lemma emit_bits (b : Z) (p : nat) : b = 0 \/ b = 1 -> is_bits (emit b p).
Proof.
  intros Hb. unfold emit, is_bits. constructor; [exact Hb|].
  apply Forall_forall. intros x Hx. apply repeat_spec in Hx. subst x. lia.
Qed.

Lemma is_bits_app (E W : list Z) : is_bits E -> is_bits W -> is_bits (E ++ W).
Proof. unfold is_bits. intros. apply Forall_app. auto. Qed.

Lemma sbit_emit_0 (b : Z) (p : nat) (W : list Z) : sbit (emit b p ++ W) 0 = b.
Proof. reflexivity. Qed.

Lemma sbit_emit_follow (b : Z) (p : nat) (W : list Z) (i : nat) :
  (1 <= i <= p)%nat -> sbit (emit b p ++ W) i = 1 - b.
Proof.
  intros Hi. rewrite sbit_app_l by (rewrite emit_length; lia).
  unfold sbit, emit. destruct i as [|i]; [lia|]. cbn [nth].
  rewrite nth_repeat_lt by lia. reflexivity.
Qed.

Lemma sbit_emit_rest (b : Z) (p : nat) (W : list Z) (j : nat) :
  sbit (emit b p ++ W) (S p + j) = sbit W j.
Proof. rewrite <- (emit_length b p). apply sbit_app_r. Qed.

Lemma pending_emit (b : Z) (p : nat) (W : list Z) : pending_ok p (emit b p ++ W).
Proof. intros i Hi. rewrite sbit_emit_0. apply sbit_emit_follow, Hi. Qed.

Lemma pending_less (p : nat) (W : list Z) : pending_ok (S p) W -> pending_ok p W.
Proof. intros H i Hi. apply H. lia. Qed.

Lemma fvalue_ext (n : nat) : forall (f g : nat -> Z) (s t : nat),
  (forall j, (j < n)%nat -> f (s + j)%nat = g (t + j)%nat) ->
  fvalue n f s = fvalue n g t.
Proof.
  induction n as [|n IH]; intros f g s t H; [reflexivity|].
  cbn [fvalue]. rewrite (IH f g (S s) (S t)).
  - specialize (H 0%nat ltac:(lia)). rewrite !Nat.add_0_r in H. rewrite H. reflexivity.
  - intros j Hj. specialize (H (S j) ltac:(lia)).
    rewrite !Nat.add_succ_r in H. exact H.
Qed.

Lemma fvalue_snoc (n : nat) : forall (f : nat -> Z) (s : nat),
  fvalue (S n) f s = 2 * fvalue n f s + f (s + n)%nat.
Proof.
  induction n as [|n IH]; intros f s.
  - cbn [fvalue]. rewrite Nat.add_0_r. change (Z.of_nat 0) with 0.
    rewrite Z.pow_0_r. lia.
  - change (fvalue (S (S n)) f s)
      with (2 ^ Z.of_nat (S n) * f s + fvalue (S n) f (S s)).
    rewrite IH. cbn [fvalue].
    replace (S s + n)%nat with (s + S n)%nat by lia.
    replace (Z.of_nat (S n)) with (Z.of_nat n + 1) by lia.
    rewrite Z.pow_add_r by lia. lia.
Qed.

Lemma fvalue_bound (n : nat) : forall (f : nat -> Z) (s : nat),
  (forall i, f i = 0 \/ f i = 1) -> 0 <= fvalue n f s < 2 ^ Z.of_nat n.
Proof.
  induction n as [|n IH]; intros f s Hf; [cbn; lia|].
  cbn [fvalue]. specialize (IH f (S s) Hf).
  replace (Z.of_nat (S n)) with (Z.of_nat n + 1) by lia.
  rewrite Z.pow_add_r by lia.
  destruct (Hf s) as [-> | ->]; lia.
Qed.

Lemma window_bound (p : nat) (W : list Z) : is_bits W -> 0 <= window p W < 2 ^ 32.
Proof.
  intros HW. unfold window.
  pose proof (fvalue_bound 31 (sbit W) (S p) (fun i => sbit_bit W i HW)) as H.
  change (2 ^ Z.of_nat 31) with (2 ^ 31) in H.
  destruct (sbit_bit W 0 HW) as [-> | ->]; lia.
Qed.

(** The window before a deciding bit is written, from the window after. *)
Lemma window_emit (b : Z) (p : nat) (W : list Z) :
  window 0 W
  = 2 * (window p (emit b p ++ W) - 2 ^ 31 * b) + sbit (emit b p ++ W) (p + 32).
Proof.
  unfold window. rewrite sbit_emit_0.
  replace (p + 32)%nat with (S p + 31)%nat by lia. rewrite sbit_emit_rest.
  rewrite (fvalue_ext 31 (sbit (emit b p ++ W)) (sbit W) (S p) 0)
    by (intros j _; apply sbit_emit_rest).
  pose proof (fvalue_snoc 31 (sbit W) 0) as Hs.
  change (fvalue 32 (sbit W) 0) with (2 ^ Z.of_nat 31 * sbit W 0 + fvalue 31 (sbit W) 1) in Hs.
  change (2 ^ Z.of_nat 31) with (2 ^ 31) in Hs. cbn [Nat.add] in Hs. lia.
Qed.

(** The same across an E3 pass, which writes nothing and owes one more
    opposite bit. *)
Lemma window_follow (p : nat) (W : list Z) :
  pending_ok (S p) W ->
  window (S p) W = 2 * (window p W - 2 ^ 30) + sbit W (p + 32).
Proof.
  intros Hp. unfold window.
  pose proof (fvalue_snoc 30 (sbit W) (S (S p))) as Hs.
  replace (S (S p) + 30)%nat with (p + 32)%nat in Hs by lia.
  rewrite Hs.
  change (fvalue 31 (sbit W) (S p))
    with (2 ^ Z.of_nat 30 * sbit W (S p) + fvalue 30 (sbit W) (S (S p))).
  change (2 ^ Z.of_nat 30) with (2 ^ 30).
  rewrite (Hp (S p)) by lia. lia.
Qed.

(** ** The bit writer *)

Lemma bit_of_double (c b i : Z) :
  b = 0 \/ b = 1 -> 0 <= i -> bit_of (2 * c + b) (i + 1) = bit_of c i.
Proof.
  intros Hb Hi. unfold bit_of. f_equal.
  destruct Hb as [-> | ->].
  - change 0 with (Z.b2z false). apply Z.testbit_succ_r, Hi.
  - change 1 with (Z.b2z true). apply Z.testbit_succ_r, Hi.
Qed.

Lemma bit_of_double_0 (c b : Z) : b = 0 \/ b = 1 -> bit_of (2 * c + b) 0 = b.
Proof.
  intros [-> | ->]; unfold bit_of.
  - change 0 with (Z.b2z false) at 1. rewrite Z.testbit_0_r. reflexivity.
  - change 1 with (Z.b2z true) at 1. rewrite Z.testbit_0_r. reflexivity.
Qed.

Lemma low_bits_snoc (k : nat) (c b : Z) :
  b = 0 \/ b = 1 -> low_bits (S k) (2 * c + b) = low_bits k c ++ [b].
Proof.
  intros Hb. unfold low_bits. rewrite seq_S, map_app. cbn [map Nat.add].
  f_equal.
  - apply map_ext_in. intros j Hj. apply in_seq in Hj.
    replace (Z.of_nat (S k) - 1 - Z.of_nat j) with (Z.of_nat k - 1 - Z.of_nat j + 1) by lia.
    apply bit_of_double; [exact Hb|lia].
  - replace (Z.of_nat (S k) - 1 - Z.of_nat k) with 0 by lia.
    rewrite bit_of_double_0 by exact Hb. reflexivity.
Qed.

Lemma low_bits_shift (k j : nat) (c : Z) :
  low_bits (k + j) (c * 2 ^ Z.of_nat j) = low_bits k c ++ repeat 0 j.
Proof.
  induction j as [|j IH].
  - rewrite Nat.add_0_r, Z.mul_1_r, app_nil_r. reflexivity.
  - replace (k + S j)%nat with (S (k + j)) by lia.
    replace (c * 2 ^ Z.of_nat (S j)) with (2 * (c * 2 ^ Z.of_nat j) + 0).
    + rewrite low_bits_snoc by (left; reflexivity). rewrite IH, <- app_assoc.
      f_equal. change [0] with (repeat 0 1). rewrite <- repeat_app.
      f_equal. lia.
    + replace (Z.of_nat (S j)) with (Z.of_nat j + 1) by lia.
      rewrite Z.pow_add_r by lia. lia.
Qed.

Lemma top_bits_low_bits (z : Z) : top_bits 8 z = low_bits 8 z.
Proof. reflexivity. Qed.

Lemma bits_of_byte_to_byte (z : Z) :
  0 <= z < 256 -> bits_of_byte (to_byte z) = low_bits 8 z.
Proof.
  intros Hz. unfold bits_of_byte. rewrite byte_val_to_byte, Z.mod_small by lia.
  apply top_bits_low_bits.
Qed.

Lemma bits_of_bytes_snoc (bytes : list byte) (b : byte) :
  bits_of_bytes (bytes ++ [b]) = bits_of_bytes bytes ++ bits_of_byte b.
Proof.
  unfold bits_of_bytes. rewrite flat_map_app. cbn [flat_map].
  rewrite app_nil_r. reflexivity.
Qed.

Lemma writeBit_written (w : BitWriter.t) (b : Z) :
  wf_writer w -> b = 0 \/ b = 1 ->
  wf_writer (BitWriter.writeBit w b)
  /\ written (BitWriter.writeBit w b) = written w ++ [b].
Proof.
  intros [Hf Hc] Hb. unfold BitWriter.writeBit.
  assert (Hland : Z.land b 1 = b) by (destruct Hb as [-> | ->]; reflexivity).
  rewrite Hland, Z.shiftl_mul_pow2 by lia. change (2 ^ 1) with 2.
  rewrite (Z.mul_comm (BitWriter.current w) 2), lor_even_bit by exact Hb.
  assert (Hpow : 2 ^ (BitWriter.bits_filled w + 1) = 2 * 2 ^ BitWriter.bits_filled w).
  { rewrite Z.pow_add_r by lia. lia. }
  assert (Hle : 2 ^ (BitWriter.bits_filled w + 1) <= 2 ^ 8)
    by (apply Z.pow_le_mono_r; lia).
  assert (Hcur : 0 <= 2 * BitWriter.current w + b < 2 ^ (BitWriter.bits_filled w + 1))
    by lia.
  unfold u8. rewrite Z.mod_small by lia.
  destruct (Z.eqb_spec (BitWriter.bits_filled w + 1) 8) as [H8|H8].
  - split; [split; cbn; lia|].
    unfold written. cbn [BitWriter.bytes BitWriter.current BitWriter.bits_filled].
    rewrite bits_of_bytes_snoc, bits_of_byte_to_byte by (change 256 with (2 ^ 8); lia).
    replace (Z.to_nat (BitWriter.bits_filled w)) with 7%nat by lia.
    rewrite low_bits_snoc by exact Hb.
    change (Z.to_nat 0) with 0%nat. cbn [low_bits seq map].
    rewrite app_nil_r, app_assoc. reflexivity.
  - split; [split; cbn [BitWriter.bits_filled BitWriter.current]; lia|].
    unfold written. cbn [BitWriter.bytes BitWriter.current BitWriter.bits_filled].
    replace (Z.to_nat (BitWriter.bits_filled w + 1))
      with (S (Z.to_nat (BitWriter.bits_filled w))) by lia.
    rewrite low_bits_snoc by exact Hb. rewrite app_assoc. reflexivity.
Qed.

Lemma writeBits_written (w : BitWriter.t) (b n : Z) :
  wf_writer w -> b = 0 \/ b = 1 ->
  wf_writer (writeBits w b n)
  /\ written (writeBits w b n) = written w ++ repeat b (Z.to_nat n).
Proof.
  intros Hw Hb. unfold writeBits.
  induction (Z.to_nat n) as [|k [IHw IH]].
  - cbn [repeat]. rewrite app_nil_r. auto.
  - rewrite Nat.iter_succ. destruct (writeBit_written _ b IHw Hb) as [Hw' Hwr].
    split; [exact Hw'|]. rewrite Hwr, IH, <- app_assoc. f_equal.
    change [b] with (repeat b 1). rewrite <- repeat_app.
    replace (k + 1)%nat with (S k) by lia. reflexivity.
Qed.

Lemma emit_written (w : BitWriter.t) (b n : Z) :
  wf_writer w -> b = 0 \/ b = 1 ->
  wf_writer (writeBits (BitWriter.writeBit w b) (1 - b) n)
  /\ written (writeBits (BitWriter.writeBit w b) (1 - b) n)
     = written w ++ emit b (Z.to_nat n).
Proof.
  intros Hw Hb.
  destruct (writeBit_written w b Hw Hb) as [Hw1 Hwr1].
  destruct (writeBits_written (BitWriter.writeBit w b) (1 - b) n Hw1 ltac:(lia)) as [Hw2 Hwr2].
  split; [exact Hw2|]. rewrite Hwr2, Hwr1, <- app_assoc. reflexivity.
Qed.

Lemma writer_after_written (lo hi btf : Z) (w : BitWriter.t) :
  wf_writer w ->
  wf_writer (writer_after lo hi btf w)
  /\ written (writer_after lo hi btf w) = written w ++ emitted lo hi btf.
Proof.
  intros Hw. unfold writer_after, emitted.
  destruct (hi <? HALF); [apply (emit_written w 0 btf Hw); auto|].
  destruct (lo >=? HALF); [apply (emit_written w 1 btf Hw); auto|].
  rewrite app_nil_r. auto.
Qed.

Lemma flush_written (w : BitWriter.t) :
  wf_writer w ->
  exists pad : nat,
    bits_of_bytes (BitWriter.bytes (BitWriter.flush w)) = written w ++ repeat 0 pad.
Proof.
  intros [Hf Hc]. unfold BitWriter.flush, written.
  destruct (Z.gtb_spec (BitWriter.bits_filled w) 0) as [Hpos|Hzero].
  - set (k := BitWriter.bits_filled w) in *.
    exists (Z.to_nat (8 - k)). cbn [BitWriter.bytes].
    assert (Hpw : 2 ^ 8 = 2 ^ k * 2 ^ (8 - k)).
    { rewrite <- Z.pow_add_r by lia. f_equal. lia. }
    assert (Hp2 : 0 < 2 ^ (8 - k)) by (apply Z.pow_pos_nonneg; lia).
    rewrite Z.shiftl_mul_pow2 by lia. unfold u8.
    rewrite Z.mod_small by nia.
    rewrite bits_of_bytes_snoc, bits_of_byte_to_byte by (change 256 with (2 ^ 8); nia).
    rewrite <- app_assoc. f_equal.
    pose proof (low_bits_shift (Z.to_nat k) (Z.to_nat (8 - k)) (BitWriter.current w)) as Hs.
    replace (Z.to_nat k + Z.to_nat (8 - k))%nat with 8%nat in Hs by lia.
    replace (Z.of_nat (Z.to_nat (8 - k))) with (8 - k) in Hs by lia.
    exact Hs.
  - exists 0%nat. replace (BitWriter.bits_filled w) with 0 by lia.
    change (Z.to_nat 0) with 0%nat. cbn [low_bits seq map repeat].
    rewrite !app_nil_r. reflexivity.
Qed.

Lemma sbit_pad (W : list Z) (pad i : nat) : sbit (W ++ repeat 0 pad) i = sbit W i.
Proof.
  unfold sbit. destruct (Nat.ltb_spec i (length W)) as [Hlt|Hge].
  - apply app_nth1, Hlt.
  - rewrite app_nth2 by exact Hge. rewrite (nth_overflow W) by exact Hge.
    destruct (Nat.ltb_spec (i - length W) pad) as [H|H].
    + apply nth_repeat_lt, H.
    + apply nth_overflow. rewrite repeat_length. exact H.
Qed.

(** ** The bit reader on a stream *)

Lemma shift_in_at (rd : BitReader.t) (W : list Z) (k : nat) (v : Z) :
  reader_at rd W k -> is_bits W ->
  exists rd', shift_in v rd = ((2 * v) mod 2 ^ 32 + sbit W k, rd')
              /\ reader_at rd' W (S k).
Proof.
  intros [Hge Hat] HW. unfold shift_in.
  destruct (readBit_remaining rd Hge) as (Hfst & Hsnd & Hge').
  destruct (BitReader.readBit rd) as [bit rd']. cbn [fst snd] in *.
  assert (Hbit : bit = sbit W k).
  { rewrite Hfst. specialize (Hat 0%nat). rewrite Nat.add_0_r in Hat.
    rewrite <- Hat. destruct (remaining rd); reflexivity. }
  exists rd'. split.
  - rewrite shl_or_bit by (rewrite Hbit; apply sbit_bit, HW). rewrite Hbit. reflexivity.
  - split; [exact Hge'|]. intros i. rewrite Hsnd.
    replace (S k + i)%nat with (k + S i)%nat by lia. rewrite <- Hat.
    destruct (remaining rd); [destruct i|]; reflexivity.
Qed.

Lemma fill_value_at (n : nat) : forall (rd : BitReader.t) (W : list Z) (k : nat) (v : Z),
  reader_at rd W k -> is_bits W ->
  (n <= 32)%nat -> 0 <= v < 2 ^ (32 - Z.of_nat n) ->
  exists rd', fill_value n v rd = (v * 2 ^ Z.of_nat n + fvalue n (sbit W) k, rd')
              /\ reader_at rd' W (k + n).
Proof.
  induction n as [|n IH]; intros rd W k v Hat HW Hn Hv.
  - exists rd. cbn [fill_value fvalue]. rewrite Nat.add_0_r. split; [|exact Hat].
    f_equal. cbn. lia.
  - cbn [fill_value].
    destruct (shift_in_at rd W k v Hat HW) as (rd1 & -> & Hat1).
    assert (Hpw : 2 ^ (32 - Z.of_nat n) = 2 * 2 ^ (32 - Z.of_nat (S n))).
    { replace (32 - Z.of_nat n) with (32 - Z.of_nat (S n) + 1) by lia.
      rewrite Z.pow_add_r by lia. lia. }
    assert (Hle : 2 ^ (32 - Z.of_nat n) <= 2 ^ 32) by (apply Z.pow_le_mono_r; lia).
    rewrite Z.mod_small by lia.
    destruct (IH rd1 W (S k) (2 * v + sbit W k) Hat1 HW ltac:(lia)) as (rd' & -> & Hat').
    { destruct (sbit_bit W k HW) as [-> | ->]; lia. }
    exists rd'. split.
    + f_equal. cbn [fvalue].
      replace (Z.of_nat (S n)) with (Z.of_nat n + 1) by lia.
      rewrite Z.pow_add_r by lia. lia.
    + replace (k + S n)%nat with (S k + n)%nat by lia. exact Hat'.
Qed.

(** ** Encoder and decoder in lock step *)

Lemma scale_none_range (lo hi : Z) :
  0 <= lo <= hi -> scale lo hi = None -> 2 ^ 30 + 2 <= hi - lo + 1.
Proof.
  intros Hlo Hsc.
  destruct (scale_cases lo hi) as [(_ & H)|[(_ & _ & H)|[(_ & _ & H)|(H1 & H2 & H3 & _)]]];
    try congruence.
  unfold_consts. lia.
Qed.

Lemma reader_at_emit (rd : BitReader.t) (b : Z) (p : nat) (W : list Z) (k : nat) :
  reader_at rd (emit b p ++ W) (S p + k) -> reader_at rd W k.
Proof.
  intros [Hge Hat]. split; [exact Hge|].
  intros i. rewrite Hat. rewrite <- Nat.add_assoc. apply sbit_emit_rest.
Qed.

(** One pass through the loop bodies.  If the stream [W'] that the encoder
    goes on to write fits the interval after the pass, then the stream
    from before the pass fits the interval before it, and the decoder's
    update of [value] leads from the one window to the other. *)
Lemma step_sim (lo hi lo' hi' btf : Z) :
  0 <= lo <= hi -> hi < 2 ^ 32 -> 0 <= btf -> btf + 1 < 2 ^ 32 ->
  scale lo hi = Some (lo', hi') ->
  let btf' := follow_after lo hi btf in
  let p := Z.to_nat btf in
  let p' := Z.to_nat btf' in
  0 <= lo' <= hi' /\ hi' < 2 ^ 32 /\ 0 <= btf' <= btf + 1
  /\ is_bits (emitted lo hi btf)
  /\ forall W' : list Z,
       is_bits W' -> pending_ok p' W' -> lo' <= window p' W' <= hi' ->
       let W := emitted lo hi btf ++ W' in
       pending_ok p W
       /\ lo <= window p W <= hi
       /\ (2 * u32 (window p W - offset_of lo hi)) mod 2 ^ 32 + sbit W (p + 32)
          = window p' W'
       /\ forall rd, reader_at rd W (S (p + 32)) -> reader_at rd W' (p' + 32).
Proof.
  intros Hlo Hhi Hbtf Hbtf1 Hsc. cbv zeta.
  unfold follow_after, emitted, offset_of.
  set (p := Z.to_nat btf).
  destruct (scale_cases lo hi)
    as [(H1 & Hs)|[(H1 & H2 & Hs)|[(H1 & H2 & Hs)|(_ & _ & _ & Hs)]]];
    rewrite Hs in Hsc; try discriminate;
    apply some_pair_inj in Hsc; destruct Hsc as [<- <-].
  - (* E1 *)
    destruct (Z.ltb_spec hi HALF) as [_|]; [|lia].
    unfold_consts. rewrite (Z.mod_small (2 * lo)) by lia.
    split; [lia|]. split; [lia|]. split; [lia|].
    split; [apply emit_bits; auto|].
    intros W' HW' _ Hwin. change (Z.to_nat 0) with 0%nat in *.
    pose proof (window_emit 0 p W') as Hw.
    assert (HW : is_bits (emit 0 p ++ W')) by (apply is_bits_app; [apply emit_bits; auto|exact HW']).
    pose proof (sbit_bit _ (p + 32) HW) as Hb.
    pose proof (window_bound p _ HW) as Hwb.
    split; [apply pending_emit|]. split; [lia|]. split.
    + rewrite Z.sub_0_r, u32_small by lia. rewrite Z.mod_small by lia. lia.
    + intros rd Hrd. apply (reader_at_emit rd 0 p W' 32).
      replace (S p + 32)%nat with (S (p + 32)) by lia. exact Hrd.
  - (* E2 *)
    destruct (Z.ltb_spec hi HALF) as [|_]; [lia|].
    destruct (Z.geb_spec lo HALF) as [_|]; [|lia].
    unfold_consts.
    split; [lia|]. split; [lia|]. split; [lia|].
    split; [apply emit_bits; auto|].
    intros W' HW' _ Hwin. change (Z.to_nat 0) with 0%nat in *.
    pose proof (window_emit 1 p W') as Hw.
    assert (HW : is_bits (emit 1 p ++ W')) by (apply is_bits_app; [apply emit_bits; auto|exact HW']).
    pose proof (sbit_bit _ (p + 32) HW) as Hb.
    pose proof (window_bound p _ HW) as Hwb.
    split; [apply pending_emit|]. split; [lia|]. split.
    + rewrite u32_small by lia. rewrite Z.mod_small by lia. lia.
    + intros rd Hrd. apply (reader_at_emit rd 1 p W' 32).
      replace (S p + 32)%nat with (S (p + 32)) by lia. exact Hrd.
  - (* E3 *)
    destruct (Z.ltb_spec hi HALF) as [|_]; [unfold_consts; lia|].
    destruct (Z.geb_spec lo HALF) as [|_]; [unfold_consts; lia|].
    rewrite (u32_small (btf + 1)) by lia.
    replace (Z.to_nat (btf + 1)) with (S p) by (unfold p; lia).
    unfold_consts.
    split; [lia|]. split; [lia|]. split; [lia|].
    split; [constructor|].
    intros W' HW' Hpend Hwin. cbn [app].
    pose proof (window_follow p W' Hpend) as Hw.
    pose proof (sbit_bit _ (p + 32) HW') as Hb.
    pose proof (window_bound p _ HW') as Hwb.
    split; [apply pending_less, Hpend|]. split; [lia|]. split.
    + rewrite u32_small by lia. rewrite Z.mod_small by lia. lia.
    + intros rd Hrd. exact Hrd.
Qed.

(** The renormalization loops in lock step. *)
Lemma renorm_sim (fuel : nat) : forall (lo hi btf : Z) (w : BitWriter.t) (st1 : EncState),
  0 <= lo <= hi -> hi < 2 ^ 32 -> 0 <= btf -> btf + Z.of_nat fuel <= 2 ^ 32 ->
  wf_writer w ->
  encode_renorm fuel lo hi btf w = Ok st1 ->
  0 <= enc_low st1 <= enc_high st1 /\ enc_high st1 < 2 ^ 32
  /\ scale (enc_low st1) (enc_high st1) = None
  /\ 0 <= bits_to_follow st1 /\ bits_to_follow st1 + 1 <= btf + Z.of_nat fuel
  /\ wf_writer (writer st1)
  /\ exists E : list Z,
       written (writer st1) = written w ++ E /\ is_bits E
       /\ forall W1 : list Z,
            is_bits W1 ->
            pending_ok (Z.to_nat (bits_to_follow st1)) W1 ->
            enc_low st1 <= window (Z.to_nat (bits_to_follow st1)) W1 <= enc_high st1 ->
            pending_ok (Z.to_nat btf) (E ++ W1)
            /\ lo <= window (Z.to_nat btf) (E ++ W1) <= hi
            /\ forall rd : BitReader.t,
                 reader_at rd (E ++ W1) (Z.to_nat btf + 32) ->
                 exists rd1,
                   decode_renorm fuel lo hi (window (Z.to_nat btf) (E ++ W1)) rd
                   = Ok (mkDec (enc_low st1) (enc_high st1)
                           (window (Z.to_nat (bits_to_follow st1)) W1) rd1)
                   /\ reader_at rd1 W1 (Z.to_nat (bits_to_follow st1) + 32).
Proof.
  induction fuel as [|fuel IH]; intros lo hi btf w st1 Hlo Hhi Hbtf Hfuel Hw; [discriminate|].
  rewrite encode_renorm_S by lia.
  destruct (scale lo hi) as [[lo' hi']|] eqn:Hsc.
  - destruct fuel as [|fuel']; [discriminate|].
    intros Henc.
    destruct (step_sim lo hi lo' hi' btf Hlo Hhi Hbtf ltac:(lia) Hsc)
      as (Hlo' & Hhi' & Hbtf' & HE0 & Hstep).
    destruct (writer_after_written lo hi btf w Hw) as [Hw' Hwr'].
    destruct (IH lo' hi' (follow_after lo hi btf) (writer_after lo hi btf w) st1
                Hlo' Hhi' ltac:(lia) ltac:(lia) Hw' Henc)
      as (H1 & H2 & H3 & H4 & H5 & H6 & E' & HE' & HbE' & Hfut).
    split; [exact H1|]. split; [exact H2|]. split; [exact H3|].
    split; [exact H4|]. split; [lia|]. split; [exact H6|].
    exists (emitted lo hi btf ++ E').
    split; [rewrite HE', Hwr', app_assoc; reflexivity|].
    split; [apply is_bits_app; assumption|].
    intros W1 HW1 Hp1 Hwin1.
    destruct (Hfut W1 HW1 Hp1 Hwin1) as (Hp' & Hwin' & Hdec').
    rewrite <- app_assoc.
    destruct (Hstep (E' ++ W1) (is_bits_app _ _ HbE' HW1) Hp' Hwin')
      as (Hp & Hwin & Hval & Hrd).
    split; [exact Hp|]. split; [exact Hwin|].
    intros rd Hat. rewrite decode_renorm_S by lia. rewrite Hsc.
    destruct (shift_in_at rd _ _ (u32 (window (Z.to_nat btf) (emitted lo hi btf ++ E' ++ W1)
                                       - offset_of lo hi)) Hat
                (is_bits_app _ _ HE0 (is_bits_app _ _ HbE' HW1)))
      as (rd' & -> & Hat').
    rewrite Hval. apply Hdec', Hrd, Hat'.
  - intros [= <-]. cbn [enc_low enc_high bits_to_follow writer].
    split; [lia|]. split; [lia|]. split; [exact Hsc|].
    split; [lia|]. split; [lia|]. split; [exact Hw|].
    exists []. split; [rewrite app_nil_r; reflexivity|]. split; [constructor|].
    intros W1 HW1 Hp1 Hwin1. cbn [app].
    split; [exact Hp1|]. split; [exact Hwin1|].
    intros rd Hat. rewrite decode_renorm_S by lia. rewrite Hsc.
    exists rd. split; [reflexivity|exact Hat].
Qed.

Lemma fvalue_zero (n : nat) : forall (f : nat -> Z) (s : nat),
  (forall j, (j < n)%nat -> f (s + j)%nat = 0) -> fvalue n f s = 0.
Proof.
  induction n as [|n IH]; intros f s H; [reflexivity|].
  cbn [fvalue]. rewrite IH.
  - specialize (H 0%nat ltac:(lia)). rewrite Nat.add_0_r in H. rewrite H. lia.
  - intros j Hj. specialize (H (S j) ltac:(lia)).
    rewrite Nat.add_succ_r in H. exact H.
Qed.

(** The window on the termination bits: the deciding bit, one opposite
    bit, zeros. *)
Lemma window_tail (b : Z) (p : nat) :
  window p (emit b (S p)) = 2 ^ 31 * b + 2 ^ 30 * (1 - b).
Proof.
  unfold window.
  change (fvalue 31 (sbit (emit b (S p))) (S p))
    with (2 ^ Z.of_nat 30 * sbit (emit b (S p)) (S p)
          + fvalue 30 (sbit (emit b (S p))) (S (S p))).
  rewrite fvalue_zero.
  - rewrite <- (app_nil_r (emit b (S p))).
    rewrite sbit_emit_0, sbit_emit_follow by lia. change (2 ^ Z.of_nat 30) with (2 ^ 30). lia.
  - intros j _. unfold sbit. apply nth_overflow. rewrite emit_length. lia.
Qed.

Section Lockstep.

Variable self : Encoder.

Hypothesis Hpart : partitions 0 (symbols self) (total_count self).
Hypothesis Hdistinct : distinct_values (symbols self).
Hypothesis Hpos : Forall (fun s => 0 < count s) (symbols self).
Hypothesis Htotal : 0 < total_count self <= 2 ^ 30.

Lemma entry_bounds (it : Symbol) :
  In it (symbols self) -> 0 <= low it < high it /\ high it <= total_count self.
Proof.
  intros Hin. destruct (partitions_In _ _ _ it Hpart Hin) as (H1 & H2 & H3 & H4).
  rewrite Forall_forall in Hpos. specialize (Hpos it Hin). lia.
Qed.

(** The termination bits fit the interval the loop ends with. *)
Lemma tail_sim (lo hi btf : Z) (w : BitWriter.t) :
  0 <= lo <= hi -> hi < 2 ^ 32 -> scale lo hi = None ->
  0 <= btf -> btf + 1 < 2 ^ 32 -> wf_writer w ->
  wf_writer (encode_tail (mkEnc lo hi btf w))
  /\ exists W : list Z,
       written (encode_tail (mkEnc lo hi btf w)) = written w ++ W
       /\ is_bits W
       /\ pending_ok (Z.to_nat btf) W
       /\ lo <= window (Z.to_nat btf) W <= hi.
Proof.
  intros Hlo Hhi Hsc Hbtf Hbtf1 Hw.
  unfold encode_tail. cbn [enc_low bits_to_follow writer].
  rewrite u32_small by lia.
  destruct (scale_cases lo hi) as [(_ & H)|[(_ & _ & H)|[(_ & _ & H)|(H1 & H2 & H3 & _)]]];
    try congruence.
  replace (Z.to_nat (btf + 1)) with (S (Z.to_nat btf)) in * by lia.
  destruct (Z.ltb_spec lo FIRST_QTR) as [Hq|Hq].
  - destruct (emit_written w 0 (btf + 1) Hw ltac:(auto)) as [Hw' Hwr].
    split; [exact Hw'|]. exists (emit 0 (Z.to_nat (btf + 1))).
    split; [exact Hwr|].
    replace (Z.to_nat (btf + 1)) with (S (Z.to_nat btf)) by lia.
    split; [apply emit_bits; auto|]. split.
    + intros i Hi. rewrite <- (app_nil_r (emit 0 _)).
      rewrite sbit_emit_0. apply sbit_emit_follow. lia.
    + rewrite window_tail. unfold_consts. lia.
  - destruct (emit_written w 1 (btf + 1) Hw ltac:(auto)) as [Hw' Hwr].
    split; [exact Hw'|]. exists (emit 1 (Z.to_nat (btf + 1))).
    split; [exact Hwr|].
    replace (Z.to_nat (btf + 1)) with (S (Z.to_nat btf)) by lia.
    split; [apply emit_bits; auto|]. split.
    + intros i Hi. rewrite <- (app_nil_r (emit 1 _)).
      rewrite sbit_emit_0. apply sbit_emit_follow. lia.
    + rewrite window_tail. unfold_consts. lia.
Qed.

(** The decoder recovers the byte the encoder coded when [value] lies in
    the interval narrowed to that byte's entry. *)
Lemma decode_step_entry (lo hi v : Z) (rd : BitReader.t) (it : Symbol) (lo' hi' : Z) :
  0 <= lo <= hi -> hi < 2 ^ 32 -> total_count self <= hi - lo + 1 ->
  In it (symbols self) ->
  encode_narrow lo hi it (total_count self) = (lo', hi') ->
  lo' <= v <= hi' ->
  decode_step self (mkDec lo hi v rd)
  = (value it, decode_renorm renorm_fuel lo' hi' v rd).
Proof.
  intros Hlo Hhi Hrange Hin Hnar Hv.
  destruct (entry_bounds it Hin) as [Hit Hhigh].
  destruct (encode_narrow_spec lo hi it (total_count self) Hlo Hhi Hit Hhigh Hrange
              ltac:(lia)) as (Hnarrow & Hn1 & Hn2 & Hn3).
  rewrite Hnar in Hnarrow. apply pair_equal_spec in Hnarrow. destruct Hnarrow as [Hl Hh].
  unfold decode_step.
  rewrite decode_cum_spec by (cbn [dec_low dec_high dec_value]; lia).
  assert (Hcum : low it
                 <= ((dec_value (mkDec lo hi v rd) - dec_low (mkDec lo hi v rd) + 1)
                     * total_count self - 1)
                    / (dec_high (mkDec lo hi v rd) - dec_low (mkDec lo hi v rd) + 1)
                 < high it).
  { cbn [dec_low dec_high dec_value].
    apply (cum_in_entry lo hi v (low it) (high it) (total_count self)); lia. }
  rewrite (decodeSymbol_In _ _ _ _ it Hpart Hin Hcum).
  rewrite (find_symbol_In _ it Hdistinct Hin).
  destruct (Z.eqb_spec (total_count self) 0) as [|_]; [lia|].
  cbn [dec_low dec_high dec_value reader].
  replace (decode_narrow lo hi it (total_count self)) with (lo', hi')
    by (rewrite <- Hnar; reflexivity).
  reflexivity.
Qed.

(** The two loops in lock step: the bits the encoder writes from a
    state on drive the decoder from the same interval through the
    same bytes. *)
Lemma loop_sim (rest : list byte) : forall (lo hi btf : Z) (w : BitWriter.t) (st : EncState),
  0 <= lo <= hi -> hi < 2 ^ 32 -> scale lo hi = None ->
  0 <= btf -> btf + 32 * Z.of_nat (length rest) + 1 < 2 ^ 32 ->
  wf_writer w ->
  (forall b, In b rest -> In b (map value (symbols self))) ->
  encode_loop self (mkEnc lo hi btf w) rest = Ok st ->
  wf_writer (encode_tail st)
  /\ exists W : list Z,
       written (encode_tail st) = written w ++ W
       /\ is_bits W
       /\ pending_ok (Z.to_nat btf) W
       /\ lo <= window (Z.to_nat btf) W <= hi
       /\ forall (rd : BitReader.t) (output : list byte),
            reader_at rd W (Z.to_nat btf + 32) ->
            decode_loop self (length rest)
              (mkDec lo hi (window (Z.to_nat btf) W) rd) output
            = Ok (output ++ rest).
Proof.
  induction rest as [|b rest IH]; intros lo hi btf w st Hlo Hhi Hsc Hbtf Hbudget Hw Hin.
  - cbn [encode_loop]. intros [= <-].
    destruct (tail_sim lo hi btf w Hlo Hhi Hsc Hbtf ltac:(cbn [length] in Hbudget; lia) Hw)
      as (Hw' & W & Hwr & HW & Hp & Hwin).
    split; [exact Hw'|]. exists W. repeat (split; [assumption|]).
    intros rd output _. cbn [length decode_loop]. rewrite app_nil_r. reflexivity.
  - cbn [encode_loop length]. cbn [length] in Hbudget.
    destruct (find_symbol_present _ b (Hin b (or_introl eq_refl))) as [it Hfind].
    destruct (find_symbol_some _ _ _ Hfind) as [Hit Hval].
    destruct (entry_bounds it Hit) as [Hitb Hhigh].
    pose proof (scale_none_range lo hi Hlo Hsc) as Hrange.
    destruct (encode_narrow_spec lo hi it (total_count self) Hlo Hhi Hitb Hhigh
                ltac:(lia) ltac:(lia)) as (Hnarrow & Hn1 & Hn2 & Hn3).
    unfold encode_byte at 1. cbn [enc_low enc_high bits_to_follow writer].
    rewrite Hfind.
    destruct (Z.eqb_spec (total_count self) 0) as [|_]; [lia|].
    rewrite Hnarrow.
    set (lo' := lo + (hi - lo + 1) * low it / total_count self) in *.
    set (hi' := lo + (hi - lo + 1) * high it / total_count self - 1) in *.
    destruct (encode_renorm renorm_fuel lo' hi' btf w) as [[lo1 hi1 btf1 w1]|e] eqn:Hren;
      [|discriminate].
    cbn [bind]. intros Hloop.
    destruct (renorm_sim renorm_fuel lo' hi' btf w _ ltac:(lia) ltac:(lia) Hbtf
                ltac:(unfold renorm_fuel; lia) Hw Hren)
      as (H1 & H2 & H3 & H4 & H5 & H6 & E & HE & HbE & Hfut).
    cbn [enc_low enc_high bits_to_follow writer] in H1, H2, H3, H4, H5, H6, HE, Hfut.
    unfold renorm_fuel in H5.
    destruct (IH lo1 hi1 btf1 w1 st H1 H2 H3 H4 ltac:(lia) H6
                (fun x Hx => Hin x (or_intror Hx)) Hloop)
      as (Hwt & W1 & HW1wr & HW1 & Hp1 & Hwin1 & Hdec1).
    split; [exact Hwt|]. exists (E ++ W1).
    split; [rewrite HW1wr, HE, app_assoc; reflexivity|].
    split; [apply is_bits_app; assumption|].
    destruct (Hfut W1 HW1 Hp1 Hwin1) as (Hp & Hwin & Hdec).
    split; [exact Hp|]. split; [lia|].
    intros rd output Hat. cbn [decode_loop].
    rewrite (decode_step_entry lo hi _ rd it lo' hi' Hlo Hhi ltac:(lia) Hit Hnarrow Hwin).
    destruct (Hdec rd Hat) as (rd1 & -> & Hat1). cbn [bind].
    rewrite (Hdec1 rd1 (output ++ [value it]) Hat1).
    rewrite <- app_assoc, Hval. reflexivity.
Qed.

End Lockstep.

(** ** [low <= high] at every point *)

Lemma renorm_trace_S (fuel : nat) (lo hi : Z) :
  0 <= lo < 2 ^ 32 -> 0 <= hi < 2 ^ 32 ->
  renorm_trace (S fuel) lo hi
  = match scale lo hi with
    | None => []
    | Some (lo', hi') => (lo', hi') :: renorm_trace fuel lo' hi'
    end.
Proof.
  intros Hl Hh. cbn [renorm_trace]. unfold scale.
  destruct (Z.ltb_spec hi HALF) as [H1|H1].
  - destruct (scale_E1 lo hi ltac:(lia)) as [-> ->]. reflexivity.
  - destruct (Z.geb_spec lo HALF) as [H2|H2].
    + destruct (scale_E2 lo hi ltac:(lia) ltac:(lia)) as [-> ->]. reflexivity.
    + destruct (Z.geb_spec lo FIRST_QTR) as [H3|H3];
        destruct (Z.ltb_spec hi THIRD_QTR) as [H4|H4]; cbn [andb]; try reflexivity.
      destruct (scale_E3 lo hi ltac:(lia) ltac:(lia)) as [-> ->]. reflexivity.
Qed.

Lemma scale_ordered (lo hi lo' hi' : Z) :
  0 <= lo <= hi -> hi < 2 ^ 32 -> scale lo hi = Some (lo', hi') ->
  0 <= lo' <= hi' /\ hi' < 2 ^ 32.
Proof.
  intros Hlo Hhi Hsc.
  destruct (scale_cases lo hi)
    as [(H1 & Hs)|[(H1 & H2 & Hs)|[(H1 & H2 & Hs)|(_ & _ & _ & Hs)]]];
    rewrite Hs in Hsc; try discriminate;
    apply some_pair_inj in Hsc; destruct Hsc as [<- <-]; unfold_consts.
  - rewrite Z.mod_small by lia. lia.
  - lia.
  - lia.
Qed.

Lemma last_cons {A} (l : list A) : forall a d : A, last (a :: l) d = last l a.
Proof.
  induction l as [|x l IH]; intros a d; [reflexivity|].
  change (last (a :: x :: l) d) with (last (x :: l) d).
  rewrite !IH. reflexivity.
Qed.

(** The trace lists the states the loops pass through: it ends in the state
    the encoder's loop returns, and in the one the decoder's loop returns. *)
Lemma renorm_trace_encode (fuel : nat) : forall (lo hi btf : Z) (w : BitWriter.t) (st : EncState),
  0 <= lo < 2 ^ 32 -> 0 <= hi < 2 ^ 32 ->
  encode_renorm fuel lo hi btf w = Ok st ->
  last (renorm_trace fuel lo hi) (lo, hi) = (enc_low st, enc_high st).
Proof.
  induction fuel as [|fuel IH]; intros lo hi btf w st Hl Hh; [discriminate|].
  rewrite encode_renorm_S, renorm_trace_S by assumption.
  destruct (scale lo hi) as [[lo' hi']|] eqn:Hsc.
  - destruct (scale_range lo hi lo' hi' Hl Hh Hsc) as [Hl' Hh'].
    intros Henc. rewrite <- (IH lo' hi' _ _ st Hl' Hh' Henc).
    apply last_cons.
  - intros [= <-]. reflexivity.
Qed.

Lemma renorm_trace_decode (fuel : nat) : forall (lo hi v : Z) (rd : BitReader.t) (st : DecState),
  0 <= lo < 2 ^ 32 -> 0 <= hi < 2 ^ 32 ->
  decode_renorm fuel lo hi v rd = Ok st ->
  last (renorm_trace fuel lo hi) (lo, hi) = (dec_low st, dec_high st).
Proof.
  induction fuel as [|fuel IH]; intros lo hi v rd st Hl Hh; [discriminate|].
  rewrite decode_renorm_S, renorm_trace_S by assumption.
  destruct (scale lo hi) as [[lo' hi']|] eqn:Hsc.
  - destruct (scale_range lo hi lo' hi' Hl Hh Hsc) as [Hl' Hh'].
    destruct (shift_in _ rd) as [v' rd'].
    intros Hdec. rewrite <- (IH lo' hi' _ _ st Hl' Hh' Hdec).
    apply last_cons.
  - intros [= <-]. reflexivity.
Qed.


Lemma encode_renorm_ordered (fuel : nat) : forall (lo hi btf : Z) (w : BitWriter.t) (st : EncState),
  0 <= lo <= hi -> hi < 2 ^ 32 ->
  encode_renorm fuel lo hi btf w = Ok st ->
  0 <= enc_low st <= enc_high st /\ enc_high st < 2 ^ 32
  /\ scale (enc_low st) (enc_high st) = None.
Proof.
  induction fuel as [|fuel IH]; intros lo hi btf w st Hlo Hhi; [discriminate|].
  rewrite encode_renorm_S by lia.
  destruct (scale lo hi) as [[lo' hi']|] eqn:Hsc.
  - destruct (scale_ordered lo hi lo' hi' Hlo Hhi Hsc) as [Hlo' Hhi'].
    apply IH; assumption.
  - intros [= <-]. cbn [enc_low enc_high]. auto.
Qed.

Lemma readBit_bit (rd : BitReader.t) :
  fst (BitReader.readBit rd) = 0 \/ fst (BitReader.readBit rd) = 1.
Proof.
  unfold BitReader.readBit, BitReader.shift_out.
  destruct (BitReader.bits_left rd =? 0);
    [destruct (nth_error _ _); [|left; reflexivity]|];
    cbn [fst]; rewrite shift_out_bit; apply bit_of_01.
Qed.

Lemma shift_in_value (v : Z) (rd : BitReader.t) :
  exists bit, (bit = 0 \/ bit = 1)
              /\ fst (shift_in v rd) = (2 * v) mod 2 ^ 32 + bit.
Proof.
  unfold shift_in. pose proof (readBit_bit rd) as Hb.
  destruct (BitReader.readBit rd) as [bit rd']. cbn [fst] in *.
  exists bit. split; [exact Hb|]. apply shl_or_bit, Hb.
Qed.

(** The decoder's loop keeps [value] inside the interval. *)
Lemma decode_renorm_valid (fuel : nat) : forall (lo hi v : Z) (rd : BitReader.t) (st : DecState),
  0 <= lo <= v -> v <= hi -> hi < 2 ^ 32 ->
  decode_renorm fuel lo hi v rd = Ok st ->
  0 <= dec_low st <= dec_value st /\ dec_value st <= dec_high st
  /\ dec_high st < 2 ^ 32
  /\ scale (dec_low st) (dec_high st) = None.
Proof.
  induction fuel as [|fuel IH]; intros lo hi v rd st Hlo Hv Hhi; [discriminate|].
  rewrite decode_renorm_S by lia.
  destruct (scale lo hi) as [[lo' hi']|] eqn:Hsc.
  - destruct (shift_in_value (u32 (v - offset_of lo hi)) rd) as (bit & Hbit & Hval).
    destruct (shift_in _ rd) as [v' rd']. cbn [fst] in Hval. subst v'.
    apply IH; clear IH; unfold offset_of;
      destruct (scale_cases lo hi)
        as [(H1 & Hs)|[(H1 & H2 & Hs)|[(H1 & H2 & Hs)|(_ & _ & _ & Hs)]]];
      rewrite Hs in Hsc; try discriminate;
      apply some_pair_inj in Hsc; destruct Hsc as [<- <-];
      unfold_consts;
      repeat match goal with
             | |- context [?a <? ?b] => destruct (Z.ltb_spec a b); try lia
             | |- context [?a >=? ?b] => destruct (Z.geb_spec a b); try lia
             end;
      rewrite ?Z.sub_0_r; rewrite ?(u32_small (v - _)) by lia;
      rewrite ?(u32_small v) by lia;
      rewrite ?Z.mod_small by lia; lia.
  - intros [= <-]. cbn [dec_low dec_high dec_value]. auto.
Qed.

Lemma fill_value_range (n : nat) : forall (v : Z) (rd : BitReader.t),
  0 <= v < 2 ^ 32 -> 0 <= fst (fill_value n v rd) < 2 ^ 32.
Proof.
  induction n as [|n IH]; intros v rd Hv; [exact Hv|].
  cbn [fill_value].
  destruct (shift_in_value v rd) as (bit & Hbit & Hval).
  destruct (shift_in v rd) as [v' rd']. cbn [fst] in Hval. subst v'.
  apply IH.
  pose proof (Z.mod_pos_bound (2 * v) (2 ^ 32) ltac:(lia)) as Hm.
  assert (Heven : ((2 * v) mod 2 ^ 32) mod 2 = 0).
  { change (2 ^ 32) with (2 * 2 ^ 31). rewrite Z.mul_mod_distr_l by lia.
    rewrite Z.mul_comm. apply Z.mod_mul. lia. }
  assert (Hmax : (2 ^ 32 - 1) mod 2 = 1) by reflexivity.
  destruct Hbit as [-> | ->]; [lia|].
  assert ((2 * v) mod 2 ^ 32 <> 2 ^ 32 - 1) by (intros E; rewrite E in Heven; lia).
  lia.
Qed.

Section Ordered.

Variable self : Encoder.

Hypothesis Hpart : partitions 0 (symbols self) (total_count self).
Hypothesis Hdistinct : distinct_values (symbols self).
Hypothesis Htotal : 0 < total_count self <= 2 ^ 30.




End Ordered.




(** ** Round trip *)

Lemma push_counts_frequencies (freq : list (byte * Z)) : forall cumulative : Z,
  Forall (fun kc => 0 <= snd kc < 2 ^ 64) freq ->
  fst (push_counts cumulative freq) = push_frequencies cumulative freq.
Proof.
  induction freq as [|[k c] rest IH]; intros cumulative Hall; [reflexivity|].
  inversion Hall as [|? ? Hc Hrest]; subst. cbn [snd] in Hc.
  cbn [push_counts push_frequencies]. rewrite (u64_small c) by lia.
  specialize (IH (u64 (cumulative + c)) Hrest).
  destruct (push_counts (u64 (cumulative + c)) rest) as [syms total].
  cbn [fst] in *. rewrite IH. reflexivity.
Qed.

Lemma length_le_sum_freq (freq : list (byte * Z)) :
  Forall (fun kc => 0 < snd kc) freq -> Z.of_nat (length freq) <= sum_freq freq.
Proof.
  induction 1 as [|kc rest Hc _ IH]; unfold sum_freq in *; cbn [fold_right length]; lia.
Qed.

Lemma positive_in_range (freq : list (byte * Z)) :
  Forall (fun kc => 0 < snd kc) freq -> sum_freq freq < 2 ^ 64 ->
  Forall (fun kc => 0 <= snd kc < 2 ^ 64) freq.
Proof.
  induction 1 as [|kc rest Hc Hrest IH]; intros Hsum; constructor.
  - pose proof (sum_freq_nonneg rest Hrest).
    unfold sum_freq in *; cbn [fold_right] in Hsum. lia.
  - apply IH. pose proof (sum_freq_nonneg rest Hrest).
    unfold sum_freq in *; cbn [fold_right] in Hsum. lia.
Qed.

(** The table rebuilt from the counts of a model built from data is that
    model. *)
Lemma rebuild_model (self other : Encoder) (data : list byte) :
  Z.of_nat (length data) < 2 ^ 64 ->
  buildSymbolsFromCounts other
    (map (fun s => (value s, count s)) (symbols (buildFrequencyTable self data)))
  = buildFrequencyTable self data.
Proof.
  intros Hlen.
  destruct (buildFrequencyTable_spec self data Hlen) as (_ & _ & _ & Htot & Hmap).
  cbn zeta in Htot, Hmap. rewrite Hmap.
  destruct (tally_spec data) as (_ & Hp & Hsum).
  pose proof (positive_in_range _ Hp ltac:(lia)) as Hrange.
  assert (Hnn : Forall (fun kc => 0 <= snd kc) (tally data)).
  { eapply Forall_impl; [|exact Hp]. cbn. intros; lia. }
  pose proof (push_counts_spec (tally data) 0 ltac:(lia) Hnn ltac:(lia)) as Hspec.
  pose proof (push_counts_frequencies (tally data) 0 Hrange) as Hfst.
  unfold buildSymbolsFromCounts.
  destruct (push_counts 0 (tally data)) as [syms total]. cbn [fst] in Hfst.
  destruct Hspec as (Htotal & _). subst syms.
  unfold buildFrequencyTable in *. cbn [total_count] in Htot.
  rewrite Htot, Htotal, Hsum. reflexivity.
Qed.

Lemma table_counts_in_range (self : Encoder) (data : list byte) :
  Z.of_nat (length data) < 2 ^ 64 ->
  Forall (fun s => 0 <= count s < 2 ^ 64) (symbols (buildFrequencyTable self data))
  /\ Z.of_nat (length (symbols (buildFrequencyTable self data))) <= Z.of_nat (length data).
Proof.
  intros Hlen.
  destruct (buildFrequencyTable_spec self data Hlen) as (_ & _ & _ & _ & Hmap).
  cbn zeta in Hmap.
  destruct (tally_spec data) as (_ & Hp & Hsum).
  pose proof (positive_in_range _ Hp ltac:(lia)) as Hrange.
  pose proof (length_le_sum_freq _ Hp) as Hle. rewrite Hsum in Hle.
  rewrite <- Hmap in Hrange, Hle. rewrite length_map in Hle.
  split; [|lia].
  rewrite Forall_map in Hrange. exact Hrange.
Qed.





(** ** Inputs beyond the coder's headroom *)




Section Large.

Variables n1 n2 n3 : nat.
Hypothesis Hn1 : Z.of_nat n1 = 536870912.
Hypothesis Hn2 : Z.of_nat n2 = 536870916.
Hypothesis Hn3 : Z.of_nat n3 = 1073741830.



End Large.




(** * Further properties *)

(** ** The bit adapter, writer and reader together *)

Lemma low_bits_length (k : nat) (z : Z) : length (low_bits k z) = k.
Proof. unfold low_bits. rewrite length_map, length_seq. reflexivity. Qed.

Lemma written_length (w : BitWriter.t) :
  length (written w)
  = (8 * length (BitWriter.bytes w) + Z.to_nat (BitWriter.bits_filled w))%nat.
Proof.
  unfold written. rewrite length_app, bits_of_bytes_length, low_bits_length. reflexivity.
Qed.

Lemma land_1_bit (b : Z) : Z.land b 1 = 0 \/ Z.land b 1 = 1.
Proof.
  assert (H : Z.land b 1 = b mod 2).
  { change 1 with (Z.ones 1). rewrite Z.land_ones by lia. reflexivity. }
  rewrite H. pose proof (Z.mod_pos_bound b 2 ltac:(lia)). lia.
Qed.

Lemma writeBit_masks (w : BitWriter.t) (b : Z) :
  BitWriter.writeBit w b = BitWriter.writeBit w (Z.land b 1).
Proof.
  unfold BitWriter.writeBit. rewrite <- Z.land_assoc. rewrite Z.land_diag. reflexivity.
Qed.

(** What a writer holds after a sequence of [writeBit]: the bits given,
    each reduced to its lowest bit, after those it held. *)
Lemma write_all_written (bits : list Z) : forall w : BitWriter.t,
  wf_writer w ->
  wf_writer (write_all w bits)
  /\ written (write_all w bits) = written w ++ map (fun b => Z.land b 1) bits.
Proof.
  induction bits as [|b bits IH]; intros w Hw; cbn [write_all fold_left map].
  - rewrite app_nil_r. auto.
  - rewrite writeBit_masks.
    destruct (writeBit_written w (Z.land b 1) Hw (land_1_bit b)) as [Hw1 Hwr1].
    destruct (IH _ Hw1) as [Hw2 Hwr2]. split; [exact Hw2|].
    unfold write_all in Hwr2. rewrite Hwr2, Hwr1, <- app_assoc. reflexivity.
Qed.

Lemma wf_writer_empty : wf_writer BitWriter.empty.
Proof. split; cbn; lia. Qed.

(** [flush] with the padding counted. *)
Lemma flush_pads (w : BitWriter.t) :
  wf_writer w ->
  bits_of_bytes (BitWriter.bytes (BitWriter.flush w))
  = written w ++ repeat 0 (Z.to_nat ((8 - BitWriter.bits_filled w) mod 8))
  /\ BitWriter.bits_filled (BitWriter.flush w) = 0
  /\ BitWriter.current (BitWriter.flush w) = 0
  /\ length (BitWriter.bytes (BitWriter.flush w))
     = (length (BitWriter.bytes w)
        + if BitWriter.bits_filled w >? 0 then 1 else 0)%nat.
Proof.
  intros [Hf Hc]. unfold BitWriter.flush, written.
  destruct (Z.gtb_spec (BitWriter.bits_filled w) 0) as [Hpos|Hzero].
  - set (k := BitWriter.bits_filled w) in *.
    cbn [BitWriter.bytes BitWriter.bits_filled BitWriter.current].
    assert (Hpw : 2 ^ 8 = 2 ^ k * 2 ^ (8 - k)).
    { rewrite <- Z.pow_add_r by lia. f_equal. lia. }
    assert (Hp2 : 0 < 2 ^ (8 - k)) by (apply Z.pow_pos_nonneg; lia).
    rewrite (Z.mod_small (8 - k)) by lia.
    rewrite Z.shiftl_mul_pow2 by lia. unfold u8.
    rewrite (Z.mod_small (_ * _)) by nia.
    rewrite bits_of_bytes_snoc, bits_of_byte_to_byte by (change 256 with (2 ^ 8); nia).
    rewrite <- app_assoc, length_app. cbn [length].
    split; [|auto]. f_equal.
    pose proof (low_bits_shift (Z.to_nat k) (Z.to_nat (8 - k)) (BitWriter.current w)) as Hs.
    replace (Z.to_nat k + Z.to_nat (8 - k))%nat with 8%nat in Hs by lia.
    replace (Z.of_nat (Z.to_nat (8 - k))) with (8 - k) in Hs by lia.
    exact Hs.
  - assert (H0 : BitWriter.bits_filled w = 0) by lia.
    assert (Hc0 : BitWriter.current w = 0) by (rewrite H0 in Hc; cbn in Hc; lia).
    rewrite H0. change (Z.to_nat ((8 - 0) mod 8)) with 0%nat.
    cbn [repeat]. rewrite app_nil_r.
    change (Z.to_nat 0) with 0%nat. cbn [low_bits seq map].
    rewrite app_nil_r. repeat split; auto.
Qed.

(** X1.  Writing any sequence of bits to a fresh writer and flushing packs
    them most significant bit first: the bytes spell the lowest bit of each
    value written, in order, followed by as many 0 bits as it takes to
    reach a byte boundary (none when the count is a multiple of 8), so
    there are [ceil (n / 8)] bytes, and the writer is left empty. *)
Theorem writer_packs_msb_first (bits : list Z) :
  let w := BitWriter.flush (write_all BitWriter.empty bits) in
  bits_of_bytes (BitWriter.bytes w)
  = map (fun b => Z.land b 1) bits
    ++ repeat 0 ((8 - length bits mod 8) mod 8)%nat
  /\ length (BitWriter.bytes w) = ((length bits + 7) / 8)%nat
  /\ BitWriter.bits_filled w = 0
  /\ BitWriter.current w = 0.
Proof.
  cbn zeta.
  destruct (write_all_written bits BitWriter.empty wf_writer_empty) as [Hw Hwr].
  change (written BitWriter.empty) with (@nil Z) in Hwr. cbn [app] in Hwr.
  pose proof (written_length (write_all BitWriter.empty bits)) as Hlen.
  rewrite Hwr, length_map in Hlen.
  destruct (flush_pads _ Hw) as (Hbits & Hfilled & Hcur & Hbytes).
  set (w := write_all BitWriter.empty bits) in *.
  destruct Hw as [Hf Hc].
  set (k := BitWriter.bits_filled w) in *.
  set (m := length (BitWriter.bytes w)) in *.
  assert (Hmod : (length bits mod 8 = Z.to_nat k)%nat).
  { rewrite Hlen. rewrite (Nat.mul_comm 8 m), Nat.add_comm, Nat.Div0.mod_add.
    apply Nat.mod_small. lia. }
  assert (Hdiv : (length bits / 8 = m)%nat).
  { rewrite Hlen. rewrite (Nat.mul_comm 8 m), Nat.div_add_l by lia.
    rewrite (Nat.div_small (Z.to_nat k)) by lia. lia. }
  split; [|split; [|split; assumption]].
  - rewrite Hbits, Hwr. f_equal. f_equal. rewrite Hmod.
    destruct (Z.eqb_spec k 0) as [->|Hk]; [reflexivity|].
    rewrite Z.mod_small by lia. rewrite Nat.mod_small by lia. lia.
  - rewrite Hbytes.
    replace (length bits + 7)%nat with (Z.to_nat k + 7 + m * 8)%nat by lia.
    rewrite Nat.div_add by lia.
    destruct (Z.gtb_spec k 0) as [Hpos|Hz].
    + replace ((Z.to_nat k + 7) / 8)%nat with 1%nat; [lia|].
      apply Nat.div_unique with (r := (Z.to_nat k - 1)%nat); lia.
    + replace (Z.to_nat k) with 0%nat by lia. cbn. lia.
Qed.

(** X2.  What the writer packs, the reader delivers: read number [k] (from
    0) of a fresh reader over the flushed bytes is the lowest bit of the
    [k]-th value written, and 0 once the written bits are used up. *)
Theorem reader_returns_written_bits (bits : list Z) (k : nat) :
  read_nth
    (BitReader.make (BitWriter.bytes (BitWriter.flush (write_all BitWriter.empty bits)))) k
  = nth k (map (fun b => Z.land b 1) bits) 0.
Proof.
  rewrite read_nth_remaining by (cbn; lia). rewrite remaining_make.
  destruct (write_all_written bits BitWriter.empty wf_writer_empty) as [Hw Hwr].
  change (written BitWriter.empty) with (@nil Z) in Hwr. cbn [app] in Hwr.
  destruct (flush_pads _ Hw) as (Hbits & _).
  rewrite Hbits, Hwr. apply sbit_pad.
Qed.

Lemma bits_of_byte_inj (a b : byte) : bits_of_byte a = bits_of_byte b -> a = b.
Proof.
  intros H. apply byte_val_inj. apply Z.bits_inj'. intros i Hi.
  destruct (Z.ltb_spec i 8) as [Hlt|Hge].
  - assert (Hn : nth (Z.to_nat (7 - i)) (bits_of_byte a) 0
                 = nth (Z.to_nat (7 - i)) (bits_of_byte b) 0) by (rewrite H; reflexivity).
    unfold bits_of_byte in Hn. rewrite !top_bits_nth in Hn by lia.
    replace (7 - Z.of_nat (Z.to_nat (7 - i))) with i in Hn by lia.
    unfold bit_of in Hn.
    destruct (Z.testbit (byte_val a) i), (Z.testbit (byte_val b) i);
      cbn in Hn; congruence.
  - pose proof (byte_val_range a) as Ha. pose proof (byte_val_range b) as Hb.
    rewrite <- (Z.mod_small (byte_val a) (2 ^ 8)) by (change (2 ^ 8) with 256; lia).
    rewrite <- (Z.mod_small (byte_val b) (2 ^ 8)) by (change (2 ^ 8) with 256; lia).
    rewrite !Z.mod_pow2_bits_high by lia. reflexivity.
Qed.

Lemma app_inj_length {A} (l1 : list A) : forall l2 r1 r2 : list A,
  length l1 = length l2 -> l1 ++ r1 = l2 ++ r2 -> l1 = l2 /\ r1 = r2.
Proof.
  induction l1 as [|x l1 IH]; intros [|y l2] r1 r2 Hlen H; try discriminate Hlen.
  - auto.
  - cbn [app] in H. injection H as -> H. cbn [length] in Hlen.
    destruct (IH l2 r1 r2 ltac:(lia) H) as [-> ->]. auto.
Qed.

Lemma bits_of_bytes_inj (l1 : list byte) : forall l2 : list byte,
  bits_of_bytes l1 = bits_of_bytes l2 -> l1 = l2.
Proof.
  induction l1 as [|a l1 IH]; intros [|b l2] H.
  - reflexivity.
  - apply (f_equal (@length Z)) in H. rewrite !bits_of_bytes_length in H.
    cbn [length] in H. lia.
  - apply (f_equal (@length Z)) in H. rewrite !bits_of_bytes_length in H.
    cbn [length] in H. lia.
  - cbn [bits_of_bytes flat_map] in H.
    apply app_inj_length in H; [|rewrite !bits_of_byte_length; reflexivity].
    destruct H as [Hab Hrest]. f_equal; [apply bits_of_byte_inj, Hab|apply IH, Hrest].
Qed.

Lemma bits_of_bytes_bits (data : list byte) : is_bits (bits_of_bytes data).
Proof.
  unfold is_bits, bits_of_bytes. apply Forall_forall. intros x Hx.
  apply in_flat_map in Hx. destruct Hx as (b & _ & Hx).
  unfold bits_of_byte, top_bits in Hx. apply in_map_iff in Hx.
  destruct Hx as (j & <- & _). apply bit_of_01.
Qed.

Lemma mask_bits (l : list Z) : is_bits l -> map (fun b => Z.land b 1) l = l.
Proof.
  induction 1 as [|x l Hx _ IH]; [reflexivity|].
  cbn [map]. rewrite IH. destruct Hx as [-> | ->]; reflexivity.
Qed.

(** X3.  Writing the bits of a byte sequence, most significant bit first,
    rebuilds the sequence: after the last bit the writer holds exactly
    those bytes and no partial byte, and [flush] adds nothing. *)
Theorem writer_rebuilds_bytes (data : list byte) :
  BitWriter.bytes (write_all BitWriter.empty (bits_of_bytes data)) = data
  /\ BitWriter.bits_filled (write_all BitWriter.empty (bits_of_bytes data)) = 0
  /\ BitWriter.flush (write_all BitWriter.empty (bits_of_bytes data))
     = write_all BitWriter.empty (bits_of_bytes data).
Proof.
  destruct (write_all_written (bits_of_bytes data) BitWriter.empty wf_writer_empty)
    as [Hw Hwr].
  change (written BitWriter.empty) with (@nil Z) in Hwr. cbn [app] in Hwr.
  rewrite (mask_bits _ (bits_of_bytes_bits data)) in Hwr.
  pose proof (written_length (write_all BitWriter.empty (bits_of_bytes data))) as Hlen.
  rewrite Hwr, bits_of_bytes_length in Hlen.
  set (w := write_all BitWriter.empty (bits_of_bytes data)) in *.
  destruct Hw as [Hf Hc].
  assert (Hk : BitWriter.bits_filled w = 0) by lia.
  split; [|split; [exact Hk|]].
  - apply bits_of_bytes_inj. unfold written in Hwr. rewrite Hk in Hwr.
    change (Z.to_nat 0) with 0%nat in Hwr. cbn [low_bits seq map] in Hwr.
    rewrite app_nil_r in Hwr. exact Hwr.
  - unfold BitWriter.flush. rewrite Hk. reflexivity.
Qed.

(** ** Big-endian fields and the table *)

(** X4.  The big-endian writers and readers are inverse to each other:
    [readUint64] reads back the eight bytes [writeUint64] put, and
    [readUint32] the four bytes of [writeUint32], leaving the rest of the
    stream; the value read is the value written reduced to the width of
    the field. *)
Theorem read_write_uint (v : Z) (rest : list byte) :
  readUint64 (writeUint64 v ++ rest) = Ok (v mod 2 ^ 64, rest)
  /\ readUint32 (writeUint32 v ++ rest) = Ok (v mod 2 ^ 32, rest)
  /\ length (writeUint64 v) = 8%nat
  /\ length (writeUint32 v) = 4%nat.
Proof.
  unfold readUint64, writeUint64, readUint32, writeUint32.
  rewrite !get_put_be by (cbn; lia). rewrite !put_be_length.
  repeat split.
Qed.

(** X5.  On any stream, [readUint64] throws "Unexpected EOF" exactly when
    fewer than 8 bytes are left; otherwise it consumes 8 bytes and returns
    the number they spell, first byte most significant, which is below
    [2^64].  Likewise [readUint32] with 4 bytes and [2^32]. *)
Theorem read_uint_spec (input : list byte) :
  ((length input < 8)%nat -> readUint64 input = Err UnexpectedEOF)
  /\ ((8 <= length input)%nat ->
      readUint64 input = Ok (be_value (firstn 8 input), skipn 8 input)
      /\ 0 <= be_value (firstn 8 input) < 2 ^ 64)
  /\ ((length input < 4)%nat -> readUint32 input = Err UnexpectedEOF)
  /\ ((4 <= length input)%nat ->
      readUint32 input = Ok (be_value (firstn 4 input), skipn 4 input)
      /\ 0 <= be_value (firstn 4 input) < 2 ^ 32).
Proof.
  split; [|split; [|split]].
  - intros H. apply get_be_short, H.
  - apply readUint64_ok.
  - intros H. apply get_be_short, H.
  - apply readUint32_ok.
Qed.

Lemma read_uint_spec_witness :
  readUint64 [x01; x02; x03] = Err UnexpectedEOF
  /\ (readUint64 [x00; x00; x00; x00; x00; x00; x01; x02; xff]
      = Ok (be_value (firstn 8 [x00; x00; x00; x00; x00; x00; x01; x02; xff]),
            skipn 8 [x00; x00; x00; x00; x00; x00; x01; x02; xff])
      /\ 0 <= be_value (firstn 8 [x00; x00; x00; x00; x00; x00; x01; x02; xff]) < 2 ^ 64)
  /\ readUint32 [] = Err UnexpectedEOF
  /\ (readUint32 [x00; x00; x01; x02; xff]
      = Ok (be_value (firstn 4 [x00; x00; x01; x02; xff]), skipn 4 [x00; x00; x01; x02; xff])
      /\ 0 <= be_value (firstn 4 [x00; x00; x01; x02; xff]) < 2 ^ 32).
Proof.
  split; [|split; [|split]].
  - apply (proj1 (read_uint_spec [x01; x02; x03])). cbn; lia.
  - apply (proj1 (proj2 (read_uint_spec [x00; x00; x00; x00; x00; x00; x01; x02; xff]))).
    cbn; lia.
  - apply (proj1 (proj2 (proj2 (read_uint_spec [])))). cbn; lia.
  - apply (proj2 (proj2 (proj2 (read_uint_spec [x00; x00; x01; x02; xff])))). cbn; lia.
Defined.

(** X6.  The table loop of [decompress] reads back what the table loop of
    [compress] wrote: for every table, the entries come back as (byte,
    count) pairs in the same order, each count reduced to 64 bits, and the
    bytes after the table are left for the bitstream. *)
Theorem table_read_back (syms : list Symbol) (rest : list byte) :
  get_table (length syms) (put_table syms ++ rest)
  = Ok (map (fun s => (value s, count s mod 2 ^ 64)) syms, rest)
  /\ length (put_table syms) = (9 * length syms)%nat.
Proof.
  split; [|apply put_table_length].
  induction syms as [|s syms IH]; [reflexivity|].
  cbn [length get_table put_table app map]. rewrite <- app_assoc.
  unfold readUint64, writeUint64 in *. rewrite get_put_be by (cbn; lia).
  cbn [bind]. rewrite IH. cbn [bind]. reflexivity.
Qed.

(** ** The renormalization loops *)

Lemma scale_none_cases (lo hi : Z) :
  scale lo hi = None ->
  lo < HALF /\ HALF <= hi /\ (lo < FIRST_QTR \/ THIRD_QTR <= hi).
Proof.
  intros H. destruct (scale_cases lo hi) as [[_ E]|[[_ [_ E]]|[[_ [_ E]]|[H1 [H2 [H3 _]]]]]];
    try (rewrite E in H; discriminate).
  auto.
Qed.

(** X7.  Both [for (;;)] loops end: from any two 32-bit words the 33rd
    test of the conditions at the latest finds none of them true, a larger
    bound changes nothing, and the encoder's loop and the decoder's loop
    leave the same [low] and [high], which straddle [HALF] and are not
    both in the middle half. *)
Theorem renorm_loops_agree (lo hi btf v : Z) (w : BitWriter.t) (rd : BitReader.t) :
  0 <= lo < 2 ^ 32 -> 0 <= hi < 2 ^ 32 ->
  exists (st : EncState) (dst : DecState),
    (forall fuel, (renorm_fuel <= fuel)%nat -> encode_renorm fuel lo hi btf w = Ok st)
    /\ (forall fuel, (renorm_fuel <= fuel)%nat -> decode_renorm fuel lo hi v rd = Ok dst)
    /\ dec_low dst = enc_low st /\ dec_high dst = enc_high st
    /\ enc_low st < HALF /\ HALF <= enc_high st
    /\ (enc_low st < FIRST_QTR \/ THIRD_QTR <= enc_high st).
Proof.
  intros Hlo Hhi.
  destruct (encode_renorm_total 32 renorm_fuel lo hi btf w) as [st Hst];
    try assumption; try (unfold renorm_fuel; lia); [apply shifted_0|].
  destruct (decode_renorm_total 32 renorm_fuel lo hi v rd) as [dst Hdst];
    try assumption; try (unfold renorm_fuel; lia); [apply shifted_0|].
  exists st, dst.
  pose proof (renorm_trace_encode _ _ _ _ _ _ Hlo Hhi Hst) as He.
  pose proof (renorm_trace_decode _ _ _ _ _ _ Hlo Hhi Hdst) as Hd.
  rewrite He in Hd.
  assert (enc_low st = dec_low dst /\ enc_high st = dec_high dst) as [E1 E2].
  { split; congruence. }
  destruct (encode_renorm_stops _ _ _ _ _ _ Hlo Hhi Hst) as [_ [_ Hnone]].
  apply scale_none_cases in Hnone.
  split; [|split].
  - intros fuel Hf. exact (encode_renorm_fuel _ _ _ _ _ _ _ Hf Hst).
  - intros fuel Hf. exact (decode_renorm_fuel _ _ _ _ _ _ _ Hf Hdst).
  - repeat split; try (symmetry; assumption); tauto.
Qed.

Lemma renorm_loops_agree_witness :
  exists (st : EncState) (dst : DecState),
    (forall fuel, (renorm_fuel <= fuel)%nat ->
       encode_renorm fuel 0x10000000 0x1fffffff 2 BitWriter.empty = Ok st)
    /\ (forall fuel, (renorm_fuel <= fuel)%nat ->
          decode_renorm fuel 0x10000000 0x1fffffff 0x18000000 (BitReader.make [xff]) = Ok dst)
    /\ dec_low dst = enc_low st /\ dec_high dst = enc_high st
    /\ enc_low st < HALF /\ HALF <= enc_high st
    /\ (enc_low st < FIRST_QTR \/ THIRD_QTR <= enc_high st).
Proof.
  apply (renorm_loops_agree 0x10000000 0x1fffffff 2 0x18000000 BitWriter.empty
           (BitReader.make [xff])); lia.
Defined.

(** X8.  Renormalization keeps the interval in order and leaves it wider
    than a quarter of the 32-bit range: from [low <= high] the encoder's
    loop ends with [low <= high] and [high - low + 1 >= 2^30 + 2], and the
    decoder's loop, started with [value] inside the interval, ends with
    [value] inside it. *)
Theorem renorm_keeps_range_wide (lo hi btf v : Z) (w : BitWriter.t) (rd : BitReader.t) :
  0 <= lo <= hi -> hi < 2 ^ 32 ->
  (exists st : EncState,
     encode_renorm renorm_fuel lo hi btf w = Ok st
     /\ 0 <= enc_low st <= enc_high st /\ enc_high st < 2 ^ 32
     /\ 2 ^ 30 + 2 <= enc_high st - enc_low st + 1)
  /\ (lo <= v <= hi ->
      exists dst : DecState,
        decode_renorm renorm_fuel lo hi v rd = Ok dst
        /\ dec_low dst <= dec_value dst <= dec_high dst
        /\ 2 ^ 30 + 2 <= dec_high dst - dec_low dst + 1).
Proof.
  intros Hlo Hhi. split.
  - destruct (encode_renorm_total 32 renorm_fuel lo hi btf w) as [st Hst];
      try lia; try (unfold renorm_fuel; lia); [apply shifted_0|].
    exists st. split; [exact Hst|].
    destruct (encode_renorm_ordered _ _ _ _ _ _ Hlo Hhi Hst) as [H1 [H2 H3]].
    repeat split; try lia. apply scale_none_range; [lia|exact H3].
  - intros Hv.
    destruct (decode_renorm_total 32 renorm_fuel lo hi v rd) as [dst Hdst];
      try lia; try (unfold renorm_fuel; lia); [apply shifted_0|].
    exists dst. split; [exact Hdst|].
    assert (0 <= lo <= v) as Hlv by lia.
    destruct (decode_renorm_valid _ _ _ _ _ _ Hlv (proj2 Hv) Hhi Hdst) as [H1 [H2 [H3 H4]]].
    repeat split; try lia. apply scale_none_range; [lia|exact H4].
Qed.

Lemma renorm_keeps_range_wide_witness :
  (exists st : EncState,
     encode_renorm renorm_fuel 0x7ffffff0 0x8000000f 0 BitWriter.empty = Ok st
     /\ 0 <= enc_low st <= enc_high st /\ enc_high st < 2 ^ 32
     /\ 2 ^ 30 + 2 <= enc_high st - enc_low st + 1)
  /\ (exists dst : DecState,
        decode_renorm renorm_fuel 0x7ffffff0 0x8000000f 0x80000001 (BitReader.make []) = Ok dst
        /\ dec_low dst <= dec_value dst <= dec_high dst
        /\ 2 ^ 30 + 2 <= dec_high dst - dec_low dst + 1).
Proof.
  destruct (renorm_keeps_range_wide 0x7ffffff0 0x8000000f 0 0x80000001 BitWriter.empty
              (BitReader.make [])) as [H1 H2]; [lia|lia|].
  split; [exact H1|apply H2; lia].
Defined.

(** ** The frequency table *)

Lemma freq_lookup_cons (b k : byte) (c : Z) (rest : list (byte * Z)) :
  freq_lookup b ((k, c) :: rest) = if Byte.eqb k b then c else freq_lookup b rest.
Proof.
  unfold freq_lookup. cbn [find fst]. destruct (Byte.eqb k b); reflexivity.
Qed.

Lemma freq_lookup_above (b : byte) (freq : list (byte * Z)) :
  Forall (fun kc => byte_val b < byte_val (fst kc)) freq -> freq_lookup b freq = 0.
Proof.
  induction 1 as [|[k c] rest Hk _ IH]; [reflexivity|].
  rewrite freq_lookup_cons. cbn [fst] in Hk.
  destruct (Byte.eqb k b) eqn:E; [|exact IH].
  apply byte_eqb_eq in E. subst. lia.
Qed.

(** [freq[b]++] adds one to the count of [b] and leaves the others. *)
Lemma freq_lookup_incr (b x : byte) (freq : list (byte * Z)) :
  ascending_keys freq ->
  freq_lookup x (freq_incr b freq)
  = freq_lookup x freq + (if Byte.eqb b x then 1 else 0).
Proof.
  unfold ascending_keys. induction 1 as [|[k c] rest Hs IH Hall].
  - cbn [freq_incr]. rewrite freq_lookup_cons. unfold freq_lookup. cbn [find].
    destruct (Byte.eqb b x); reflexivity.
  - cbn [freq_incr]. cbn [fst] in Hall.
    destruct (Z.ltb_spec (byte_val b) (byte_val k)) as [Hlt|Hge].
    + rewrite freq_lookup_cons. destruct (Byte.eqb b x) eqn:E; [|lia].
      apply byte_eqb_eq in E. subst x. rewrite freq_lookup_above; [lia|].
      constructor; [cbn [fst]; lia|].
      eapply Forall_impl; [|exact Hall]. cbn beta. intros; lia.
    + destruct (Z.eqb_spec (byte_val b) (byte_val k)) as [Heq|Hne].
      * apply byte_val_inj in Heq. subst k. rewrite !freq_lookup_cons.
        destruct (Byte.eqb b x); lia.
      * rewrite !freq_lookup_cons. destruct (Byte.eqb k x) eqn:E; [|exact IH].
        apply byte_eqb_eq in E. subst x.
        destruct (Byte.eqb b k) eqn:E2; [|lia].
        apply byte_eqb_eq in E2. subst. lia.
Qed.

Lemma fold_incr_sorted (data : list byte) : forall freq : list (byte * Z),
  ascending_keys freq ->
  ascending_keys (fold_left (fun freq b => freq_incr b freq) data freq).
Proof.
  induction data as [|b data IH]; intros freq Hs; [exact Hs|].
  cbn [fold_left]. apply IH, freq_incr_sorted, Hs.
Qed.

Lemma fold_incr_lookup (data : list byte) : forall (freq : list (byte * Z)) (x : byte),
  ascending_keys freq ->
  freq_lookup x (fold_left (fun freq b => freq_incr b freq) data freq)
  = freq_lookup x freq + Z.of_nat (count_occ Byte.byte_eq_dec data x).
Proof.
  induction data as [|b data IH]; intros freq x Hs; [cbn; lia|].
  cbn [fold_left]. rewrite IH by (apply freq_incr_sorted, Hs).
  rewrite freq_lookup_incr by exact Hs.
  destruct (Byte.eqb b x) eqn:E.
  - apply byte_eqb_eq in E. subst x. rewrite count_occ_cons_eq by reflexivity. lia.
  - rewrite count_occ_cons_neq; [lia|].
    intros ->. rewrite (proj2 (byte_eqb_eq x x) eq_refl) in E. discriminate.
Qed.

Lemma tally_lookup (data : list byte) (x : byte) :
  freq_lookup x (tally data) = Z.of_nat (count_occ Byte.byte_eq_dec data x).
Proof.
  unfold tally. rewrite fold_incr_lookup by constructor. reflexivity.
Qed.

Lemma find_symbol_lookup (syms : list Symbol) (b : byte) :
  freq_lookup b (map (fun s => (value s, count s)) syms)
  = match find_symbol b syms with Some s => count s | None => 0 end.
Proof.
  unfold find_symbol.
  induction syms as [|s rest IH]; [reflexivity|].
  cbn [map find]. rewrite freq_lookup_cons.
  destruct (Byte.eqb (value s) b); [reflexivity|exact IH].
Qed.

(** X9.  The table [buildFrequencyTable] builds holds, for every byte, the
    number of times the byte occurs in the data: the entry the encoder
    finds for a byte has that byte and its number of occurrences as
    count, and no entry is found exactly for the bytes that do not
    occur. *)
Theorem table_counts_occurrences (self : Encoder) (data : list byte) (b : byte) :
  Z.of_nat (length data) < 2 ^ 64 ->
  match find_symbol b (symbols (buildFrequencyTable self data)) with
  | Some s =>
      value s = b
      /\ count s = Z.of_nat (count_occ Byte.byte_eq_dec data b)
      /\ high s - low s = count s
      /\ In b data
  | None => ~ In b data
  end.
Proof.
  intros Hlen.
  destruct (buildFrequencyTable_spec self data Hlen) as ([_ Hpart] & _ & Hpos & _ & Hmap).
  cbn zeta in Hmap.
  pose proof (find_symbol_lookup (symbols (buildFrequencyTable self data)) b) as Hl.
  rewrite Hmap, tally_lookup in Hl.
  destruct (find_symbol b (symbols (buildFrequencyTable self data))) as [s|] eqn:Hfind.
  - destruct (find_symbol_some _ _ _ Hfind) as [Hin Hval].
    rewrite Forall_forall in Hpos. specialize (Hpos s Hin).
    destruct (partitions_In _ _ _ s Hpart Hin) as (_ & _ & _ & Hcnt).
    repeat split; try assumption; [symmetry; exact Hl|].
    apply (count_occ_In Byte.byte_eq_dec). lia.
  - intros Hin. apply (count_occ_In Byte.byte_eq_dec) in Hin. lia.
Qed.

Lemma table_counts_occurrences_witness :
  match find_symbol x61 (symbols (buildFrequencyTable (mkEncoder [] 0) [x61; x62; x61])) with
  | Some s =>
      value s = x61
      /\ count s = Z.of_nat (count_occ Byte.byte_eq_dec [x61; x62; x61] x61)
      /\ high s - low s = count s
      /\ In x61 [x61; x62; x61]
  | None => ~ In x61 [x61; x62; x61]
  end.
Proof.
  apply (table_counts_occurrences (mkEncoder [] 0) [x61; x62; x61] x61).
  vm_compute. reflexivity.
Defined.

Lemma ascending_keys_length (freq : list (byte * Z)) : forall a : Z,
  ascending_keys freq -> a <= 256 ->
  Forall (fun kc => a <= byte_val (fst kc)) freq ->
  Z.of_nat (length freq) <= 256 - a.
Proof.
  unfold ascending_keys.
  induction freq as [|[k c] rest IH]; intros a Hs Ha Hall; [cbn [length]; lia|].
  inversion Hs as [|? ? Hs' Hlt]; subst.
  inversion Hall as [|? ? Hk _]; subst. cbn [fst] in Hk, Hlt.
  pose proof (byte_val_range k) as Hr.
  specialize (IH (byte_val k + 1) Hs' ltac:(lia)).
  cbn [length]. rewrite Nat2Z.inj_succ.
  assert (Z.of_nat (length rest) <= 256 - (byte_val k + 1)); [|lia].
  apply IH. eapply Forall_impl; [|exact Hlt]. cbn beta. intros; lia.
Qed.

Lemma push_frequencies_length (freq : list (byte * Z)) : forall cumulative : Z,
  length (push_frequencies cumulative freq) = length freq.
Proof.
  induction freq as [|[k c] rest IH]; intros cumulative; [reflexivity|].
  cbn [push_frequencies length]. rewrite IH. reflexivity.
Qed.

Lemma table_size (self : Encoder) (data : list byte) :
  Z.of_nat (length (symbols (buildFrequencyTable self data))) <= 256
  /\ Z.of_nat (length (symbols (buildFrequencyTable self data))) <= Z.of_nat (length data).
Proof.
  unfold buildFrequencyTable. cbn [symbols]. rewrite push_frequencies_length.
  destruct (tally_spec data) as (Hs & Hp & Hsum). split.
  - pose proof (ascending_keys_length (tally data) 0 Hs ltac:(lia)) as H.
    rewrite Z.sub_0_r in H. apply H.
    apply Forall_forall. intros kc _. pose proof (byte_val_range (fst kc)). lia.
  - rewrite <- Hsum. apply length_le_sum_freq, Hp.
Qed.

(** X10.  Whatever the data, the table has at most 256 entries and no
    more entries than the data has bytes, so the 32-bit entry count
    [compress] writes is the number of entries. *)
Theorem table_at_most_256_entries (self : Encoder) (data : list byte) :
  (length (symbols (buildFrequencyTable self data)) <= 256)%nat
  /\ (length (symbols (buildFrequencyTable self data)) <= length data)%nat
  /\ u32 (Z.of_nat (length (symbols (buildFrequencyTable self data))))
     = Z.of_nat (length (symbols (buildFrequencyTable self data))).
Proof.
  destruct (table_size self data) as [H1 H2].
  repeat split; try lia. apply u32_small. lia.
Qed.

Lemma freq_incr_comm (a b : byte) (freq : list (byte * Z)) :
  freq_incr a (freq_incr b freq) = freq_incr b (freq_incr a freq).
Proof.
  destruct (Byte.byte_eq_dec a b) as [->|Hab]; [reflexivity|].
  assert (Hv : byte_val a <> byte_val b) by (intros E; apply Hab, byte_val_inj, E).
  induction freq as [|[k c] rest IH]; cbn [freq_incr].
  - destruct (Z.ltb_spec (byte_val a) (byte_val b));
      destruct (Z.ltb_spec (byte_val b) (byte_val a));
      destruct (Z.eqb_spec (byte_val a) (byte_val b));
      destruct (Z.eqb_spec (byte_val b) (byte_val a)); try lia; reflexivity.
  - destruct (Z.ltb_spec (byte_val a) (byte_val k));
      destruct (Z.ltb_spec (byte_val b) (byte_val k));
      destruct (Z.eqb_spec (byte_val a) (byte_val k));
      destruct (Z.eqb_spec (byte_val b) (byte_val k)); try lia;
      cbn [freq_incr];
      repeat match goal with
             | |- context [byte_val ?x <? byte_val ?y] =>
                 destruct (Z.ltb_spec (byte_val x) (byte_val y)); try lia
             | |- context [byte_val ?x =? byte_val ?y] =>
                 destruct (Z.eqb_spec (byte_val x) (byte_val y)); try lia
             end;
      try reflexivity; try (rewrite IH; reflexivity).
Qed.

Lemma fold_incr_permutation (d1 d2 : list byte) :
  Permutation d1 d2 ->
  forall freq : list (byte * Z),
    fold_left (fun freq b => freq_incr b freq) d1 freq
    = fold_left (fun freq b => freq_incr b freq) d2 freq.
Proof.
  induction 1 as [|x l l' _ IH|x y l|l l' l'' _ IH1 _ IH2]; intros freq.
  - reflexivity.
  - cbn [fold_left]. apply IH.
  - cbn [fold_left]. rewrite freq_incr_comm. reflexivity.
  - rewrite IH1. apply IH2.
Qed.

(** X11.  The table depends on the bytes of the data and how often each
    occurs, not on their order or on the encoder object: two inputs that
    are rearrangements of each other get the same table and total. *)
Theorem table_ignores_order (self other : Encoder) (d1 d2 : list byte) :
  Permutation d1 d2 ->
  buildFrequencyTable self d1 = buildFrequencyTable other d2.
Proof.
  intros Hp. unfold buildFrequencyTable, tally.
  rewrite (fold_incr_permutation d1 d2 Hp), (Permutation_length Hp). reflexivity.
Qed.

Lemma table_ignores_order_witness :
  buildFrequencyTable (mkEncoder [] 0) [x62; x61; x63; x61]
  = buildFrequencyTable (mkEncoder [mkSymbol x7a 0 9 9] 9) [x61; x62; x61; x63].
Proof.
  apply (table_ignores_order (mkEncoder [] 0) (mkEncoder [mkSymbol x7a 0 9 9] 9)
           [x62; x61; x63; x61] [x61; x62; x61; x63]).
  eapply perm_trans; [apply perm_swap|]. apply perm_skip, perm_skip, perm_swap.
Defined.

(** ** Looking a cumulative value up *)

Lemma decodeSymbol_none (syms : list Symbol) (cum : Z) :
  (forall it, In it syms -> ~ (low it <= cum < high it)) ->
  decodeSymbol syms cum = x00.
Proof.
  induction syms as [|s rest IH]; intros H; [reflexivity|].
  cbn [decodeSymbol].
  destruct (Z.geb_spec cum (low s)); destruct (Z.ltb_spec cum (high s)); cbn [andb];
    try (apply IH; intros it Hin; apply H; right; exact Hin).
  exfalso. apply (H s); [left; reflexivity|lia].
Qed.

(** X12.  On a table whose entries follow one another from [from] to
    [upto], [decodeSymbol] returns the byte of the entry whose share
    [[low, high)] holds the cumulative value, and byte 0 for every
    cumulative value outside [[from, upto)]. *)
Theorem decodeSymbol_spec (syms : list Symbol) (from upto cum : Z) :
  partitions from syms upto ->
  (from <= cum < upto ->
   exists it, In it syms /\ low it <= cum < high it
              /\ decodeSymbol syms cum = value it)
  /\ (~ from <= cum < upto -> decodeSymbol syms cum = x00).
Proof.
  intros Hp. split.
  - intros Hcum. destruct (partitions_cover _ _ _ cum Hp Hcum) as (it & Hin & Hit).
    exists it. repeat split; try assumption; try lia.
    apply (decodeSymbol_In _ _ _ _ it Hp Hin Hit).
  - intros Hout. apply decodeSymbol_none. intros it Hin Hit.
    destruct (partitions_In _ _ _ it Hp Hin) as (H1 & H2 & H3 & _). lia.
Qed.

Lemma decodeSymbol_spec_witness :
  (exists it, In it [mkSymbol x61 0 2 2; mkSymbol x62 2 3 1] /\ low it <= 2 < high it
              /\ decodeSymbol [mkSymbol x61 0 2 2; mkSymbol x62 2 3 1] 2 = value it)
  /\ decodeSymbol [mkSymbol x61 0 2 2; mkSymbol x62 2 3 1] 3 = x00.
Proof.
  assert (Hp : partitions 0 [mkSymbol x61 0 2 2; mkSymbol x62 2 3 1] 3).
  { cbn. repeat split; lia. }
  split.
  - apply (proj1 (decodeSymbol_spec _ 0 3 2 Hp)). lia.
  - apply (proj2 (decodeSymbol_spec _ 0 3 3 Hp)). lia.
Defined.

(** ** Narrowing *)

(** X13.  The shares into which [encodeData] and [decodeData] split the
    interval tile it: for two entries of which the second starts where
    the first ends, the narrowed intervals are non-empty, lie inside
    [[low, high]] and are adjacent without gap or overlap; an entry that
    starts at 0 keeps [low] and one that ends at the total keeps [high]. *)
Theorem narrow_tiles_interval (lo hi : Z) (a b : Symbol) (total : Z) :
  0 <= lo <= hi -> hi < 2 ^ 32 -> total < 2 ^ 32 -> total <= hi - lo + 1 ->
  0 <= low a < high a -> high a = low b -> low b < high b -> high b <= total ->
  lo <= fst (encode_narrow lo hi a total) <= snd (encode_narrow lo hi a total)
  /\ snd (encode_narrow lo hi a total) + 1 = fst (encode_narrow lo hi b total)
  /\ fst (encode_narrow lo hi b total) <= snd (encode_narrow lo hi b total) <= hi
  /\ (low a = 0 -> fst (encode_narrow lo hi a total) = lo)
  /\ (high b = total -> snd (encode_narrow lo hi b total) = hi).
Proof.
  intros Hlo Hhi Ht Hr Ha Hab Hb Hbt.
  destruct (encode_narrow_spec lo hi a total Hlo Hhi Ha ltac:(lia) Hr Ht)
    as (Ea & A1 & A2 & A3).
  destruct (encode_narrow_spec lo hi b total Hlo Hhi ltac:(lia) Hbt Hr Ht)
    as (Eb & B1 & B2 & B3).
  cbn zeta in *. rewrite Ea, Eb. cbn [fst snd]. rewrite Hab in *.
  split; [lia|]. split; [lia|]. split; [lia|]. split.
  - intros E. rewrite E, Z.mul_0_r, Z.div_0_l by lia. lia.
  - intros E. rewrite E, Z.div_mul by lia. lia.
Qed.

Lemma narrow_tiles_interval_witness :
  0 <= fst (encode_narrow 0 MAX_RANGE (mkSymbol x61 0 2 2) 3)
    <= snd (encode_narrow 0 MAX_RANGE (mkSymbol x61 0 2 2) 3)
  /\ snd (encode_narrow 0 MAX_RANGE (mkSymbol x61 0 2 2) 3) + 1
     = fst (encode_narrow 0 MAX_RANGE (mkSymbol x62 2 3 1) 3)
  /\ fst (encode_narrow 0 MAX_RANGE (mkSymbol x62 2 3 1) 3)
     <= snd (encode_narrow 0 MAX_RANGE (mkSymbol x62 2 3 1) 3) <= MAX_RANGE
  /\ fst (encode_narrow 0 MAX_RANGE (mkSymbol x61 0 2 2) 3) = 0
  /\ snd (encode_narrow 0 MAX_RANGE (mkSymbol x62 2 3 1) 3) = MAX_RANGE.
Proof.
  assert (Hside : 0 <= 0 <= MAX_RANGE /\ MAX_RANGE < 2 ^ 32 /\ 3 < 2 ^ 32
                  /\ 3 <= MAX_RANGE - 0 + 1) by (unfold MAX_RANGE; lia).
  destruct Hside as (S1 & S2 & S3 & S4).
  destruct (narrow_tiles_interval 0 MAX_RANGE (mkSymbol x61 0 2 2) (mkSymbol x62 2 3 1) 3
              S1 S2 S3 S4 ltac:(cbn; lia) eq_refl ltac:(cbn; lia) ltac:(cbn; lia))
    as (H1 & H2 & H3 & H4 & H5).
  split; [exact H1|]. split; [exact H2|]. split; [exact H3|]. split.
  - apply H4. reflexivity.
  - apply H5. reflexivity.
Defined.

(** ** Files *)

(** [decompress] on a file laid out as [compress] lays it out: magic,
    declared size, entry count, table, bitstream. *)
Lemma decompress_file (self : Encoder) (n : Z) (syms : list Symbol) (bitstream : list byte) :
  0 <= n < 2 ^ 64 ->
  Z.of_nat (length syms) < 2 ^ 32 ->
  Forall (fun s => 0 <= count s < 2 ^ 64) syms ->
  decompress self
    (magic ++ writeUint64 n ++ writeUint32 (Z.of_nat (length syms))
           ++ put_table syms ++ bitstream)
  = bind (decodeData (buildSymbolsFromCounts self (map (fun s => (value s, count s)) syms))
            (BitReader.make bitstream) [] n)
      (fun decoded =>
         Ok (buildSymbolsFromCounts self (map (fun s => (value s, count s)) syms), decoded)).
Proof.
  intros Hn Hk Hcounts.
  unfold decompress. rewrite magic_check.
  change (firstn 4 (magic ++ ?x)) with magic.
  destruct (list_eq_dec Byte.byte_eq_dec magic magic) as [_|Hm]; [|contradiction].
  change (skipn 4 (magic ++ ?x)) with x.
  rewrite readUint64_writeUint64 by lia. cbn [bind].
  rewrite readUint32_writeUint32 by lia. cbn [bind].
  rewrite Nat2Z.id, get_table_put_table by exact Hcounts. cbn [bind].
  reflexivity.
Qed.






(** X16.  [decompress] accepts every file [compress] writes: for an input
    of any length below [2^64], the header and the table are read back,
    the table rebuilt is the table [compress] built, and as many bytes
    are returned as the input has. *)
Theorem decompress_accepts_compress_output (self other : Encoder) (data : list byte) :
  Z.of_nat (length data) < 2 ^ 64 ->
  exists (m : Encoder) (outfile : list byte) (stats : Statistics) (decoded : list byte),
    compress self data = Ok (m, outfile, stats)
    /\ m = buildFrequencyTable self data
    /\ decompress other outfile = Ok (m, decoded)
    /\ length decoded = length data.
Proof.
  intros Hlen.
  destruct (compress_returns self data Hlen) as (w & Henc & Hrun).
  destruct (table_counts_in_range self data Hlen) as [Hcounts _].
  destruct (table_size self data) as [Hsize _].
  pose proof (rebuild_model self other data Hlen) as Hrebuild.
  pose proof (buildFrequencyTable_total_count self data Hlen) as Htotal.
  set (m := buildFrequencyTable self data) in *.
  assert (Hdec : exists decoded,
             decodeData m (BitReader.make (BitWriter.bytes w)) [] (Z.of_nat (length data))
             = Ok decoded /\ length decoded = length data).
  { destruct Htotal as [->|Htotal].
    - exists []. split; [|reflexivity]. unfold decodeData. cbn [length Z.of_nat Z.to_nat].
      destruct (fill_value 32 0 (BitReader.make (BitWriter.bytes w))) as [v rd].
      reflexivity.
    - destruct (decodeData_length m (BitReader.make (BitWriter.bytes w))
                  (Z.of_nat (length data)) Htotal) as (decoded & Hd & Hl).
      exists decoded. split; [exact Hd|]. rewrite Hl. apply Nat2Z.id. }
  destruct Hdec as (decoded & Hd & Hl).
  eexists m, _, _, decoded. split; [exact Hrun|]. split; [reflexivity|].
  split; [|exact Hl].
  rewrite (u64_small (Z.of_nat (length data))) by lia.
  rewrite (u32_small (Z.of_nat (length (symbols m)))) by lia.
  rewrite decompress_file by (try assumption; lia).
  rewrite Hrebuild, Hd. reflexivity.
Qed.

Lemma decompress_accepts_compress_output_witness :
  exists (m : Encoder) (outfile : list byte) (stats : Statistics) (decoded : list byte),
    compress (mkEncoder [] 0) [x61; x62; x61] = Ok (m, outfile, stats)
    /\ m = buildFrequencyTable (mkEncoder [] 0) [x61; x62; x61]
    /\ decompress (mkEncoder [mkSymbol x7a 0 9 9] 9) outfile = Ok (m, decoded)
    /\ length decoded = length [x61; x62; x61].
Proof.
  apply (decompress_accepts_compress_output (mkEncoder [] 0) (mkEncoder [mkSymbol x7a 0 9 9] 9)
           [x61; x62; x61]).
  vm_compute. reflexivity.
Defined.

(** ** What the decoder returns *)

Section DecoderOutput.

Variable self : Encoder.

Hypothesis Hpart : partitions 0 (symbols self) (total_count self).
Hypothesis Hdistinct : distinct_values (symbols self).
Hypothesis Htotal : 0 < total_count self <= 2 ^ 30.

(** One iteration of the decode loop from a state with [value] inside the
    interval: the byte is that of an entry with a non-empty share, and
    the next state has [value] inside the interval again. *)
Lemma decode_step_valid (lo hi v : Z) (rd : BitReader.t) :
  0 <= lo <= v -> v <= hi -> hi < 2 ^ 32 -> scale lo hi = None ->
  exists (it : Symbol) (st' : DecState),
    In it (symbols self) /\ 0 < count it
    /\ decode_step self (mkDec lo hi v rd) = (value it, Ok st')
    /\ 0 <= dec_low st' <= dec_value st' /\ dec_value st' <= dec_high st'
    /\ dec_high st' < 2 ^ 32
    /\ scale (dec_low st') (dec_high st') = None.
Proof.
  intros Hlo Hv Hhi Hsc.
  pose proof (scale_none_range lo hi ltac:(lia) Hsc) as Hrange.
  set (cum := ((v - lo + 1) * total_count self - 1) / (hi - lo + 1)).
  assert (Hcum : 0 <= cum < total_count self).
  { unfold cum. split.
    - apply Z.div_pos; nia.
    - apply Z.div_lt_upper_bound; nia. }
  destruct (partitions_cover _ _ _ cum Hpart Hcum) as (it & Hin & Hit).
  destruct (partitions_In _ _ _ it Hpart Hin) as (H1 & H2 & H3 & H4).
  destruct (encode_narrow_spec lo hi it (total_count self) ltac:(lia) Hhi ltac:(lia) H3
              ltac:(lia) ltac:(lia)) as (Hspec & Hn1 & Hn2 & Hn3).
  cbn zeta in Hspec, Hn1, Hn2, Hn3.
  set (lo' := lo + (hi - lo + 1) * low it / total_count self) in *.
  set (hi' := lo + (hi - lo + 1) * high it / total_count self - 1) in *.
  pose proof (proj1 (cum_in_entry lo hi v (low it) (high it) (total_count self)
                       ltac:(lia) ltac:(lia) ltac:(lia) ltac:(lia)) Hit) as Hwin.
  fold lo' hi' in Hwin.
  destruct (decode_renorm_total 32 renorm_fuel lo' hi' v rd) as [st' Hren];
    try lia; try (unfold renorm_fuel; lia); [apply shifted_0|].
  destruct (decode_renorm_valid renorm_fuel lo' hi' v rd st' ltac:(lia) ltac:(lia) ltac:(lia) Hren)
    as (Hlo' & Hv' & Hhi' & Hsc').
  exists it, st'. split; [exact Hin|]. split; [lia|].
  split; [|repeat split; try assumption; lia].
  unfold decode_step. cbn [dec_low dec_high dec_value reader].
  rewrite decode_cum_spec by lia. fold cum.
  rewrite (decodeSymbol_In _ _ _ _ it Hpart Hin Hit).
  rewrite (find_symbol_In _ it Hdistinct Hin).
  destruct (Z.eqb_spec (total_count self) 0) as [|_]; [lia|].
  replace (decode_narrow lo hi it (total_count self)) with (lo', hi')
    by (rewrite <- Hspec; reflexivity).
  rewrite <- Hren. reflexivity.
Qed.

Lemma decode_loop_outputs (n : nat) : forall (lo hi v : Z) (rd : BitReader.t) (output : list byte),
  0 <= lo <= v -> v <= hi -> hi < 2 ^ 32 -> scale lo hi = None ->
  exists ext : list byte,
    decode_loop self n (mkDec lo hi v rd) output = Ok (output ++ ext)
    /\ length ext = n
    /\ Forall (fun b => exists it, In it (symbols self) /\ value it = b /\ 0 < count it) ext.
Proof.
  induction n as [|n IH]; intros lo hi v rd output Hlo Hv Hhi Hsc.
  - exists []. cbn [decode_loop]. rewrite app_nil_r. repeat split. constructor.
  - destruct (decode_step_valid lo hi v rd Hlo Hv Hhi Hsc)
      as (it & [lo' hi' v' rd'] & Hin & Hpos & Hstep & Hlo' & Hv' & Hhi' & Hsc').
    cbn [dec_low dec_high dec_value] in Hlo', Hv', Hhi', Hsc'.
    destruct (IH lo' hi' v' rd' (output ++ [value it]) Hlo' Hv' Hhi' Hsc')
      as (ext & Hloop & Hlen & Hall).
    exists (value it :: ext). cbn [decode_loop]. rewrite Hstep. cbn [bind].
    rewrite Hloop, <- app_assoc. split; [reflexivity|]. split; [cbn [length]; lia|].
    constructor; [|exact Hall]. exists it. repeat split; assumption.
Qed.

End DecoderOutput.

(** X17.  Whatever the bitstream, the decoder returns only bytes the
    table gives a positive count: with a persisted table that lists each
    byte once and a total of at most [2^30], [decodeData] returns the
    declared number of bytes, each of them a byte of the table with a
    count above 0. *)
Theorem decoder_outputs_table_bytes (self : Encoder) (counts : list (byte * Z))
    (rd : BitReader.t) (n : Z) :
  NoDup (map fst counts) ->
  Forall (fun kc => 0 <= snd kc) counts ->
  0 < sum_freq counts <= 2 ^ 30 ->
  exists decoded : list byte,
    decodeData (buildSymbolsFromCounts self counts) rd [] n = Ok decoded
    /\ length decoded = Z.to_nat n
    /\ Forall (fun b => exists c, In (b, c) counts /\ 0 < c) decoded.
Proof.
  intros Hnd Hnn Hsum.
  destruct (buildSymbolsFromCounts_spec self counts Hnn ltac:(lia))
    as ([_ Hpart] & Htot & Hmap).
  cbn zeta in Htot, Hmap.
  set (m := buildSymbolsFromCounts self counts) in *.
  assert (Hdistinct : distinct_values (symbols m)).
  { unfold distinct_values.
    replace (map value (symbols m)) with (map fst counts); [exact Hnd|].
    rewrite <- Hmap at 1. rewrite map_map. reflexivity. }
  unfold decodeData.
  pose proof (fill_value_range 32 0 rd ltac:(lia)) as Hv.
  destruct (fill_value 32 0 rd) as [v rd']. cbn [fst] in Hv.
  destruct (decode_loop_outputs m Hpart Hdistinct ltac:(lia) (Z.to_nat n)
              0 MAX_RANGE v rd' [] ltac:(lia) ltac:(unfold MAX_RANGE; lia)
              ltac:(unfold MAX_RANGE; lia) eq_refl)
    as (ext & Hloop & Hlen & Hall).
  exists ext. split; [exact Hloop|]. split; [exact Hlen|].
  eapply Forall_impl; [|exact Hall]. cbn beta.
  intros b (it & Hin & Hval & Hpos). exists (count it). split; [|exact Hpos].
  rewrite <- Hmap, <- Hval.
  apply (in_map (fun s => (value s, count s))), Hin.
Qed.

Lemma decoder_outputs_table_bytes_witness :
  exists decoded : list byte,
    decodeData (buildSymbolsFromCounts (mkEncoder [] 0) [(x61, 2); (x62, 0); (x63, 1)])
      (BitReader.make [xde; xad; xbe; xef]) [] 4 = Ok decoded
    /\ length decoded = Z.to_nat 4
    /\ Forall (fun b => exists c, In (b, c) [(x61, 2); (x62, 0); (x63, 1)] /\ 0 < c) decoded.
Proof.
  apply (decoder_outputs_table_bytes (mkEncoder [] 0) [(x61, 2); (x62, 0); (x63, 1)]
           (BitReader.make [xde; xad; xbe; xef]) 4).
  - repeat constructor; cbn; intuition discriminate.
  - repeat constructor; cbn; lia.
  - vm_compute. split; [reflexivity|discriminate].
Defined.

(** ** Inputs of one repeated byte *)

Lemma fold_incr_repeat (b : byte) (n : nat) : forall c : Z,
  fold_left (fun freq x => freq_incr x freq) (repeat b n) [(b, c)]
  = [(b, c + Z.of_nat n)].
Proof.
  induction n as [|n IH]; intros c.
  - cbn [repeat fold_left Z.of_nat]. rewrite Z.add_0_r. reflexivity.
  - cbn [repeat fold_left freq_incr]. rewrite Z.ltb_irrefl, Z.eqb_refl, IH.
    do 2 f_equal. lia.
Qed.

Lemma tally_repeat (b : byte) (n : nat) :
  tally (repeat b (S n)) = [(b, Z.of_nat (S n))].
Proof.
  unfold tally. cbn [repeat fold_left freq_incr]. rewrite fold_incr_repeat.
  do 2 f_equal. lia.
Qed.

Lemma find_symbol_single (b : byte) (l h c : Z) :
  find_symbol b [mkSymbol b l h c] = Some (mkSymbol b l h c).
Proof.
  unfold find_symbol. cbn [find value].
  rewrite (proj2 (byte_eqb_eq _ _) eq_refl). reflexivity.
Qed.

(** An entry that spans the whole total leaves the full interval as it
    is. *)
Lemma narrow_whole (b : byte) (N : Z) :
  0 < N < 2 ^ 32 ->
  encode_narrow 0 MAX_RANGE (mkSymbol b 0 N N) N = (0, MAX_RANGE).
Proof.
  intros HN.
  destruct (encode_narrow_spec 0 MAX_RANGE (mkSymbol b 0 N N) N) as (E & _);
    cbn [low high]; try (unfold MAX_RANGE; lia).
  rewrite E. cbn [low high]. rewrite Z.mul_0_r, Z.div_0_l, Z.div_mul by lia.
  reflexivity.
Qed.

Lemma encode_renorm_full (btf : Z) (w : BitWriter.t) :
  encode_renorm renorm_fuel 0 MAX_RANGE btf w = Ok (mkEnc 0 MAX_RANGE btf w).
Proof.
  unfold renorm_fuel. rewrite encode_renorm_S by (unfold MAX_RANGE; lia). reflexivity.
Qed.

Lemma decode_renorm_full (v : Z) (rd : BitReader.t) :
  decode_renorm renorm_fuel 0 MAX_RANGE v rd = Ok (mkDec 0 MAX_RANGE v rd).
Proof.
  unfold renorm_fuel. rewrite decode_renorm_S by (unfold MAX_RANGE; lia). reflexivity.
Qed.

Lemma encode_loop_constant (b : byte) (N : Z) (n : nat) (btf : Z) (w : BitWriter.t) :
  0 < N < 2 ^ 32 ->
  encode_loop (mkEncoder [mkSymbol b 0 N N] N) (mkEnc 0 MAX_RANGE btf w) (repeat b n)
  = Ok (mkEnc 0 MAX_RANGE btf w).
Proof.
  intros HN. induction n as [|n IH]; [reflexivity|].
  cbn [repeat encode_loop]. unfold encode_byte. cbn [symbols total_count].
  rewrite find_symbol_single.
  destruct (Z.eqb_spec N 0) as [|_]; [lia|].
  cbn [enc_low enc_high bits_to_follow writer].
  rewrite (narrow_whole b N HN), encode_renorm_full. cbn [bind]. exact IH.
Qed.

Lemma decode_loop_constant (b : byte) (N : Z) (n : nat) : forall (v : Z) (rd : BitReader.t)
    (output : list byte),
  0 < N < 2 ^ 32 -> 0 <= v < 2 ^ 32 ->
  decode_loop (mkEncoder [mkSymbol b 0 N N] N) n (mkDec 0 MAX_RANGE v rd) output
  = Ok (output ++ repeat b n).
Proof.
  induction n as [|n IH]; intros v rd output HN Hv.
  - cbn [decode_loop repeat]. rewrite app_nil_r. reflexivity.
  - cbn [decode_loop]. unfold decode_step.
    cbn [symbols total_count dec_low dec_high dec_value reader].
    rewrite decode_cum_spec by (unfold MAX_RANGE; lia).
    set (cum := ((v - 0 + 1) * N - 1) / (MAX_RANGE - 0 + 1)).
    assert (Hcum : 0 <= cum < N).
    { unfold cum, MAX_RANGE. split.
      - apply Z.div_pos; nia.
      - apply Z.div_lt_upper_bound; nia. }
    cbn [decodeSymbol low high value].
    destruct (Z.geb_spec cum 0) as [_|]; [|lia].
    destruct (Z.ltb_spec cum N) as [_|]; [|lia]. cbn [andb].
    rewrite find_symbol_single.
    destruct (Z.eqb_spec N 0) as [|_]; [lia|].
    replace (decode_narrow 0 MAX_RANGE (mkSymbol b 0 N N) N) with (0, MAX_RANGE)
      by (rewrite <- (narrow_whole b N HN); reflexivity).
    rewrite decode_renorm_full. cbn [bind].
    rewrite IH by assumption. rewrite <- app_assoc. reflexivity.
Qed.

(** X18.  An input that repeats one byte [n] times, for any [n] from 1 to
    [2^32 - 1], is compressed to the same 26 bytes but for the two size
    fields: the interval never moves, the bitstream is the one byte 0x40,
    and [decompress] returns the input. *)
Theorem constant_input_roundtrip (self other : Encoder) (b : byte) (n : nat) :
  (0 < n)%nat -> Z.of_nat n < 2 ^ 32 ->
  compress self (repeat b n)
  = Ok (mkEncoder [mkSymbol b 0 (Z.of_nat n) (Z.of_nat n)] (Z.of_nat n),
        magic ++ writeUint64 (Z.of_nat n) ++ writeUint32 1
              ++ (b :: writeUint64 (Z.of_nat n)) ++ [x40],
        mkStatistics (Z.of_nat n) 26 (Z.of_nat n - 26))
  /\ decompress other
       (magic ++ writeUint64 (Z.of_nat n) ++ writeUint32 1
              ++ (b :: writeUint64 (Z.of_nat n)) ++ [x40])
     = Ok (mkEncoder [mkSymbol b 0 (Z.of_nat n) (Z.of_nat n)] (Z.of_nat n), repeat b n).
Proof.
  intros Hpos Hn. destruct n as [|k]; [lia|].
  set (N := Z.of_nat (S k)) in *.
  assert (HN : 0 < N < 2 ^ 32) by (unfold N; lia).
  set (m := mkEncoder [mkSymbol b 0 N N] N).
  assert (Hm : forall e, buildFrequencyTable e (repeat b (S k)) = m).
  { intros e. unfold buildFrequencyTable. rewrite tally_repeat, repeat_length. fold N.
    cbn [push_frequencies]. rewrite Z.add_0_l, !(u64_small N) by lia. reflexivity. }
  split.
  - unfold compress. rewrite Hm, repeat_length. fold N.
    unfold encodeData, m. rewrite encode_loop_constant by exact HN. cbn [bind].
    rewrite (u64_small N) by lia. reflexivity.
  - pose proof (decompress_file other N [mkSymbol b 0 N N] [x40] ltac:(lia)
                  ltac:(cbn; lia) ltac:(repeat constructor; cbn [count]; lia)) as H.
    cbn [length put_table app map value count] in H.
    change (Z.of_nat 1) with 1 in H. rewrite app_nil_r in H.
    cbn [app]. cbn [app] in H. rewrite H. clear H.
    unfold buildSymbolsFromCounts. cbn [push_counts]. rewrite Z.add_0_l, (u64_small N) by lia.
    fold m. unfold decodeData.
    pose proof (fill_value_range 32 0 (BitReader.make [x40]) ltac:(lia)) as Hv.
    destruct (fill_value 32 0 (BitReader.make [x40])) as [v rd]. cbn [fst] in Hv.
    unfold m. rewrite decode_loop_constant by assumption.
    unfold N. rewrite Nat2Z.id. reflexivity.
Qed.

Lemma constant_input_roundtrip_witness :
  compress (mkEncoder [] 0) (repeat x61 5)
  = Ok (mkEncoder [mkSymbol x61 0 (Z.of_nat 5) (Z.of_nat 5)] (Z.of_nat 5),
        magic ++ writeUint64 (Z.of_nat 5) ++ writeUint32 1
              ++ (x61 :: writeUint64 (Z.of_nat 5)) ++ [x40],
        mkStatistics (Z.of_nat 5) 26 (Z.of_nat 5 - 26))
  /\ decompress (mkEncoder [] 0)
       (magic ++ writeUint64 (Z.of_nat 5) ++ writeUint32 1
              ++ (x61 :: writeUint64 (Z.of_nat 5)) ++ [x40])
     = Ok (mkEncoder [mkSymbol x61 0 (Z.of_nat 5) (Z.of_nat 5)] (Z.of_nat 5), repeat x61 5).
Proof.
  apply (constant_input_roundtrip (mkEncoder [] 0) (mkEncoder [] 0) x61 5); cbn; lia.
Defined.

(** ** Bytes the table does not hold *)

Lemma encode_loop_skips (self : Encoder) (data : list byte) : forall st : EncState,
  encode_loop self st data
  = encode_loop self st
      (filter (fun b => match find_symbol b (symbols self) with
                        | Some _ => true
                        | None => false
                        end) data).
Proof.
  induction data as [|b data IH]; intros st; [reflexivity|].
  cbn [filter]. destruct (find_symbol b (symbols self)) as [it|] eqn:Hfind.
  - cbn [encode_loop]. destruct (encode_byte self st b) as [st'|e]; [|reflexivity].
    cbn [bind]. apply IH.
  - cbn [encode_loop]. unfold encode_byte. rewrite Hfind. cbn [bind]. apply IH.
Qed.

(** X19.  [encodeData] passes over the bytes its table has no entry for:
    the bitstream of any data is the bitstream of the data with those
    bytes removed, and no error is raised for them. *)
Theorem encodeData_skips_unknown_bytes (self : Encoder) (data : list byte) (w : BitWriter.t) :
  encodeData self data w
  = encodeData self
      (filter (fun b => match find_symbol b (symbols self) with
                        | Some _ => true
                        | None => false
                        end) data) w.
Proof.
  unfold encodeData. rewrite <- encode_loop_skips. reflexivity.
Qed.

(** ** The size of the output *)

Lemma emitted_length (lo hi btf : Z) :
  0 <= btf ->
  0 <= follow_after lo hi btf
  /\ Z.of_nat (length (emitted lo hi btf)) + follow_after lo hi btf <= btf + 1.
Proof.
  intros Hb. unfold emitted, follow_after.
  destruct (hi <? HALF); [rewrite emit_length; lia|].
  destruct (lo >=? HALF); [rewrite emit_length; lia|].
  cbn [length]. pose proof (u32_range (btf + 1)) as Hr.
  assert (u32 (btf + 1) <= btf + 1) by (unfold u32; apply Z.mod_le; lia).
  lia.
Qed.

(** Every pass through the body of the encoder's loop accounts for one
    bit: written at once, or owed through [bits_to_follow]. *)
Lemma encode_renorm_bits (n : nat) : forall (fuel : nat) (lo hi btf : Z) (w : BitWriter.t)
    (st : EncState),
  (n <= 32)%nat ->
  0 <= lo < 2 ^ 32 -> 0 <= hi < 2 ^ 32 -> shifted (32 - n) lo hi ->
  0 <= btf -> wf_writer w ->
  encode_renorm fuel lo hi btf w = Ok st ->
  wf_writer (writer st) /\ 0 <= bits_to_follow st
  /\ (length (written w) <= length (written (writer st)))%nat
  /\ Z.of_nat (length (written (writer st))) + bits_to_follow st
     <= Z.of_nat (length (written w)) + btf + Z.of_nat n.
Proof.
  induction n as [|n IH]; intros fuel lo hi btf w st Hn Hl Hh Hs Hb Hw Hrun;
    (destruct fuel as [|fuel]; [discriminate|]);
    rewrite encode_renorm_S in Hrun by assumption.
  - rewrite (shifted_32 lo hi Hl Hh Hs) in Hrun.
    assert (E : st = mkEnc lo hi btf w) by congruence. subst st.
    cbn [writer bits_to_follow]. split; [assumption|]. split; [assumption|]. split; lia.
  - destruct (scale lo hi) as [[lo' hi']|] eqn:Hsc.
    + destruct (scale_range lo hi lo' hi' Hl Hh Hsc) as [Hl' Hh'].
      destruct (writer_after_written lo hi btf w Hw) as [Hw' Hwr].
      destruct (emitted_length lo hi btf Hb) as [Hf Hlen].
      assert (Hs' : shifted (32 - n) lo' hi').
      { replace (32 - n)%nat with (S (32 - S n)) by lia.
        apply (scale_shifted (32 - S n) lo hi); try assumption. lia. }
      destruct (IH fuel lo' hi' _ _ st ltac:(lia) Hl' Hh' Hs' Hf Hw' Hrun)
        as (H1 & H2 & H3 & H4).
      rewrite Hwr, length_app in H3, H4.
      split; [assumption|]. split; [assumption|]. split; lia.
    + assert (E : st = mkEnc lo hi btf w) by congruence. subst st.
      cbn [writer bits_to_follow]. split; [assumption|]. split; [assumption|]. split; lia.
Qed.

Lemma encode_byte_bits (self : Encoder) (st st' : EncState) (b : byte) :
  0 <= bits_to_follow st -> wf_writer (writer st) ->
  encode_byte self st b = Ok st' ->
  wf_writer (writer st') /\ 0 <= bits_to_follow st'
  /\ (length (written (writer st)) <= length (written (writer st')))%nat
  /\ Z.of_nat (length (written (writer st'))) + bits_to_follow st'
     <= Z.of_nat (length (written (writer st))) + bits_to_follow st + 32.
Proof.
  intros Hb Hw. unfold encode_byte.
  destruct (find_symbol b (symbols self)) as [it|].
  - destruct (Z.eqb_spec (total_count self) 0) as [|_]; [discriminate|].
    pose proof (encode_narrow_range (enc_low st) (enc_high st) it (total_count self))
      as [Hnl Hnh].
    destruct (encode_narrow _ _ it _) as [lo hi]. cbn [fst snd] in *.
    intros Hrun.
    apply (encode_renorm_bits 32 renorm_fuel lo hi (bits_to_follow st) (writer st) st');
      try assumption; try lia. apply shifted_0.
  - intros E. assert (st' = st) by congruence. subst st'.
    split; [assumption|]. split; [assumption|]. split; lia.
Qed.

Lemma encode_loop_bits (self : Encoder) (data : list byte) : forall st st' : EncState,
  0 <= bits_to_follow st -> wf_writer (writer st) ->
  encode_loop self st data = Ok st' ->
  wf_writer (writer st') /\ 0 <= bits_to_follow st'
  /\ (length (written (writer st)) <= length (written (writer st')))%nat
  /\ Z.of_nat (length (written (writer st'))) + bits_to_follow st'
     <= Z.of_nat (length (written (writer st))) + bits_to_follow st
        + 32 * Z.of_nat (length data).
Proof.
  induction data as [|b data IH]; intros st st' Hb Hw Hrun.
  - cbn [encode_loop] in Hrun. assert (st' = st) by congruence. subst st'.
    cbn [length]. split; [assumption|]. split; [assumption|]. split; lia.
  - cbn [encode_loop] in Hrun.
    destruct (encode_byte self st b) as [st1|e] eqn:Hbyte; [|discriminate].
    cbn [bind] in Hrun.
    destruct (encode_byte_bits self st st1 b Hb Hw Hbyte) as (H1 & H2 & H3 & H4).
    destruct (IH st1 st' H2 H1 Hrun) as (K1 & K2 & K3 & K4).
    cbn [length]. rewrite Nat2Z.inj_succ.
    split; [assumption|]. split; [assumption|]. split; lia.
Qed.

Lemma encode_tail_bits (st : EncState) :
  0 <= bits_to_follow st -> wf_writer (writer st) ->
  wf_writer (encode_tail st)
  /\ Z.of_nat (length (written (writer st))) + 1
     <= Z.of_nat (length (written (encode_tail st)))
     <= Z.of_nat (length (written (writer st))) + bits_to_follow st + 2.
Proof.
  intros Hb Hw. unfold encode_tail.
  pose proof (u32_range (bits_to_follow st + 1)) as Hr.
  assert (Hle : u32 (bits_to_follow st + 1) <= bits_to_follow st + 1)
    by (unfold u32; apply Z.mod_le; lia).
  destruct (enc_low st <? FIRST_QTR).
  - destruct (emit_written (writer st) 0 (u32 (bits_to_follow st + 1)) Hw ltac:(auto))
      as [Hw' Hwr].
    change (1 - 0) with 1 in Hw', Hwr.
    split; [exact Hw'|]. rewrite Hwr, length_app, emit_length. lia.
  - destruct (emit_written (writer st) 1 (u32 (bits_to_follow st + 1)) Hw ltac:(auto))
      as [Hw' Hwr].
    change (1 - 1) with 0 in Hw', Hwr.
    split; [exact Hw'|]. rewrite Hwr, length_app, emit_length. lia.
Qed.

(** The bitstream [encodeData] hands to a fresh writer: at least one byte,
    at most four per byte of data and one more. *)
Lemma encodeData_bytes (self : Encoder) (data : list byte) (w : BitWriter.t) :
  encodeData self data BitWriter.empty = Ok w ->
  1 <= Z.of_nat (length (BitWriter.bytes w)) <= 4 * Z.of_nat (length data) + 1.
Proof.
  unfold encodeData.
  destruct (encode_loop self (mkEnc 0 MAX_RANGE 0 BitWriter.empty) data) as [st|e] eqn:Hloop;
    [|discriminate].
  cbn [bind]. intros E. assert (w = encode_finish st) by congruence. subst w. clear E.
  destruct (encode_loop_bits self data (mkEnc 0 MAX_RANGE 0 BitWriter.empty) st
              ltac:(cbn [bits_to_follow]; lia) wf_writer_empty Hloop)
    as (H1 & H2 & _ & H4).
  cbn [writer bits_to_follow] in H4.
  change (written BitWriter.empty) with (@nil Z) in H4. cbn [length] in H4.
  destruct (encode_tail_bits st H2 H1) as (Hw & Hlo & Hhi).
  unfold encode_finish.
  destruct (flush_pads (encode_tail st) Hw) as (Hbits & _).
  apply (f_equal (@length Z)) in Hbits.
  rewrite bits_of_bytes_length, length_app, repeat_length in Hbits.
  destruct Hw as [Hf _].
  assert (Hpad : 0 <= (8 - BitWriter.bits_filled (encode_tail st)) mod 8 < 8)
    by (apply Z.mod_pos_bound; lia).
  lia.
Qed.

(** X20.  The size of what [compress] writes.  The file has 16 bytes of
    header, 9 bytes per table entry and a bitstream of at least one byte
    and at most four bytes per input byte plus one; so it is never longer
    than 17 + 13 bytes per input byte, and no input of fewer than 26
    bytes comes out smaller than it went in. *)
Theorem compress_size_bounds (self : Encoder) (data : list byte) :
  Z.of_nat (length data) < 2 ^ 64 ->
  exists (m : Encoder) (outfile : list byte) (stats : Statistics),
    compress self data = Ok (m, outfile, stats)
    /\ space_saved stats = Z.of_nat (length data) - Z.of_nat (length outfile)
    /\ 17 + 9 * Z.of_nat (length (symbols m)) <= Z.of_nat (length outfile)
    /\ Z.of_nat (length outfile)
       <= 17 + 9 * Z.of_nat (length (symbols m)) + 4 * Z.of_nat (length data)
    /\ Z.of_nat (length outfile) <= 17 + 13 * Z.of_nat (length data)
    /\ ((length data < 26)%nat -> space_saved stats < 0).
Proof.
  intros Hlen.
  destruct (compress_returns self data Hlen) as (w & Henc & Hrun).
  destruct (table_size self data) as [_ Hk].
  destruct (buildFrequencyTable_spec self data Hlen) as ([Hsum _] & _ & _ & Htot & _).
  cbn zeta in Htot. rewrite Htot in Hsum.
  pose proof (encodeData_bytes _ data w Henc) as Hbytes.
  set (m := buildFrequencyTable self data) in *.
  assert (Hne : data <> [] -> 1 <= Z.of_nat (length (symbols m))).
  { intros Hd. destruct (symbols m) as [|s rest] eqn:Es; [|cbn [length]; lia].
    exfalso. unfold sum_counts in Hsum. cbn [fold_right] in Hsum.
    destruct data; [contradiction|]. cbn [length] in Hsum. lia. }
  eexists m, _, _. split; [exact Hrun|].
  cbn [space_saved].
  rewrite !length_app. unfold writeUint64, writeUint32.
  rewrite !put_be_length, put_table_length. cbn [magic length].
  split; [lia|]. split; [lia|]. split; [lia|]. split; [lia|].
  intros Hsmall. destruct data as [|b0 data0]; [cbn [length] in *; lia|].
  specialize (Hne ltac:(discriminate)). lia.
Qed.

Lemma compress_size_bounds_witness :
  exists (m : Encoder) (outfile : list byte) (stats : Statistics),
    compress (mkEncoder [] 0) [x61; x62; x61] = Ok (m, outfile, stats)
    /\ space_saved stats = Z.of_nat (length [x61; x62; x61]) - Z.of_nat (length outfile)
    /\ 17 + 9 * Z.of_nat (length (symbols m)) <= Z.of_nat (length outfile)
    /\ Z.of_nat (length outfile)
       <= 17 + 9 * Z.of_nat (length (symbols m)) + 4 * Z.of_nat (length [x61; x62; x61])
    /\ Z.of_nat (length outfile) <= 17 + 13 * Z.of_nat (length [x61; x62; x61])
    /\ ((length [x61; x62; x61] < 26)%nat -> space_saved stats < 0).
Proof.
  apply (compress_size_bounds (mkEncoder [] 0) [x61; x62; x61]).
  vm_compute. reflexivity.
Defined.

(** ** The engine with any model *)

(** X21.  The interval engine inverts itself with any static model, not
    only the frequencies of the data: for a table whose shares partition
    [[0, total)], with distinct bytes, positive counts and a total of at
    most [2^30], and data of fewer than [2^27] bytes all of which have an
    entry, [decodeData] reads the data back from the bytes [encodeData]
    wrote. *)
Theorem engine_roundtrip (self : Encoder) (data : list byte) :
  partitions 0 (symbols self) (total_count self) ->
  distinct_values (symbols self) ->
  Forall (fun s => 0 < count s) (symbols self) ->
  0 < total_count self <= 2 ^ 30 ->
  (forall b, In b data -> In b (map value (symbols self))) ->
  Z.of_nat (length data) < 2 ^ 27 ->
  exists w : BitWriter.t,
    encodeData self data BitWriter.empty = Ok w
    /\ decodeData self (BitReader.make (BitWriter.bytes w)) [] (Z.of_nat (length data))
       = Ok data.
Proof.
  intros Hpart Hdistinct Hpos Htotal Hin Hlen.
  destruct (encodeData_total self data BitWriter.empty ltac:(right; lia)) as [w Hw].
  exists w. split; [exact Hw|].
  unfold encodeData in Hw.
  destruct (encode_loop self (mkEnc 0 MAX_RANGE 0 BitWriter.empty) data) as [st|e] eqn:Hloop;
    [|discriminate].
  cbn [bind] in Hw. assert (w = encode_finish st) by congruence. subst w. clear Hw.
  destruct (loop_sim self Hpart Hdistinct Hpos Htotal
              data 0 MAX_RANGE 0 BitWriter.empty st)
    as (Hwt & W & Hwr & HW & _ & _ & Hdec); try (unfold MAX_RANGE; lia).
  - reflexivity.
  - apply wf_writer_empty.
  - exact Hin.
  - exact Hloop.
  - change (written BitWriter.empty) with (@nil Z) in Hwr. cbn [app] in Hwr.
    unfold encode_finish.
    destruct (flush_written (encode_tail st) Hwt) as [pad Hflush].
    rewrite Hwr in Hflush.
    set (bitstream := BitWriter.bytes (BitWriter.flush (encode_tail st))) in *.
    assert (Hat : reader_at (BitReader.make bitstream) W 0).
    { split; [cbn; lia|]. intros i. rewrite remaining_make, Hflush.
      apply sbit_pad. }
    destruct (fill_value_at 32 (BitReader.make bitstream) W 0 0 Hat HW ltac:(lia) ltac:(cbn; lia))
      as (rd & Hfill & Hat').
    unfold decodeData. rewrite Hfill.
    change (0 * 2 ^ Z.of_nat 32 + fvalue 32 (sbit W) 0) with (window (Z.to_nat 0) W).
    rewrite Nat2Z.id.
    rewrite (Hdec rd [] Hat'). reflexivity.
Qed.

Lemma engine_roundtrip_witness :
  exists w : BitWriter.t,
    encodeData (mkEncoder [mkSymbol x61 0 5 5; mkSymbol x62 5 6 1; mkSymbol x63 6 8 2] 8)
      [x62; x61; x61] BitWriter.empty = Ok w
    /\ decodeData (mkEncoder [mkSymbol x61 0 5 5; mkSymbol x62 5 6 1; mkSymbol x63 6 8 2] 8)
         (BitReader.make (BitWriter.bytes w)) [] (Z.of_nat (length [x62; x61; x61]))
       = Ok [x62; x61; x61].
Proof.
  apply (engine_roundtrip
           (mkEncoder [mkSymbol x61 0 5 5; mkSymbol x62 5 6 1; mkSymbol x63 6 8 2] 8)
           [x62; x61; x61]).
  - cbn. repeat split; lia.
  - repeat constructor; cbn; intuition discriminate.
  - repeat constructor; cbn; lia.
  - cbn. lia.
  - intros b Hb. cbn in Hb |- *. intuition.
  - cbn. lia.
Defined.

(** ** Decoding a shorter size *)

Lemma decode_loop_extends (self : Encoder) (n : nat) : forall (st : DecState)
    (output decoded : list byte),
  decode_loop self n st output = Ok decoded ->
  exists ext, decoded = output ++ ext /\ length ext = n.
Proof.
  induction n as [|n IH]; intros st output decoded Hrun.
  - cbn [decode_loop] in Hrun. exists []. rewrite app_nil_r. split; [congruence|reflexivity].
  - cbn [decode_loop] in Hrun. destruct (decode_step self st) as [b next].
    destruct next as [st'|e]; [|discriminate]. cbn [bind] in Hrun.
    destruct (IH _ _ _ Hrun) as (ext & -> & Hlen).
    exists (b :: ext). rewrite <- app_assoc. split; [reflexivity|cbn [length]; lia].
Qed.

Lemma decode_loop_prefix (self : Encoder) (n k : nat) : forall (st : DecState)
    (output decoded : list byte),
  decode_loop self (n + k) st output = Ok decoded ->
  decode_loop self n st output = Ok (firstn (length output + n) decoded).
Proof.
  induction n as [|n IH]; intros st output decoded Hrun.
  - cbn [Nat.add] in Hrun. destruct (decode_loop_extends _ _ _ _ _ Hrun) as (ext & -> & _).
    cbn [decode_loop]. rewrite Nat.add_0_r, firstn_app, Nat.sub_diag, firstn_O, app_nil_r.
    rewrite firstn_all. reflexivity.
  - cbn [Nat.add decode_loop] in Hrun |- *. destruct (decode_step self st) as [b next].
    destruct next as [st'|e]; [|discriminate]. cbn [bind] in Hrun |- *.
    rewrite (IH _ _ _ Hrun). rewrite length_app. cbn [length].
    do 2 f_equal. lia.
Qed.

(** X22.  The decoder works front to back: if [decodeData] returns for a
    declared size, then for every smaller declared size it returns, from
    the same bitstream, the first bytes of that result. *)
Theorem decodeData_prefix (self : Encoder) (rd : BitReader.t) (n k : nat)
    (decoded : list byte) :
  decodeData self rd [] (Z.of_nat (n + k)) = Ok decoded ->
  decodeData self rd [] (Z.of_nat n) = Ok (firstn n decoded).
Proof.
  unfold decodeData. destruct (fill_value 32 0 rd) as [v rd'].
  rewrite !Nat2Z.id. intros Hrun.
  apply (decode_loop_prefix self n k) in Hrun. exact Hrun.
Qed.

Lemma decodeData_prefix_witness :
  decodeData (mkEncoder [mkSymbol x61 0 2 2; mkSymbol x62 2 3 1] 3)
    (BitReader.make [x5a; xc3]) [] (Z.of_nat 2)
  = Ok (firstn 2 [x61; x61; x62; x61; x61]).
Proof.
  apply (decodeData_prefix _ _ 2 3 [x61; x61; x62; x61; x61]).
  vm_compute. reflexivity.
Defined.

(** ** Outcomes *)








